(** * A verification model of [mini_compiler.py]

    The program is a four-stage pipeline for one line of arithmetic:
    [Lexer.tokens] (text to tokens), [Parser.parse] (tokens to a statement
    tree), [Codegen.gen] (tree to stack bytecode) and [VM.run] (bytecode
    against an operand stack and a variable environment).  Every stage is
    embedded below as an executable function that follows the Python text
    method by method, and the properties of the pipeline are proved about
    these functions.

    Conventions of the embedding.
    - A Python [str] is a [string]; each character stands for one code point
      below 256, and [isspace], [isdigit], [isalpha], [isalnum] are the
      restrictions of the Python predicates to that range.
    - A Python [int] is a [Z].  A Python [float] (and the [complex] that
      [**] may return) belongs to the host: it is the carrier [hfloat] of the
      class [Host], together with the five host operations the program
      reaches.  Everything is proved for an arbitrary host.
    - An exception is a value of [exn]; a computation that may raise returns
      a [result].  [VM.run] mutates the machine before it raises, so it
      returns the machine it leaves behind together with the exception.
    - Loops and recursive descent take a budget of steps; [tokens] and
      [parse] call them with a budget that is proved sufficient
      ([tokens_never_OutOfFuel], [parse_never_OutOfFuel]).
    - Of the interpreter's own limits, the digit limit of the conversions
      between [int] and [str] is modelled ([int_of_string], [printable]).
      The recursion limit is not: on a line nested more deeply than the
      interpreter allows, [Parser] and [Codegen] raise [RecursionError],
      before the machine runs, where the model goes on.  A property that
      says what a whole line does or raises therefore names
      [RecursionError] among the outcomes.
    - The session ([repl]) reads from a list of inputs, each a line or one
      of the two exceptions of [input], and writes to a list of outputs;
      when the inputs are used up it waits at its prompt.
    - The annotations of the dataclasses are taken as types.  Where the
      source would let a payload of another type through, the model stops
      with [TypeError]; no line of text gets there
      ([compile_and_run_reported]). *)

From Stdlib Require Import ZArith List String Ascii Bool Lia Sorted.
From Stdlib Require Decimal DecimalString DecimalNat DecimalN DecimalFacts.
From stdpp Require Import gmap strings.
Import ListNotations.
Local Open Scope string_scope.
Local Open Scope list_scope.

(** ** Exceptions and results *)

Inductive TokenType :=
| NUMBER | IDENT | PRINT | PLUS | MINUS | MUL | DIV | POW
| LPAREN | RPAREN | ASSIGN | EOF.

Definition TokenType_eqb (a b : TokenType) : bool :=
  match a, b with
  | NUMBER, NUMBER | IDENT, IDENT | PRINT, PRINT | PLUS, PLUS
  | MINUS, MINUS | MUL, MUL | DIV, DIV | POW, POW
  | LPAREN, LPAREN | RPAREN, RPAREN | ASSIGN, ASSIGN | EOF, EOF => true
  | _, _ => false
  end.

(** The three [SyntaxError] messages of the source, with their arguments. *)
Inductive syntax_msg :=
| Unexpected_character (ch : ascii) (start : nat)
| Expected_but_found (kind found : TokenType) (at_pos : nat)
| Unexpected_token (found : TokenType) (at_pos : nat).

Inductive exn :=
| SyntaxError (msg : syntax_msg)
| ValueError (literal : string)
| IndexError
| NameError (name : string)
| NotImplementedError (what : string)
| RuntimeError (what : string)
| ZeroDivisionError
| OverflowError
| TypeError
| RecursionError
| OutOfFuel (* no exception of the source: the budget of a loop has ended *).

Inductive result (A : Type) :=
| Ok (a : A)
| Raise (e : exn).
Arguments Ok {A} a.
Arguments Raise {A} e.

Definition bind {A B : Type} (r : result A) (k : A -> result B) : result B :=
  match r with
  | Ok a => k a
  | Raise e => Raise e
  end.

Notation "x <- r ;; k" := (bind r (fun x => k))
  (at level 100, r at next level, right associativity).

(** ** Numbers *)

(** A value of the language: a Python [int], or a number of the host. *)
Inductive pynum (F : Type) :=
| PyInt (z : Z)
| PyFloat (f : F).
Arguments PyInt {F} z.
Arguments PyFloat {F} f.

Inductive arith := Add | Sub | Mul | Div | Pow.

(** The exceptions of the interpreter's arithmetic. *)
Inductive host_exn :=
| HostValueError (literal : string)
| HostZeroDivisionError
| HostOverflowError.

Inductive host_result (A : Type) :=
| HostOk (a : A)
| HostRaise (e : host_exn).
Arguments HostOk {A} a.
Arguments HostRaise {A} e.

Definition from_host {A : Type} (r : host_result A) : result A :=
  match r with
  | HostOk a => Ok a
  | HostRaise (HostValueError literal) => Raise (ValueError literal)
  | HostRaise HostZeroDivisionError => Raise ZeroDivisionError
  | HostRaise HostOverflowError => Raise OverflowError
  end.

(** What the program needs from the interpreter's inexact arithmetic.
    - [float_of_string num] is [float(num)] for a run of digit characters
      with one decimal point; it raises when a digit is not a decimal.
    - [float_neg f] is [-f].
    - [float_arith o a b] is [a o b] when [a] or [b] is not an [int].
    - [int_truediv a b] is [a / b] for two [int]s, [b] not zero.
    - [int_negpow a b] is [a ** b] for two [int]s, [a] not zero, [b]
      negative. *)
Class Host := {
  hfloat : Type;
  float_of_string : string -> host_result hfloat;
  float_neg : hfloat -> hfloat;
  float_arith : arith -> pynum hfloat -> pynum hfloat -> host_result hfloat;
  int_truediv : Z -> Z -> host_result hfloat;
  int_negpow : Z -> Z -> host_result hfloat
}.

(** The payload of a token and the operand of an instruction ([Any] in the
    source): [None], a number or a string. *)
Inductive pyval (F : Type) :=
| PyNone
| PyNum (v : pynum F)
| PyStr (s : string).
Arguments PyNone {F}.
Arguments PyNum {F} v.
Arguments PyStr {F} s.

Record Token (F : Type) := mkToken {
  type : TokenType;
  value : pyval F;
  pos : nat
}.
Arguments mkToken {F} type value pos.
Arguments type {F} t.
Arguments value {F} t.
Arguments pos {F} t.

(** The six node classes; [Other] is any object of another class. *)
Inductive Node (F : Type) :=
| Num (v : pynum F)
| Var (name : string)
| BinOp (op : string) (left right : Node F)
| UnaryOp (op : string) (expr : Node F)
| Assign (name : string) (expr : Node F)
| PrintStmt (expr : Node F)
| Other.
Arguments Num {F} v.
Arguments Var {F} name.
Arguments BinOp {F} op left right.
Arguments UnaryOp {F} op expr.
Arguments Assign {F} name expr.
Arguments PrintStmt {F} expr.
Arguments Other {F}.

Record Instr (F : Type) := mkInstr {
  op : string;
  arg : pyval F
}.
Arguments mkInstr {F} op arg.
Arguments op {F} i.
Arguments arg {F} i.

Record VM (F : Type) := mkVM {
  stack : list (pynum F);
  env : gmap string (pynum F)
}.
Arguments mkVM {F} stack env.
Arguments stack {F} v.
Arguments env {F} v.

(** ** Character classes of [str], below code point 256 *)

Definition code (c : ascii) : nat := nat_of_ascii c.

Definition between (lo hi n : nat) : bool := (lo <=? n)%nat && (n <=? hi)%nat.

Definition isspace (c : ascii) : bool :=
  between 9 13 (code c) || between 28 32 (code c)
  || (code c =? 133)%nat || (code c =? 160)%nat.

Definition isdigit (c : ascii) : bool :=
  between 48 57 (code c) || between 178 179 (code c) || (code c =? 185)%nat.

Definition isalpha (c : ascii) : bool :=
  between 65 90 (code c) || between 97 122 (code c)
  || (code c =? 170)%nat || (code c =? 181)%nat || (code c =? 186)%nat
  || between 192 214 (code c) || between 216 246 (code c)
  || between 248 255 (code c).

Definition isalnum (c : ascii) : bool :=
  isalpha c || isdigit c || between 188 190 (code c).

(** The limit of the conversions between [int] and [str]
    ([sys.int_max_str_digits]).  The [ValueError] of the limit carries, in
    place of a literal, the words with which the message of [int] and the
    message of [str] both begin. *)
Definition int_max_str_digits : nat := 4300.

Definition digit_limit : string :=
  "Exceeds the limit (4300 digits) for integer string conversion".

(** [int(num)]: the decimal value of a run of ASCII digits; another digit
    character (a superscript) is a [ValueError], and so is a run of more
    than 4300 digits. *)
Definition is_ascii_digit (c : ascii) : bool := between 48 57 (code c).

Fixpoint int_digits (acc : Z) (num : string) : option Z :=
  match num with
  | EmptyString => Some acc
  | String c rest =>
      if is_ascii_digit c
      then int_digits (10 * acc + Z.of_nat (code c - 48)) rest
      else None
  end.

Definition int_of_string (num : string) : result Z :=
  match num with
  | EmptyString => Raise (ValueError num)
  | _ => match int_digits 0 num with
         | Some z =>
             if (String.length num <=? int_max_str_digits)%nat then Ok z
             else Raise (ValueError digit_limit)
         | None => Raise (ValueError num)
         end
  end.

(** [str(val)], which [print] calls: an [int] of more than 4300 decimal
    digits is refused; a number of the host is not. *)
Definition str_digits (z : Z) : nat :=
  Decimal.nb_digits (N.to_uint (Z.abs_N z)).

Definition printable {F : Type} (v : pynum F) : bool :=
  match v with
  | PyInt z => (str_digits z <=? int_max_str_digits)%nat
  | PyFloat _ => true
  end.

Fixpoint contains_char (c : ascii) (s : string) : bool :=
  match s with
  | EmptyString => false
  | String d rest => Ascii.eqb d c || contains_char c rest
  end.

Section Pipeline.

Context {host : Host}.

Abbreviation num := (pynum hfloat).
Abbreviation token := (Token hfloat).
Abbreviation node := (Node hfloat).
Abbreviation instr := (Instr hfloat).
Abbreviation vm := (VM hfloat).

(** ** Arithmetic of the values *)

Definition py_neg (a : num) : num :=
  match a with
  | PyInt z => PyInt (- z)
  | PyFloat f => PyFloat (float_neg f)
  end.

Definition py_add (a b : num) : result num :=
  match a, b with
  | PyInt x, PyInt y => Ok (PyInt (x + y))
  | _, _ => f <- from_host (float_arith Add a b) ;; Ok (PyFloat f)
  end.

Definition py_sub (a b : num) : result num :=
  match a, b with
  | PyInt x, PyInt y => Ok (PyInt (x - y))
  | _, _ => f <- from_host (float_arith Sub a b) ;; Ok (PyFloat f)
  end.

Definition py_mul (a b : num) : result num :=
  match a, b with
  | PyInt x, PyInt y => Ok (PyInt (x * y))
  | _, _ => f <- from_host (float_arith Mul a b) ;; Ok (PyFloat f)
  end.

Definition py_truediv (a b : num) : result num :=
  match a, b with
  | PyInt x, PyInt y =>
      if (y =? 0)%Z then Raise ZeroDivisionError
      else f <- from_host (int_truediv x y) ;; Ok (PyFloat f)
  | _, _ => f <- from_host (float_arith Div a b) ;; Ok (PyFloat f)
  end.

Definition py_pow (a b : num) : result num :=
  match a, b with
  | PyInt x, PyInt y =>
      if (0 <=? y)%Z then Ok (PyInt (x ^ y))
      else if (x =? 0)%Z then Raise ZeroDivisionError
      else f <- from_host (int_negpow x y) ;; Ok (PyFloat f)
  | _, _ => f <- from_host (float_arith Pow a b) ;; Ok (PyFloat f)
  end.

(** ** Lexer *)

(** The lexer's cursor is the text from [self.i] on, with [self.i]. *)

(** [skip_ws]. *)
Fixpoint skip_ws (s : string) (i : nat) : string * nat :=
  match s with
  | String ch rest => if isspace ch then skip_ws rest (S i) else (s, i)
  | EmptyString => (s, i)
  end.

(** The loop of [number]: the characters taken and the text left. *)
Fixpoint number_loop (s : string) (dot_seen : bool) : string * string :=
  match s with
  | String ch rest =>
      if isdigit ch || Ascii.eqb ch "."
      then
        if Ascii.eqb ch "."
        then
          if dot_seen then (EmptyString, s)
          else let (taken, left) := number_loop rest true in
               (String ch taken, left)
        else let (taken, left) := number_loop rest dot_seen in
             (String ch taken, left)
      else (EmptyString, s)
  | EmptyString => (EmptyString, s)
  end.

(** [number]: [float(num)] if the run has a point, [int(num)] otherwise. *)
Definition number (s : string) (start_pos : nat) : result (token * string) :=
  let (taken, left) := number_loop s false in
  if contains_char "." taken
  then
    f <- from_host (float_of_string taken) ;;
    Ok (mkToken NUMBER (PyNum (PyFloat f)) start_pos, left)
  else
    z <- int_of_string taken ;;
    Ok (mkToken NUMBER (PyNum (PyInt z)) start_pos, left).

(** The loop of [ident]. *)
Fixpoint ident_loop (s : string) : string * string :=
  match s with
  | String ch rest =>
      if isalnum ch || Ascii.eqb ch "_"
      then let (taken, left) := ident_loop rest in (String ch taken, left)
      else (EmptyString, s)
  | EmptyString => (EmptyString, s)
  end.

Definition ident (s : string) (start_pos : nat) : token * string :=
  let (taken, left) := ident_loop s in
  if String.eqb taken "print"
  then (mkToken PRINT (PyStr taken) start_pos, left)
  else (mkToken IDENT (PyStr taken) start_pos, left).

(** The single-character tokens. *)
Definition single_char (ch : ascii) : option TokenType :=
  if Ascii.eqb ch "+" then Some PLUS
  else if Ascii.eqb ch "-" then Some MINUS
  else if Ascii.eqb ch "*" then Some MUL
  else if Ascii.eqb ch "/" then Some DIV
  else if Ascii.eqb ch "^" then Some POW
  else if Ascii.eqb ch "(" then Some LPAREN
  else if Ascii.eqb ch ")" then Some RPAREN
  else if Ascii.eqb ch "=" then Some ASSIGN
  else None.

(** The loop of [tokens]; one unit of [fuel] per iteration. *)
Fixpoint tokens_loop (fuel : nat) (s : string) (i : nat) : result (list token) :=
  match fuel with
  | O => Raise OutOfFuel
  | S fuel' =>
      match s with
      | EmptyString => Ok [mkToken EOF PyNone i]
      | _ =>
          let (s1, start) := skip_ws s i in
          match s1 with
          | EmptyString => Ok [mkToken EOF PyNone start]
          | String ch rest =>
              if isdigit ch
              then
                lexed <- number s1 start ;;
                let (tok, left) := lexed in
                toks <- tokens_loop fuel' left (start + (String.length s1 - String.length left)) ;;
                Ok (tok :: toks)
              else if isalpha ch || Ascii.eqb ch "_"
              then
                let (tok, left) := ident s1 start in
                toks <- tokens_loop fuel' left (start + (String.length s1 - String.length left)) ;;
                Ok (tok :: toks)
              else
                match single_char ch with
                | Some kind =>
                    toks <- tokens_loop fuel' rest (S start) ;;
                    Ok (mkToken kind (PyStr (String ch EmptyString)) start :: toks)
                | None => Raise (SyntaxError (Unexpected_character ch start))
                end
          end
      end
  end.

Definition tokens (text : string) : result (list token) :=
  tokens_loop (S (String.length text)) text 0.

(** ** Parser *)

(** The parser's cursor is the token list from [self.i] on; [self.tokens]
    is never written, and [self.i] only grows. *)

Definition peek (ts : list token) : result token :=
  match ts with
  | tok :: _ => Ok tok
  | [] => Raise IndexError
  end.

Definition eat (kind : TokenType) (ts : list token) : result (token * list token) :=
  tok <- peek ts ;;
  if negb (TokenType_eqb (type tok) kind)
  then Raise (SyntaxError (Expected_but_found kind (type tok) (pos tok)))
  else Ok (tok, tl ts).

Definition at_ (kind : TokenType) (ts : list token) : result bool :=
  tok <- peek ts ;;
  Ok (TokenType_eqb (type tok) kind).

(** [Num(tok.value)] and [Var(tok.value)]: the dataclass annotations are
    taken as types, and a payload of another type stops the model with
    [TypeError].  The lexer never builds such a token. *)
Definition as_number (v : pyval hfloat) : result num :=
  match v with
  | PyNum n => Ok n
  | _ => Raise TypeError
  end.

Definition as_name (v : pyval hfloat) : result string :=
  match v with
  | PyStr s => Ok s
  | _ => Raise TypeError
  end.

(** The five grammar levels and the two [while] loops; one unit of [fuel]
    per call or iteration. *)
Fixpoint expr (fuel : nat) (ts : list token) {struct fuel} : result (node * list token) :=
  match fuel with
  | O => Raise OutOfFuel
  | S fuel' =>
      r <- term fuel' ts ;;
      let (n, ts1) := r in
      expr_loop fuel' n ts1
  end

with expr_loop (fuel : nat) (n : node) (ts : list token) {struct fuel}
  : result (node * list token) :=
  match fuel with
  | O => Raise OutOfFuel
  | S fuel' =>
      plus <- at_ PLUS ts ;;
      if plus
      then
        e <- eat PLUS ts ;;
        r <- term fuel' (snd e) ;;
        let (right, ts2) := r in
        expr_loop fuel' (BinOp "+" n right) ts2
      else
        minus <- at_ MINUS ts ;;
        if minus
        then
          e <- eat MINUS ts ;;
          r <- term fuel' (snd e) ;;
          let (right, ts2) := r in
          expr_loop fuel' (BinOp "-" n right) ts2
        else Ok (n, ts)
  end

with term (fuel : nat) (ts : list token) {struct fuel} : result (node * list token) :=
  match fuel with
  | O => Raise OutOfFuel
  | S fuel' =>
      r <- power fuel' ts ;;
      let (n, ts1) := r in
      term_loop fuel' n ts1
  end

with term_loop (fuel : nat) (n : node) (ts : list token) {struct fuel}
  : result (node * list token) :=
  match fuel with
  | O => Raise OutOfFuel
  | S fuel' =>
      mul <- at_ MUL ts ;;
      if mul
      then
        e <- eat MUL ts ;;
        r <- power fuel' (snd e) ;;
        let (right, ts2) := r in
        term_loop fuel' (BinOp "*" n right) ts2
      else
        div <- at_ DIV ts ;;
        if div
        then
          e <- eat DIV ts ;;
          r <- power fuel' (snd e) ;;
          let (right, ts2) := r in
          term_loop fuel' (BinOp "/" n right) ts2
        else Ok (n, ts)
  end

with power (fuel : nat) (ts : list token) {struct fuel} : result (node * list token) :=
  match fuel with
  | O => Raise OutOfFuel
  | S fuel' =>
      r <- unary fuel' ts ;;
      let (n, ts1) := r in
      pow <- at_ POW ts1 ;;
      if pow
      then
        e <- eat POW ts1 ;;
        r2 <- power fuel' (snd e) ;;
        let (right, ts2) := r2 in
        Ok (BinOp "^" n right, ts2)
      else Ok (n, ts1)
  end

with unary (fuel : nat) (ts : list token) {struct fuel} : result (node * list token) :=
  match fuel with
  | O => Raise OutOfFuel
  | S fuel' =>
      plus <- at_ PLUS ts ;;
      if plus
      then
        e <- eat PLUS ts ;;
        unary fuel' (snd e)
      else
        minus <- at_ MINUS ts ;;
        if minus
        then
          e <- eat MINUS ts ;;
          r <- unary fuel' (snd e) ;;
          let (operand, ts2) := r in
          Ok (UnaryOp "-" operand, ts2)
        else primary fuel' ts
  end

with primary (fuel : nat) (ts : list token) {struct fuel} : result (node * list token) :=
  match fuel with
  | O => Raise OutOfFuel
  | S fuel' =>
      tok <- peek ts ;;
      if TokenType_eqb (type tok) NUMBER
      then
        e <- eat NUMBER ts ;;
        v <- as_number (value tok) ;;
        Ok (Num v, snd e)
      else if TokenType_eqb (type tok) IDENT
      then
        e <- eat IDENT ts ;;
        name <- as_name (value tok) ;;
        Ok (Var name, snd e)
      else if TokenType_eqb (type tok) LPAREN
      then
        e <- eat LPAREN ts ;;
        r <- expr fuel' (snd e) ;;
        let (inner, ts2) := r in
        c <- eat RPAREN ts2 ;;
        Ok (inner, snd c)
      else Raise (SyntaxError (Unexpected_token (type tok) (pos tok)))
  end.

(** [self.tokens[self.i + 1]]. *)
Definition lookahead (ts : list token) : result token :=
  match ts with
  | _ :: tok :: _ => Ok tok
  | _ => Raise IndexError
  end.

(** [parse], with the budget of its calls to [expr]. *)
Definition parse_with (fuel : nat) (ts : list token) : result (node * list token) :=
  print <- at_ PRINT ts ;;
  if print
  then
    e <- eat PRINT ts ;;
    lparen <- at_ LPAREN (snd e) ;;
    if lparen
    then
      l <- eat LPAREN (snd e) ;;
      r <- expr fuel (snd l) ;;
      let (inner, ts2) := r in
      c <- eat RPAREN ts2 ;;
      Ok (PrintStmt inner, snd c)
    else
      r <- expr fuel (snd e) ;;
      let (inner, ts2) := r in
      Ok (PrintStmt inner, ts2)
  else
    is_ident <- at_ IDENT ts ;;
    if is_ident
    then
      ident_tok <- peek ts ;;
      next <- lookahead ts ;;
      if TokenType_eqb (type next) ASSIGN
      then
        i <- eat IDENT ts ;;
        a <- eat ASSIGN (snd i) ;;
        r <- expr fuel (snd a) ;;
        let (inner, ts2) := r in
        name <- as_name (value ident_tok) ;;
        Ok (Assign name inner, ts2)
      else expr fuel ts
    else expr fuel ts.

(** Budget enough for any descent over [n] tokens. *)
Definition parse_fuel (n : nat) : nat := 8 * n + 8.

(** [Parser(tokens).parse()]: the statement, and the tokens left at the
    cursor. *)
Definition parse (ts : list token) : result (node * list token) :=
  parse_with (parse_fuel (List.length ts)) ts.

(** ** Code generator *)

Definition emit (o : string) (a : pyval hfloat) (code : list instr) : list instr :=
  code ++ [mkInstr o a].

(** [gen] appends to [self.code]; the list is passed in and out. *)
Fixpoint gen (n : node) (code : list instr) : result (list instr) :=
  match n with
  | Num v => Ok (emit "PUSH" (PyNum v) code)
  | Var name => Ok (emit "LOAD" (PyStr name) code)
  | UnaryOp o e =>
      code1 <- gen e code ;;
      if String.eqb o "-" then Ok (emit "NEG" PyNone code1)
      else Raise (NotImplementedError ("Unary " ++ o))
  | BinOp o l r =>
      code1 <- gen l code ;;
      code2 <- gen r code1 ;;
      if String.eqb o "+" then Ok (emit "ADD" PyNone code2)
      else if String.eqb o "-" then Ok (emit "SUB" PyNone code2)
      else if String.eqb o "*" then Ok (emit "MUL" PyNone code2)
      else if String.eqb o "/" then Ok (emit "DIV" PyNone code2)
      else if String.eqb o "^" then Ok (emit "POW" PyNone code2)
      else Raise (NotImplementedError ("BinOp " ++ o))
  | Assign name e =>
      code1 <- gen e code ;;
      Ok (emit "STORE" (PyStr name) code1)
  | PrintStmt e =>
      code1 <- gen e code ;;
      Ok (emit "PRINT" PyNone code1)
  | Other =>
      (* else: self.gen(node) on the same node, without end *)
      Raise RecursionError
  end.

(** ** Virtual machine *)

(** The machine after an instruction, what has been printed so far, and
    the exception if one was raised.  The top of the stack is the head of
    the list. *)
Definition state : Type := vm * list num * option exn.

Definition set_stack (m : vm) (s : list num) : vm := mkVM s (env m).

(** [b, a = self.stack.pop(), self.stack.pop()] followed by the push of
    [f a b]; each [pop] takes effect before the next one can raise. *)
Definition binary (f : num -> num -> result num) (m : vm) (out : list num) : state :=
  match stack m with
  | [] => (m, out, Some IndexError)
  | b :: [] => (set_stack m [], out, Some IndexError)
  | b :: a :: s =>
      match f a b with
      | Ok v => (set_stack m (v :: s), out, None)
      | Raise e => (set_stack m s, out, Some e)
      end
  end.

(** One iteration of the loop of [run].  The stack is a [List[float]] and
    the environment a [Dict[str, float]]: an operand of another type stops
    the model with [TypeError].  The code generator never emits one.
    [PRINT] pops, and then [print(val)] writes [str(val)], or raises what
    [str] raises before anything is written. *)
Definition exec (ins : instr) (m : vm) (out : list num) : state :=
  if String.eqb (op ins) "PUSH" then
    match arg ins with
    | PyNum v => (set_stack m (v :: stack m), out, None)
    | _ => (m, out, Some TypeError)
    end
  else if String.eqb (op ins) "LOAD" then
    match arg ins with
    | PyStr name =>
        match env m !! name with
        | None => (m, out, Some (NameError name))
        | Some v => (set_stack m (v :: stack m), out, None)
        end
    | _ => (m, out, Some TypeError)
    end
  else if String.eqb (op ins) "STORE" then
    match stack m with
    | [] => (m, out, Some IndexError)
    | val :: s =>
        match arg ins with
        | PyStr name => (mkVM s (<[name := val]> (env m)), out, None)
        | _ => (set_stack m s, out, Some TypeError)
        end
    end
  else if String.eqb (op ins) "NEG" then
    match stack m with
    | [] => (m, out, Some IndexError)
    | a :: s => (set_stack m (py_neg a :: s), out, None)
    end
  else if String.eqb (op ins) "ADD" then binary py_add m out
  else if String.eqb (op ins) "SUB" then binary py_sub m out
  else if String.eqb (op ins) "MUL" then binary py_mul m out
  else if String.eqb (op ins) "DIV" then binary py_truediv m out
  else if String.eqb (op ins) "POW" then binary py_pow m out
  else if String.eqb (op ins) "PRINT" then
    match stack m with
    | [] => (m, out, Some IndexError)
    | val :: s =>
        if printable val then (set_stack m s, out ++ [val], None)
        else (set_stack m s, out, Some (ValueError digit_limit))
    end
  else (m, out, Some (RuntimeError ("Unknown instruction " ++ op ins))).

(** [run]: the instructions in order, until one raises. *)
Fixpoint run (code : list instr) (m : vm) (out : list num) : state :=
  match code with
  | [] => (m, out, None)
  | ins :: code' =>
      match exec ins m out with
      | (m', out', None) => run code' m' out'
      | stopped => stopped
      end
  end.

(** ** The pipeline *)

(** The tree of a line: lexer, then parser. *)
Definition parse_line (line : string) : result node :=
  toks <- tokens line ;;
  parsed <- parse toks ;;
  Ok (fst parsed).

(** The bytecode of a line: the code generator on its tree. *)
Definition compile (line : string) : result (list instr) :=
  ast <- parse_line line ;;
  gen ast [].

Definition compile_and_run (line : string) (m : vm) (out : list num) : state :=
  match compile line with
  | Ok code => run code m out
  | Raise e => (m, out, Some e)
  end.

(** [VM()]: empty stack, empty environment. *)
Definition new_vm : vm := mkVM [] ∅.

(** ** The value of an expression *)

(** The reference the bytecode is compared with: what an expression
    denotes in an environment, operands from left to right.  It follows
    the grammar of section 4.2 of the specification, not the code. *)
Fixpoint is_expression (n : node) : bool :=
  match n with
  | Num _ | Var _ => true
  | UnaryOp _ e => is_expression e
  | BinOp _ l r => is_expression l && is_expression r
  | _ => false
  end.

Definition denote_binary (o : string) : option (num -> num -> result num) :=
  if String.eqb o "+" then Some py_add
  else if String.eqb o "-" then Some py_sub
  else if String.eqb o "*" then Some py_mul
  else if String.eqb o "/" then Some py_truediv
  else if String.eqb o "^" then Some py_pow
  else None.

Fixpoint denote (n : node) (vars : gmap string num) : result num :=
  match n with
  | Num v => Ok v
  | Var name =>
      match vars !! name with
      | Some v => Ok v
      | None => Raise (NameError name)
      end
  | UnaryOp o e =>
      a <- denote e vars ;;
      if String.eqb o "-" then Ok (py_neg a)
      else Raise (NotImplementedError ("Unary " ++ o))
  | BinOp o l r =>
      a <- denote l vars ;;
      b <- denote r vars ;;
      match denote_binary o with
      | Some f => f a b
      | None => Raise (NotImplementedError ("BinOp " ++ o))
      end
  | _ => Raise TypeError
  end.

(** The operators the parser builds. *)
Fixpoint parser_operators (n : node) : bool :=
  match n with
  | Num _ | Var _ => true
  | UnaryOp o e => String.eqb o "-" && parser_operators e
  | BinOp o l r =>
      (String.eqb o "+" || String.eqb o "-" || String.eqb o "*"
       || String.eqb o "/" || String.eqb o "^")
      && parser_operators l && parser_operators r
  | Assign _ e | PrintStmt e => parser_operators e
  | Other => false
  end.

(** No [UnaryOp] node with the operator [+] anywhere in the tree. *)
Fixpoint no_unary_plus (n : node) : bool :=
  match n with
  | Num _ | Var _ | Other => true
  | UnaryOp o e => negb (String.eqb o "+") && no_unary_plus e
  | BinOp _ l r => no_unary_plus l && no_unary_plus r
  | Assign _ e | PrintStmt e => no_unary_plus e
  end.

(** Tokens and messages [k] characters further into the line. *)
Definition move (k : nat) (t : token) : token :=
  mkToken (type t) (value t) (k + pos t).

Definition move_exn (k : nat) (e : exn) : exn :=
  match e with
  | SyntaxError (Unexpected_character ch start) =>
      SyntaxError (Unexpected_character ch (k + start))
  | SyntaxError (Expected_but_found kind found at_pos) =>
      SyntaxError (Expected_but_found kind found (k + at_pos))
  | SyntaxError (Unexpected_token found at_pos) =>
      SyntaxError (Unexpected_token found (k + at_pos))
  | _ => e
  end.

Definition move_result {A : Type} (f : A -> A) (k : nat) (r : result A) : result A :=
  match r with
  | Ok a => Ok (f a)
  | Raise e => Raise (move_exn k e)
  end.

Definition move_parsed (k : nat) (r : node * list token) : node * list token :=
  (fst r, map (move k) (snd r)).

(** ** Payloads of the right type *)

(** The payload the lexer gives to a token of each type. *)
Definition typed_token (t : token) : bool :=
  match type t, value t with
  | NUMBER, PyNum _ => true
  | EOF, PyNone => true
  | (IDENT | PRINT | PLUS | MINUS | MUL | DIV | POW
     | LPAREN | RPAREN | ASSIGN), PyStr _ => true
  | _, _ => false
  end.

(** The operand the code generator gives to each opcode. *)
Definition typed_instr (ins : instr) : bool :=
  match arg ins with
  | PyNum _ => String.eqb (op ins) "PUSH"
  | PyStr _ => String.eqb (op ins) "LOAD" || String.eqb (op ins) "STORE"
  | PyNone =>
      negb (String.eqb (op ins) "PUSH" || String.eqb (op ins) "LOAD"
            || String.eqb (op ins) "STORE")
  end.

(** A token list as the lexer ends it: not empty, with an [EOF] as its
    last token. *)
Fixpoint ends_eof (ts : list token) : bool :=
  match ts with
  | [] => false
  | t :: ts' =>
      match ts' with
      | [] => TokenType_eqb (type t) EOF
      | _ => ends_eof ts'
      end
  end.

Definition lexed (ts : list token) : Prop :=
  ends_eof ts = true /\ forallb typed_token ts = true.

(** The exceptions a line can end with: those of its text, of its
    variables and of its arithmetic. *)
Definition reported (e : exn) : Prop :=
  match e with
  | SyntaxError _ | ValueError _ | NameError _
  | ZeroDivisionError | OverflowError => True
  | _ => False
  end.

(** The first token of a line is not an opening parenthesis. *)
Definition opens_without_parenthesis (E : string) : Prop :=
  exists t toks, tokens E = Ok (t :: toks) /\ type t <> LPAREN.

(** ** Predicates of the proofs *)

(** A descent over lexed tokens: it raises nothing but a [SyntaxError],
    unless the budget ends, and leaves lexed tokens. *)
Definition good (r : result (node * list token)) : Prop :=
  (forall e, r = Raise e -> (exists msg, e = SyntaxError msg) \/ e = OutOfFuel) /\
  (forall nd rest, r = Ok (nd, rest) -> lexed rest).

(** A result that is not the end of the budget. *)
Definition fine {A : Type} (r : result A) : Prop := r <> Raise OutOfFuel.

(** [below r r']: [r'] is [r], unless [r] ran out of budget. *)
Definition below {A : Type} (r r' : result A) : Prop :=
  r = Raise OutOfFuel \/ r = r'.

(** An expression as the grammar builds it. *)
Definition built (nd : node) : Prop :=
  is_expression nd = true /\ parser_operators nd = true.

(** A parsed statement is a print, an assignment or a bare expression,
    over an expression the grammar builds. *)
Definition statement (s : node) : Prop :=
  (exists e, s = PrintStmt e /\ built e) \/
  (exists name e, s = Assign name e /\ built e) \/
  built s.

(** The tokens at which a grammar level stops without looking further. *)
Definition stops_power (k : TokenType) : bool := negb (TokenType_eqb k POW).

Definition stops_term (k : TokenType) : bool :=
  stops_power k && negb (TokenType_eqb k MUL) && negb (TokenType_eqb k DIV).

Definition stops_expr (k : TokenType) : bool :=
  stops_term k && negb (TokenType_eqb k PLUS) && negb (TokenType_eqb k MINUS).

Definition stops_statement (k : TokenType) : bool :=
  stops_expr k && negb (TokenType_eqb k ASSIGN).

(** [guard stop rest rest']: the first token of [rest'] exists, and it is
    one at which the level stops or has the type of the first of [rest]. *)
Definition guard (stop : TokenType -> bool) (rest rest' : list token) : Prop :=
  match rest' with
  | t' :: _ =>
      stop (type t') = true \/
      match rest with
      | t :: _ => type t = type t'
      | [] => False
      end
  | [] => False
  end.

Definition anything (k : TokenType) : bool := true.

(** [reads stop f ts nd rest pre]: [f] turned the tokens [pre] at the front
    of [ts] into [nd] and left [rest], and does so whatever follows [pre],
    as long as the next token is of the same type as before or one at
    which the level stops. *)
Definition reads (stop : TokenType -> bool)
    (f : list token -> result (node * list token))
    (ts : list token) (nd : node) (rest pre : list token) : Prop :=
  ts = pre ++ rest /\
  forall rest', guard stop rest rest' -> f (pre ++ rest') = Ok (nd, rest').

End Pipeline.

(** ** The session *)

(** [str.strip()] without argument: the characters of [isspace] go, at
    both ends. *)
Fixpoint lstrip (s : string) : string :=
  match s with
  | String ch rest => if isspace ch then lstrip rest else s
  | EmptyString => s
  end.

Fixpoint rstrip (s : string) : string :=
  match s with
  | String ch rest =>
      match rstrip rest with
      | EmptyString => if isspace ch then EmptyString else String ch EmptyString
      | kept => String ch kept
      end
  | EmptyString => EmptyString
  end.

Definition strip (s : string) : string := rstrip (lstrip s).

(** [str.lower()], below code point 256: the letters A to Z and the
    capital letters of Latin-1 move 32 places up. *)
Definition lower_char (c : ascii) : ascii :=
  if between 65 90 (code c) || between 192 214 (code c)
     || between 216 222 (code c)
  then ascii_of_nat (code c + 32)
  else c.

Fixpoint lower (s : string) : string :=
  match s with
  | String ch rest => String (lower_char ch) (lower rest)
  | EmptyString => EmptyString
  end.

(** [" ".join(parts)]. *)
Fixpoint join (sep : string) (parts : list string) : string :=
  match parts with
  | [] => EmptyString
  | [part] => part
  | part :: parts' => String.append part (String.append sep (join sep parts'))
  end.

(** What [input] gives to one iteration of the loop of [repl]: a line, or
    one of its two exceptions. *)
Inductive input_event :=
| Line (text : string)
| KeyboardInterrupt
| EOFError.

(** What the session writes to the terminal, in order. *)
Inductive output (F : Type) :=
| Banner                                   (* print(BANNER) *)
| Prompt                                   (* the prompt of input *)
| Value (v : pynum F)                      (* print(val) of the machine *)
| Variables (vars : gmap string (pynum F)) (* print(vm.env) *)
| Error (e : exn)                          (* print("Error:", e) *)
| ErrorEOF                                 (* the same, for the EOFError *)
| Bye.                                     (* print("\nBye!") *)
Arguments Banner {F}.
Arguments Prompt {F}.
Arguments Value {F} v.
Arguments Variables {F} vars.
Arguments Error {F} e.
Arguments ErrorEOF {F}.
Arguments Bye {F}.

(** ** Measures and classes of characters *)

(** The number of nodes of a tree. *)
Fixpoint node_count {F : Type} (n : Node F) : nat :=
  match n with
  | Num _ | Var _ | Other => 1
  | UnaryOp _ e | Assign _ e | PrintStmt e => S (node_count e)
  | BinOp _ l r => S (node_count l + node_count r)
  end.

(** A text of nothing but whitespace. *)
Fixpoint blank (s : string) : bool :=
  match s with
  | String ch rest => isspace ch && blank rest
  | EmptyString => true
  end.

(** The characters at which the loop of [tokens] begins a token of each
    type. *)
Definition first_char (kind : TokenType) (ch : ascii) : bool :=
  match kind with
  | NUMBER => isdigit ch
  | IDENT | PRINT => isalpha ch || Ascii.eqb ch "_"
  | EOF => false
  | _ =>
      match single_char ch with
      | Some k => TokenType_eqb k kind
      | None => false
      end
  end.

(** The number of points in a literal. *)
Fixpoint points (s : string) : nat :=
  match s with
  | String ch rest => (if Ascii.eqb ch "." then 1 else 0) + points rest
  | EmptyString => 0
  end.

(** Every character of the text is in the class. *)
Fixpoint all_of (class : ascii -> bool) (s : string) : bool :=
  match s with
  | String ch rest => class ch && all_of class rest
  | EmptyString => true
  end.

(** The decimal numeral of a natural number, as [str] writes it. *)
Definition decimal (n : nat) : string :=
  DecimalString.NilEmpty.string_of_uint (Nat.to_uint n).

(** A name: a letter or an underscore, then letters, digits and
    underscores; and not the keyword. *)
Definition is_name (w : string) : bool :=
  match w with
  | String ch rest =>
      (isalpha ch || Ascii.eqb ch "_")
      && all_of (fun c => isalnum c || Ascii.eqb c "_") rest
      && negb (String.eqb w "print")
  | EmptyString => false
  end.

(** The characters of a line without a point and without the digits that
    [int] refuses: whitespace, the decimal digits, the letters, the
    underscore, and the eight operator characters. *)
Definition plain (ch : ascii) : bool :=
  isspace ch || is_ascii_digit ch || isalpha ch || Ascii.eqb ch "_"
  || match single_char ch with Some _ => true | None => false end.

Section Session.

Context {host : Host}.

(** [a o b] as section 4.4 of the specification has it, [a] the left
    operand and [b] the right one: exact on two [int]s, but for the
    quotient and the negative power, and the host's operation on [a] and
    [b], in this order, as soon as one of them is not an [int].  It follows
    the specification, not the code; the opcodes are compared with it. *)
Definition left_op_right (o : arith) (a b : pynum hfloat) : result (pynum hfloat) :=
  match a, b with
  | PyInt x, PyInt y =>
      match o with
      | Add => Ok (PyInt (x + y))
      | Sub => Ok (PyInt (x - y))
      | Mul => Ok (PyInt (x * y))
      | Div =>
          if (y =? 0)%Z then Raise ZeroDivisionError
          else f <- from_host (int_truediv x y) ;; Ok (PyFloat f)
      | Pow =>
          if (0 <=? y)%Z then Ok (PyInt (x ^ y))
          else if (x =? 0)%Z then Raise ZeroDivisionError
          else f <- from_host (int_negpow x y) ;; Ok (PyFloat f)
      end
  | _, _ => f <- from_host (float_arith o a b) ;; Ok (PyFloat f)
  end.

(** The loop of [repl] over the inputs that are there: the machine, the
    terminal, and whether the loop has been left ([break]).  When the inputs
    are used up the loop waits at its prompt.  An interrupt while a line is
    compiled or run is not modelled.  [print(vm.env)] writes the [repr] of
    every value, or raises what [repr] raises on an [int] beyond the digit
    limit, which the loop reports as it reports the error of a line. *)
Fixpoint repl_loop (inputs : list input_event) (m : VM hfloat)
    (terminal : list (output hfloat)) : VM hfloat * list (output hfloat) * bool :=
  match inputs with
  | [] => (m, terminal ++ [Prompt], false)
  | KeyboardInterrupt :: _ => (m, terminal ++ [Prompt; Bye], true)
  | EOFError :: inputs' => repl_loop inputs' m (terminal ++ [Prompt; ErrorEOF])
  | Line text :: inputs' =>
      let line := strip text in
      if String.eqb line ""
      then repl_loop inputs' m (terminal ++ [Prompt])
      else if String.eqb (lower line) "exit" || String.eqb (lower line) "quit"
      then (m, terminal ++ [Prompt], true)
      else if String.eqb (lower line) "env"
      then
        if forallb (fun bound => printable (snd bound)) (map_to_list (env m))
        then repl_loop inputs' m (terminal ++ [Prompt; Variables (env m)])
        else repl_loop inputs' m
               (terminal ++ [Prompt; Error (ValueError digit_limit)])
      else
        match compile_and_run line m [] with
        | (m', printed, None) =>
            repl_loop inputs' m' (terminal ++ Prompt :: map Value printed)
        | (m', printed, Some e) =>
            repl_loop inputs' m'
              (terminal ++ Prompt :: map Value printed ++ [Error e])
        end
  end.

Definition repl (inputs : list input_event) : VM hfloat * list (output hfloat) * bool :=
  repl_loop inputs new_vm [Banner].

(** The script: with arguments, their line on a new machine, and an
    exception is not caught; without, the session. *)
Definition main (argv : list string) (inputs : list input_event)
  : list (output hfloat) * option exn :=
  match argv with
  | _ :: _ :: _ =>
      match compile_and_run (join " " (tl argv)) new_vm [] with
      | (_, printed, raised) => (map Value printed, raised)
      end
  | _ => (snd (fst (repl inputs)), None)
  end.

(** An input that ends the session. *)
Definition leaves (ev : input_event) : bool :=
  match ev with
  | KeyboardInterrupt => true
  | EOFError => false
  | Line text =>
      String.eqb (lower (strip text)) "exit"
      || String.eqb (lower (strip text)) "quit"
  end.

(** ** Predicates of the further proofs *)

(** What a user can see of a session: the terminal, whether the session
    has ended, and the variables. *)
Definition seen (r : VM hfloat * list (output hfloat) * bool)
  : list (output hfloat) * bool * gmap string (pynum hfloat) :=
  (snd (fst r), snd r, env (fst (fst r))).

(** [lexes s i toks]: the tokens [toks] of the text [s] that begins at
    offset [i]: every token stands at a character that begins it, the
    positions grow, and the list ends with the [EOF] at the end of the
    text, the only one. *)
Definition lexes (s : string) (i : nat) (toks : list (Token hfloat)) : Prop :=
  exists body,
    toks = body ++ [mkToken EOF PyNone (i + String.length s)] /\
    Forall (fun t => exists k ch,
                pos t = i + k /\ String.get k s = Some ch /\
                first_char (type t) ch = true) body /\
    StronglySorted lt (map pos toks).

(** [stray s i e]: the message [e] names a character of the text [s] that
    begins at offset [i], by its offset, and the character begins no
    token. *)
Definition stray (s : string) (i : nat) (e : exn) : Prop :=
  exists k ch,
    e = SyntaxError (Unexpected_character ch (i + k)) /\
    String.get k s = Some ch /\
    isspace ch = false /\ isdigit ch = false /\
    isalpha ch || Ascii.eqb ch "_" = false /\ single_char ch = None.

(** An exception of the conversions [int(num)] and [float(num)]. *)
Definition conversion (e : exn) : Prop :=
  (exists literal, e = ValueError literal) \/
  e = ZeroDivisionError \/ e = OverflowError.

(** [blames ts e]: the message [e] is one of the two of the parser, and it
    names the type and the position of a token of [ts]. *)
Definition blames (ts : list (Token hfloat)) (e : exn) : Prop :=
  exists t,
    In t ts /\
    (e = SyntaxError (Unexpected_token (type t) (pos t)) \/
     exists kind, e = SyntaxError (Expected_but_found kind (type t) (pos t))).

(** A descent over the tokens [ts]: what it raises blames a token of
    [ts], unless the budget or the list ends or a payload has the wrong
    type; and it leaves tokens of [ts]. *)
Definition names (ts : list (Token hfloat))
    (r : result (Node hfloat * list (Token hfloat))) : Prop :=
  (forall e, r = Raise e ->
             e = OutOfFuel \/ e = IndexError \/ e = TypeError \/ blames ts e) /\
  (forall nd rest, r = Ok (nd, rest) -> incl rest ts).

End Session.

(** ** A host for integer programs *)

(** The host cut down to the integers: no inexact number fits in it, so
    a literal with a point is refused and an operation whose result would
    be inexact overflows.  The integer examples below run on it; none of
    them reaches these operations. *)
Definition integer_host : Host := {|
  hfloat := Empty_set;
  float_of_string := fun literal => HostRaise (HostValueError literal);
  float_neg := fun f => f;
  float_arith := fun _ _ _ => HostRaise HostOverflowError;
  int_truediv := fun _ _ => HostRaise HostOverflowError;
  int_negpow := fun _ _ => HostRaise HostOverflowError
|}.

(** The tokens of the line [1 2]. *)
Definition tokens_1_2 : list (Token (@hfloat integer_host)) :=
  [mkToken NUMBER (PyNum (PyInt 1)) 0; mkToken NUMBER (PyNum (PyInt 2)) 2;
   mkToken EOF PyNone 3].

(** The tokens of [1+2], of [2*3] and of [4^5], without the [EOF]. *)
Definition tokens_1_plus_2 : list (Token (@hfloat integer_host)) :=
  [mkToken NUMBER (PyNum (PyInt 1)) 1; mkToken PLUS (PyStr "+") 2;
   mkToken NUMBER (PyNum (PyInt 2)) 3].

Definition tokens_2_times_3 : list (Token (@hfloat integer_host)) :=
  [mkToken NUMBER (PyNum (PyInt 2)) 0; mkToken MUL (PyStr "*") 1;
   mkToken NUMBER (PyNum (PyInt 3)) 2].

Definition tokens_4_power_5 : list (Token (@hfloat integer_host)) :=
  [mkToken NUMBER (PyNum (PyInt 4)) 4; mkToken POW (PyStr "^") 5;
   mkToken NUMBER (PyNum (PyInt 5)) 6].

(** * Properties *)

Section Properties.

Context {host : Host}.

Abbreviation num := (pynum hfloat).
Abbreviation token := (Token hfloat).
Abbreviation node := (Node hfloat).
Abbreviation instr := (Instr hfloat).
Abbreviation vm := (VM hfloat).

(** ** Code generator and machine *)

Lemma set_stack_same (m : vm) : set_stack m (stack m) = m.
Proof. destruct m; reflexivity. Qed.

Lemma gen_appends (n : node) :
  forall code, gen n code = (c <- gen n [] ;; Ok (code ++ c)).
Proof.
  induction n as [v|name|o l IHl r IHr|o e IHe|name e IHe|e IHe|];
    intros code; simpl; try reflexivity.
  - rewrite (IHl code). destruct (gen l []) as [cl|err]; simpl; [|reflexivity].
    rewrite (IHr (code ++ cl)), (IHr cl).
    destruct (gen r []) as [cr|err]; simpl; [|reflexivity].
    unfold emit.
    repeat match goal with
           | |- context [String.eqb o ?x] => destruct (String.eqb o x)
           end; simpl; rewrite ?app_assoc; reflexivity.
  - rewrite (IHe code). destruct (gen e []) as [ce|err]; simpl; [|reflexivity].
    unfold emit. destruct (String.eqb o "-"); simpl; rewrite ?app_assoc; reflexivity.
  - rewrite (IHe code). destruct (gen e []) as [ce|err]; simpl; [|reflexivity].
    unfold emit. rewrite app_assoc. reflexivity.
  - rewrite (IHe code). destruct (gen e []) as [ce|err]; simpl; [|reflexivity].
    unfold emit. rewrite app_assoc. reflexivity.
Qed.

Lemma run_app (c1 c2 : list instr) :
  forall (m : vm) (out : list num),
    run (c1 ++ c2) m out =
    match run c1 m out with
    | (m', out', None) => run c2 m' out'
    | stopped => stopped
    end.
Proof.
  induction c1 as [|ins c1 IH]; intros m out; simpl.
  - reflexivity.
  - destruct (exec ins m out) as [[m' out'] [e|]]; [reflexivity|apply IH].
Qed.

Lemma run_one (ins : instr) (m : vm) (out : list num) :
  run [ins] m out = exec ins m out.
Proof.
  simpl. destruct (exec ins m out) as [[m' out'] [e|]]; reflexivity.
Qed.

Lemma gen_binary_inv (o : string) (code2 : list instr) (c : list instr) :
  (if String.eqb o "+" then Ok (emit "ADD" PyNone code2)
   else if String.eqb o "-" then Ok (emit "SUB" PyNone code2)
   else if String.eqb o "*" then Ok (emit "MUL" PyNone code2)
   else if String.eqb o "/" then Ok (emit "DIV" PyNone code2)
   else if String.eqb o "^" then Ok (emit "POW" PyNone code2)
   else Raise (NotImplementedError ("BinOp " ++ o))) = Ok c ->
  exists f name,
    denote_binary o = Some f /\ c = code2 ++ [mkInstr name PyNone] /\
    forall (m : vm) (out : list num), exec (mkInstr name PyNone) m out = binary f m out.
Proof.
  unfold denote_binary, emit.
  destruct (String.eqb o "+"); [intros [= <-]; eauto|].
  destruct (String.eqb o "-"); [intros [= <-]; eauto|].
  destruct (String.eqb o "*"); [intros [= <-]; eauto|].
  destruct (String.eqb o "/"); [intros [= <-]; eauto|].
  destruct (String.eqb o "^"); [intros [= <-]; eauto|].
  discriminate.
Qed.

(** The bytecode of an expression computes its value and pushes it; when
    the expression raises, so does the bytecode, having printed nothing and
    left the environment alone. *)
Lemma run_expression (e : node) :
  is_expression e = true ->
  forall c, gen e [] = Ok c ->
  forall (m : vm) (out : list num),
    match denote e (env m) with
    | Ok v => run c m out = (set_stack m (v :: stack m), out, None)
    | Raise err => exists s, run c m out = (set_stack m s, out, Some err)
    end.
Proof.
  induction e as [v|name|o l IHl r IHr|o e IHe|name e IHe|e IHe|];
    simpl; intros He c Hc m out; try discriminate.
  - injection Hc as <-. reflexivity.
  - injection Hc as <-. unfold emit. rewrite app_nil_l, run_one.
    unfold exec. simpl.
    destruct (env m !! name) as [v|]; [reflexivity|].
    exists (stack m). rewrite set_stack_same. reflexivity.
  - apply andb_true_iff in He as [Hl Hr].
    destruct (gen l []) as [cl|] eqn:Gl; simpl in Hc; [|discriminate].
    rewrite gen_appends in Hc.
    destruct (gen r []) as [cr|] eqn:Gr; simpl in Hc; [|discriminate].
    apply gen_binary_inv in Hc as (f & name & Hf & -> & Hexec).
    rewrite Hf.
    specialize (IHl Hl cl eq_refl m out).
    rewrite !run_app.
    destruct (denote l (env m)) as [a|err]; cbn [bind].
    + rewrite IHl.
      specialize (IHr Hr cr eq_refl (set_stack m (a :: stack m)) out).
      cbn [env set_stack] in IHr.
      destruct (denote r (env m)) as [b|err]; cbn [bind].
      * rewrite IHr, run_one, Hexec. unfold binary. cbn [stack set_stack env].
        destruct (f a b) as [v|err]; [reflexivity|].
        exists (stack m). reflexivity.
      * destruct IHr as [s ->]. exists s. reflexivity.
    + destruct IHl as [s ->]. exists s. reflexivity.
  - destruct (gen e []) as [ce|] eqn:Ge; simpl in Hc; [|discriminate].
    destruct (String.eqb o "-"); [|discriminate].
    injection Hc as <-. unfold emit.
    specialize (IHe He ce eq_refl m out).
    rewrite run_app.
    destruct (denote e (env m)) as [a|err]; cbn [bind].
    + rewrite IHe, run_one. reflexivity.
    + destruct IHe as [s ->]. exists s. reflexivity.
Qed.

(** ** The lexer and the code generator build typed payloads *)

Lemma int_of_string_cases (num : string) :
  (exists z, int_of_string num = Ok z /\ int_digits 0 num = Some z /\
             String.length num <= int_max_str_digits) \/
  (exists literal, int_of_string num = Raise (ValueError literal)).
Proof.
  unfold int_of_string. destruct num as [|c num']; [eauto|].
  destruct (int_digits 0 (String c num')) as [z|]; [|eauto].
  destruct (Nat.leb_spec (String.length (String c num')) int_max_str_digits);
    [left|right]; eauto.
Qed.

Lemma number_typed (s : string) (start : nat) tok left :
  number s start = Ok (tok, left) -> typed_token tok = true.
Proof.
  unfold number. destruct (number_loop s false) as [taken left'].
  destruct (contains_char "." taken).
  - destruct (from_host (float_of_string taken)); simpl; [|discriminate].
    intros [= <- _]. reflexivity.
  - destruct (int_of_string taken); simpl; [|discriminate].
    intros [= <- _]. reflexivity.
Qed.

Lemma ident_typed (s : string) (start : nat) :
  typed_token (fst (ident s start)) = true.
Proof.
  unfold ident. destruct (ident_loop s) as [taken left].
  destruct (String.eqb taken "print"); reflexivity.
Qed.

Lemma single_char_typed (ch : ascii) (kind : TokenType) (start : nat) :
  single_char ch = Some kind ->
  typed_token (mkToken kind (PyStr (String ch EmptyString)) start) = true.
Proof.
  unfold single_char.
  repeat match goal with
         | |- context [Ascii.eqb ch ?c] => destruct (Ascii.eqb ch c)
         end; intros [= <-]; reflexivity.
Qed.

Lemma tokens_loop_typed n :
  forall (s : string) (i : nat) (toks : list token),
    tokens_loop n s i = Ok toks -> forallb typed_token toks = true.
Proof.
  induction n as [|n IH]; intros s i toks; [discriminate|].
  cbn [tokens_loop]. destruct s as [|c0 s0]; [intros [= <-]; reflexivity|].
  destruct (skip_ws (String c0 s0) i) as [s1 start].
  destruct s1 as [|ch rest]; [intros [= <-]; reflexivity|].
  destruct (isdigit ch).
  - destruct (number (String ch rest) start) as [[tok left]|] eqn:Hnum;
      [|discriminate].
    cbn [bind]. destruct (tokens_loop n left _) as [more|] eqn:Hmore;
      [|discriminate].
    intros [= <-]. simpl. rewrite (number_typed _ _ _ _ Hnum), (IH _ _ _ Hmore).
    reflexivity.
  - destruct (isalpha ch || Ascii.eqb ch "_").
    + pose proof (ident_typed (String ch rest) start) as Hid.
      destruct (ident (String ch rest) start) as [tok left]. cbn [fst] in Hid.
      destruct (tokens_loop n left _) as [more|] eqn:Hmore; [|discriminate].
      intros [= <-]. simpl. rewrite Hid, (IH _ _ _ Hmore). reflexivity.
    + destruct (single_char ch) as [kind|] eqn:Hch; [|discriminate].
      destruct (tokens_loop n rest _) as [more|] eqn:Hmore; [|discriminate].
      intros [= <-]. simpl.
      rewrite (single_char_typed _ _ _ Hch), (IH _ _ _ Hmore). reflexivity.
Qed.

Lemma tokens_typed (text : string) (toks : list token) :
  tokens text = Ok toks -> forallb typed_token toks = true.
Proof. apply tokens_loop_typed. Qed.

Lemma gen_typed (n : node) :
  forall code c,
    forallb typed_instr code = true -> gen n code = Ok c ->
    forallb typed_instr c = true.
Proof.
  assert (E : forall o a code,
             typed_instr (mkInstr o a) = true ->
             forallb typed_instr code = true ->
             forallb typed_instr (emit o a code) = true).
  { intros o a code Ho Hc. unfold emit. rewrite forallb_app, Hc. simpl.
    rewrite Ho. reflexivity. }
  induction n as [v|name|o l IHl r IHr|o e IHe|name e IHe|e IHe|];
    simpl; intros code c Hcode H.
  - injection H as <-. apply E; auto.
  - injection H as <-. apply E; auto.
  - destruct (gen l code) as [c1|] eqn:H1; [|discriminate]. cbn [bind] in H.
    destruct (gen r c1) as [c2|] eqn:H2; [|discriminate]. cbn [bind] in H.
    pose proof (IHr _ _ (IHl _ _ Hcode H1) H2) as Hc2.
    repeat match type of H with
           | (if ?b then _ else _) = _ => destruct b
           end; try discriminate; injection H as <-; apply E; auto.
  - destruct (gen e code) as [c1|] eqn:H1; [|discriminate]. cbn [bind] in H.
    destruct (String.eqb o "-"); [|discriminate].
    injection H as <-. apply E; eauto.
  - destruct (gen e code) as [c1|] eqn:H1; [|discriminate]. cbn [bind] in H.
    injection H as <-. apply E; eauto.
  - destruct (gen e code) as [c1|] eqn:H1; [|discriminate]. cbn [bind] in H.
    injection H as <-. apply E; eauto.
  - discriminate.
Qed.

(** ** The budget of the lexer is enough *)

Lemma fine_bind {A B : Type} (r : result A) (k : A -> result B) :
  fine r -> (forall a, r = Ok a -> fine (k a)) -> fine (bind r k).
Proof.
  unfold fine. destruct r as [a|e]; simpl.
  - intros _ H. apply H. reflexivity.
  - intros H _ [= ->]. apply H. reflexivity.
Qed.

Lemma fine_from_host {A : Type} (r : host_result A) : fine (from_host r).
Proof. destruct r as [a|[literal| |]]; discriminate. Qed.

Lemma skip_ws_length (s : string) :
  forall i, String.length (fst (skip_ws s i)) <= String.length s.
Proof.
  induction s as [|ch rest IH]; intros i; simpl; [lia|].
  destruct (isspace ch); simpl; [|lia].
  specialize (IH (S i)). lia.
Qed.

Lemma number_loop_length (s : string) :
  forall dot_seen,
    String.length (snd (number_loop s dot_seen)) <= String.length s.
Proof.
  induction s as [|ch rest IH]; intros dot_seen; simpl; [lia|].
  destruct (isdigit ch || Ascii.eqb ch "."); simpl; [|lia].
  destruct (Ascii.eqb ch ".").
  - destruct dot_seen; simpl; [lia|].
    specialize (IH true). destruct (number_loop rest true). simpl in *. lia.
  - specialize (IH dot_seen). destruct (number_loop rest dot_seen).
    simpl in *. lia.
Qed.

Lemma isdigit_not_point (ch : ascii) :
  isdigit ch = true -> Ascii.eqb ch "." = false.
Proof.
  intros H. destruct (Ascii.eqb_spec ch "."); [subst; discriminate|reflexivity].
Qed.

Lemma number_shortens (ch : ascii) (rest : string) (start : nat) tok left :
  isdigit ch = true ->
  number (String ch rest) start = Ok (tok, left) ->
  String.length left <= String.length rest.
Proof.
  intros Hd. unfold number. simpl.
  rewrite Hd, (isdigit_not_point ch Hd). simpl.
  pose proof (number_loop_length rest false) as L.
  destruct (number_loop rest false) as [taken left']. simpl in L.
  destruct (contains_char "." (String ch taken)).
  - destruct (from_host (float_of_string (String ch taken))); simpl;
      [|discriminate].
    intros [= _ <-]. assumption.
  - destruct (int_of_string (String ch taken)); simpl; [|discriminate].
    intros [= _ <-]. assumption.
Qed.

Lemma fine_number (s : string) (start : nat) : fine (number s start).
Proof.
  unfold number. destruct (number_loop s false) as [taken left].
  destruct (contains_char "." taken).
  - apply fine_bind; [apply fine_from_host|discriminate].
  - apply fine_bind; [|discriminate].
    destruct (int_of_string_cases taken) as [(z & -> & _)|(literal & ->)];
      discriminate.
Qed.

Lemma ident_loop_length (s : string) :
  String.length (snd (ident_loop s)) <= String.length s.
Proof.
  induction s as [|ch rest IH]; simpl; [lia|].
  destruct (isalnum ch || Ascii.eqb ch "_"); simpl; [|lia].
  destruct (ident_loop rest). simpl in *. lia.
Qed.

Lemma isalpha_isalnum (ch : ascii) : isalpha ch = true -> isalnum ch = true.
Proof. unfold isalnum. intros ->. reflexivity. Qed.

Lemma ident_shortens (ch : ascii) (rest : string) (start : nat) tok left :
  isalpha ch || Ascii.eqb ch "_" = true ->
  ident (String ch rest) start = (tok, left) ->
  String.length left <= String.length rest.
Proof.
  intros Ha. unfold ident. simpl.
  assert (isalnum ch || Ascii.eqb ch "_" = true) as ->.
  { apply orb_true_iff in Ha as [Ha| ->]; [|apply orb_true_r].
    rewrite (isalpha_isalnum ch Ha). reflexivity. }
  pose proof (ident_loop_length rest) as L.
  destruct (ident_loop rest) as [taken left']. simpl in L.
  destruct (String.eqb (String ch taken) "print"); intros [= _ <-]; assumption.
Qed.

Lemma tokens_loop_fine n :
  forall (s : string) (i : nat),
    String.length s < n -> fine (tokens_loop n s i).
Proof.
  induction n as [|n IH]; intros s i Hn; [lia|].
  cbn [tokens_loop]. destruct s as [|c0 s0]; [discriminate|].
  pose proof (skip_ws_length (String c0 s0) i) as Lws.
  destruct (skip_ws (String c0 s0) i) as [s1 start]. cbn [fst] in Lws.
  destruct s1 as [|ch rest]; [discriminate|]. cbn [String.length] in *.
  destruct (isdigit ch) eqn:Ed.
  - apply fine_bind; [apply fine_number|].
    intros [tok left] Hnum. apply number_shortens in Hnum; [|assumption].
    apply fine_bind; [apply IH; lia|discriminate].
  - destruct (isalpha ch || Ascii.eqb ch "_") eqn:Ea.
    + destruct (ident (String ch rest) start) as [tok left] eqn:Hid.
      apply ident_shortens in Hid; [|assumption].
      apply fine_bind; [apply IH; lia|discriminate].
    + destruct (single_char ch); [|discriminate].
      apply fine_bind; [apply IH; lia|discriminate].
Qed.

Lemma tokens_never_OutOfFuel (text : string) : tokens text <> Raise OutOfFuel.
Proof. apply tokens_loop_fine. lia. Qed.

(** ** The recursive descent, one call at a time *)

Lemma expr_S n (ts : list token) :
  expr (S n) ts = (r <- term n ts ;; let (nd, ts1) := r in expr_loop n nd ts1).
Proof. reflexivity. Qed.

Lemma expr_loop_S n (nd : node) (ts : list token) :
  expr_loop (S n) nd ts =
  (plus <- at_ PLUS ts ;;
   if plus
   then
     e <- eat PLUS ts ;;
     r <- term n (snd e) ;;
     let (right, ts2) := r in
     expr_loop n (BinOp "+" nd right) ts2
   else
     minus <- at_ MINUS ts ;;
     if minus
     then
       e <- eat MINUS ts ;;
       r <- term n (snd e) ;;
       let (right, ts2) := r in
       expr_loop n (BinOp "-" nd right) ts2
     else Ok (nd, ts)).
Proof. reflexivity. Qed.

Lemma term_S n (ts : list token) :
  term (S n) ts = (r <- power n ts ;; let (nd, ts1) := r in term_loop n nd ts1).
Proof. reflexivity. Qed.

Lemma term_loop_S n (nd : node) (ts : list token) :
  term_loop (S n) nd ts =
  (mul <- at_ MUL ts ;;
   if mul
   then
     e <- eat MUL ts ;;
     r <- power n (snd e) ;;
     let (right, ts2) := r in
     term_loop n (BinOp "*" nd right) ts2
   else
     div <- at_ DIV ts ;;
     if div
     then
       e <- eat DIV ts ;;
       r <- power n (snd e) ;;
       let (right, ts2) := r in
       term_loop n (BinOp "/" nd right) ts2
     else Ok (nd, ts)).
Proof. reflexivity. Qed.

Lemma power_S n (ts : list token) :
  power (S n) ts =
  (r <- unary n ts ;;
   let (nd, ts1) := r in
   pow <- at_ POW ts1 ;;
   if pow
   then
     e <- eat POW ts1 ;;
     r2 <- power n (snd e) ;;
     let (right, ts2) := r2 in
     Ok (BinOp "^" nd right, ts2)
   else Ok (nd, ts1)).
Proof. reflexivity. Qed.

Lemma unary_S n (ts : list token) :
  unary (S n) ts =
  (plus <- at_ PLUS ts ;;
   if plus
   then
     e <- eat PLUS ts ;;
     unary n (snd e)
   else
     minus <- at_ MINUS ts ;;
     if minus
     then
       e <- eat MINUS ts ;;
       r <- unary n (snd e) ;;
       let (operand, ts2) := r in
       Ok (UnaryOp "-" operand, ts2)
     else primary n ts).
Proof. reflexivity. Qed.

Lemma primary_S n (ts : list token) :
  primary (S n) ts =
  (tok <- peek ts ;;
   if TokenType_eqb (type tok) NUMBER
   then
     e <- eat NUMBER ts ;;
     v <- as_number (value tok) ;;
     Ok (Num v, snd e)
   else if TokenType_eqb (type tok) IDENT
   then
     e <- eat IDENT ts ;;
     name <- as_name (value tok) ;;
     Ok (Var name, snd e)
   else if TokenType_eqb (type tok) LPAREN
   then
     e <- eat LPAREN ts ;;
     r <- expr n (snd e) ;;
     let (inner, ts2) := r in
     c <- eat RPAREN ts2 ;;
     Ok (inner, snd c)
   else Raise (SyntaxError (Unexpected_token (type tok) (pos tok)))).
Proof. reflexivity. Qed.

Lemma TokenType_eqb_eq (a b : TokenType) : TokenType_eqb a b = true <-> a = b.
Proof. destruct a, b; simpl; split; congruence. Qed.

Lemma TokenType_eqb_refl (a : TokenType) : TokenType_eqb a a = true.
Proof. destruct a; reflexivity. Qed.

Lemma at_Ok (kind : TokenType) (ts : list token) (b : bool) :
  at_ kind ts = Ok b ->
  exists t ts', ts = t :: ts' /\ b = TokenType_eqb (type t) kind.
Proof.
  destruct ts as [|t ts']; simpl; [discriminate|].
  intros [= <-]. eauto.
Qed.

Lemma eat_Ok (kind : TokenType) (ts : list token) (e : token * list token) :
  eat kind ts = Ok e -> ts = fst e :: snd e /\ type (fst e) = kind.
Proof.
  destruct ts as [|t ts']; unfold eat; simpl; [discriminate|].
  destruct (TokenType_eqb (type t) kind) eqn:E; simpl; [|discriminate].
  intros [= <-]. apply TokenType_eqb_eq in E. auto.
Qed.

Lemma at_cons (kind : TokenType) (t : token) (ts : list token) :
  at_ kind (t :: ts) = Ok (TokenType_eqb (type t) kind).
Proof. reflexivity. Qed.

Lemma eat_cons (kind : TokenType) (t : token) (ts : list token) :
  type t = kind -> eat kind (t :: ts) = Ok (t, ts).
Proof.
  intros <-. unfold eat. simpl. rewrite TokenType_eqb_refl. reflexivity.
Qed.

(** ** The budget is only a budget *)

Lemma below_refl {A : Type} (r : result A) : below r r.
Proof. right. reflexivity. Qed.

Lemma below_trans {A : Type} (r1 r2 r3 : result A) :
  below r1 r2 -> below r2 r3 -> below r1 r3.
Proof.
  intros [->| ->]; [left; reflexivity|]. auto.
Qed.

Lemma below_bind {A B : Type} (r r' : result A) (k k' : A -> result B) :
  below r r' -> (forall a, below (k a) (k' a)) ->
  below (bind r k) (bind r' k').
Proof.
  intros [->| ->] Hk; [left; reflexivity|].
  destruct r' as [a|e]; simpl; [apply Hk|apply below_refl].
Qed.

Lemma below_out {A : Type} (r' : result A) : below (Raise OutOfFuel) r'.
Proof. left. reflexivity. Qed.

Ltac below_step :=
  match goal with
  | |- below ?r ?r => apply below_refl
  | |- below (Raise OutOfFuel) _ => apply below_out
  | |- below (bind _ _) (bind _ _) => apply below_bind; [|intros ?]
  | |- below (if ?b then _ else _) (if ?b then _ else _) => destruct b
  | |- below (let (_, _) := ?p in _) (let (_, _) := ?p in _) => destruct p
  | H : _ |- _ => apply H
  end.

Lemma parser_monotone n :
  (forall ts : list token, below (expr n ts) (expr (S n) ts)) /\
  (forall (nd : node) (ts : list token),
      below (expr_loop n nd ts) (expr_loop (S n) nd ts)) /\
  (forall ts : list token, below (term n ts) (term (S n) ts)) /\
  (forall (nd : node) (ts : list token),
      below (term_loop n nd ts) (term_loop (S n) nd ts)) /\
  (forall ts : list token, below (power n ts) (power (S n) ts)) /\
  (forall ts : list token, below (unary n ts) (unary (S n) ts)) /\
  (forall ts : list token, below (primary n ts) (primary (S n) ts)).
Proof.
  induction n as [|n (IHe & IHel & IHt & IHtl & IHp & IHu & IHpr)].
  - repeat split; intros; apply below_out.
  - repeat split; intros.
    + rewrite (expr_S (S n)), (expr_S n). repeat below_step.
    + rewrite (expr_loop_S (S n)), (expr_loop_S n). repeat below_step.
    + rewrite (term_S (S n)), (term_S n). repeat below_step.
    + rewrite (term_loop_S (S n)), (term_loop_S n). repeat below_step.
    + rewrite (power_S (S n)), (power_S n). repeat below_step.
    + rewrite (unary_S (S n)), (unary_S n). repeat below_step.
    + rewrite (primary_S (S n)), (primary_S n). repeat below_step.
Qed.

Lemma parser_monotone_le n m :
  n <= m ->
  (forall ts : list token, below (expr n ts) (expr m ts)) /\
  (forall ts : list token, below (unary n ts) (unary m ts)).
Proof.
  induction 1 as [|m Hle [IHe IHu]].
  - split; intros; apply below_refl.
  - destruct (parser_monotone m) as (He & _ & _ & _ & _ & Hu & _).
    split; intros ts.
    + eapply below_trans; [apply IHe|apply He].
    + eapply below_trans; [apply IHu|apply Hu].
Qed.

Lemma parse_with_monotone n m (ts : list token) :
  n <= m -> below (parse_with n ts) (parse_with m ts).
Proof.
  intros Hle. destruct (parser_monotone_le n m Hle) as [He _].
  unfold parse_with. repeat below_step.
Qed.

(** ** What a successful descent has read *)

Ltac inv_ok H :=
  repeat match type of H with
         | bind ?r _ = Ok _ =>
             let E := fresh "E" in
             destruct r as [?|?] eqn:E; cbn [bind] in H; [|discriminate H]
         | (let (_, _) := ?p in _) = Ok _ => destruct p
         | Raise _ = Ok _ => discriminate H
         end.

Lemma guard_weaken (stop stop' : TokenType -> bool) (rest rest' : list token) :
  (forall k, stop k = true -> stop' k = true) ->
  guard stop rest rest' -> guard stop' rest rest'.
Proof. destruct rest'; simpl; [auto|]. intros H [G|G]; auto. Qed.

Lemma stops_expr_term k : stops_expr k = true -> stops_term k = true.
Proof. destruct k; cbv; congruence. Qed.

Lemma stops_term_power k : stops_term k = true -> stops_power k = true.
Proof. destruct k; cbv; congruence. Qed.

Lemma guard_same (stop : TokenType -> bool) (t : token) (ts ts' : list token) :
  guard stop (t :: ts) (t :: ts').
Proof. right. reflexivity. Qed.

Lemma guard_at (stop : TokenType -> bool) (kind : TokenType)
    (t : token) (ts rest' : list token) :
  stop kind = false -> TokenType_eqb (type t) kind = false ->
  guard stop (t :: ts) rest' -> at_ kind rest' = Ok false.
Proof.
  destruct rest' as [|t' ts']; simpl; [tauto|].
  intros Hk Ht G. rewrite at_cons. f_equal.
  destruct (TokenType_eqb (type t') kind) eqn:E; [|reflexivity].
  apply TokenType_eqb_eq in E. destruct G as [G|G]; [congruence|].
  rewrite G, E, TokenType_eqb_refl in Ht. discriminate.
Qed.

Ltac norm_app := cbn [app]; rewrite <- ?app_assoc; cbn [app].

(** Splits [H : at_ k ts = Ok b] into the shape of [ts]. *)
Ltac at_inv H :=
  let t := fresh "t" in
  let ts' := fresh "ts" in
  let Hb := fresh "Hb" in
  apply at_Ok in H as (t & ts' & -> & Hb).

Lemma parser_reads n :
  (forall ts nd rest, expr n ts = Ok (nd, rest) ->
     exists t pre, reads stops_expr (expr n) ts nd rest (t :: pre)) /\
  (forall nd0 ts nd rest, expr_loop n nd0 ts = Ok (nd, rest) ->
     exists pre, reads stops_expr (expr_loop n nd0) ts nd rest pre /\
       forall rest', guard stops_expr rest rest' ->
                     guard stops_term (pre ++ rest) (pre ++ rest')) /\
  (forall ts nd rest, term n ts = Ok (nd, rest) ->
     exists t pre, reads stops_term (term n) ts nd rest (t :: pre)) /\
  (forall nd0 ts nd rest, term_loop n nd0 ts = Ok (nd, rest) ->
     exists pre, reads stops_term (term_loop n nd0) ts nd rest pre /\
       forall rest', guard stops_term rest rest' ->
                     guard stops_power (pre ++ rest) (pre ++ rest')) /\
  (forall ts nd rest, power n ts = Ok (nd, rest) ->
     exists t pre, reads stops_power (power n) ts nd rest (t :: pre)) /\
  (forall ts nd rest, unary n ts = Ok (nd, rest) ->
     exists t pre, reads anything (unary n) ts nd rest (t :: pre)) /\
  (forall ts nd rest, primary n ts = Ok (nd, rest) ->
     exists t pre, reads anything (primary n) ts nd rest (t :: pre)).
Proof.
  induction n as [|n (IHe & IHel & IHt & IHtl & IHp & IHu & IHpr)].
  - repeat split; intros; discriminate.
  - repeat split.
    + (* expr *)
      intros ts nd rest H. rewrite expr_S in H. inv_ok H.
      apply IHt in E as (t & pre1 & -> & R1). cbn [app] in R1.
      apply IHel in H as (pre2 & (-> & R2) & G2).
      exists t, (pre1 ++ pre2). split; [norm_app; reflexivity|].
      intros rest' G. rewrite expr_S. norm_app.
      rewrite (R1 (pre2 ++ rest')) by auto. cbn [bind]. auto.
    + (* expr_loop *)
      intros nd0 ts nd rest H. rewrite expr_loop_S in H. inv_ok H.
      at_inv E. subst.
      destruct (TokenType_eqb (type t) PLUS) eqn:EP.
      * pose proof (proj1 (TokenType_eqb_eq _ _) EP) as HP.
        rewrite eat_cons in H by assumption. cbn [bind snd] in H. inv_ok H.
        apply IHt in E as (t1 & pre1 & -> & R1). cbn [app] in R1.
        apply IHel in H as (pre2 & (-> & R2) & G2).
        exists (t :: (t1 :: pre1) ++ pre2). repeat split.
        -- norm_app. reflexivity.
        -- intros rest' G. rewrite expr_loop_S. norm_app.
           rewrite at_cons, EP. cbn [bind].
           rewrite eat_cons by assumption. cbn [bind snd].
           rewrite (R1 (pre2 ++ rest')) by auto. cbn [bind]. auto.
        -- intros rest' _. apply guard_same.
      * rewrite at_cons in H. cbn [bind] in H.
        destruct (TokenType_eqb (type t) MINUS) eqn:EM.
        -- pose proof (proj1 (TokenType_eqb_eq _ _) EM) as HM.
           rewrite eat_cons in H by assumption. cbn [bind snd] in H. inv_ok H.
           apply IHt in E as (t1 & pre1 & -> & R1). cbn [app] in R1.
           apply IHel in H as (pre2 & (-> & R2) & G2).
           exists (t :: (t1 :: pre1) ++ pre2). repeat split.
           ++ norm_app. reflexivity.
           ++ intros rest' G. rewrite expr_loop_S. norm_app.
              rewrite at_cons, EP. cbn [bind].
              rewrite at_cons, EM. cbn [bind].
              rewrite eat_cons by assumption. cbn [bind snd].
              rewrite (R1 (pre2 ++ rest')) by auto. cbn [bind]. auto.
           ++ intros rest' _. apply guard_same.
        -- injection H as <- <-. exists []. repeat split.
           ++ intros rest' G. rewrite expr_loop_S. cbn [app].
              rewrite (guard_at stops_expr PLUS t _ rest' eq_refl EP G).
              cbn [bind].
              rewrite (guard_at stops_expr MINUS t _ rest' eq_refl EM G).
              reflexivity.
           ++ intros rest' G. cbn [app].
              eapply guard_weaken; [apply stops_expr_term|assumption].
    + (* term *)
      intros ts nd rest H. rewrite term_S in H. inv_ok H.
      apply IHp in E as (t & pre1 & -> & R1). cbn [app] in R1.
      apply IHtl in H as (pre2 & (-> & R2) & G2).
      exists t, (pre1 ++ pre2). split; [norm_app; reflexivity|].
      intros rest' G. rewrite term_S. norm_app.
      rewrite (R1 (pre2 ++ rest')) by auto. cbn [bind]. auto.
    + (* term_loop *)
      intros nd0 ts nd rest H. rewrite term_loop_S in H. inv_ok H.
      at_inv E. subst.
      destruct (TokenType_eqb (type t) MUL) eqn:EP.
      * pose proof (proj1 (TokenType_eqb_eq _ _) EP) as HP.
        rewrite eat_cons in H by assumption. cbn [bind snd] in H. inv_ok H.
        apply IHp in E as (t1 & pre1 & -> & R1). cbn [app] in R1.
        apply IHtl in H as (pre2 & (-> & R2) & G2).
        exists (t :: (t1 :: pre1) ++ pre2). repeat split.
        -- norm_app. reflexivity.
        -- intros rest' G. rewrite term_loop_S. norm_app.
           rewrite at_cons, EP. cbn [bind].
           rewrite eat_cons by assumption. cbn [bind snd].
           rewrite (R1 (pre2 ++ rest')) by auto. cbn [bind]. auto.
        -- intros rest' _. apply guard_same.
      * rewrite at_cons in H. cbn [bind] in H.
        destruct (TokenType_eqb (type t) DIV) eqn:EM.
        -- pose proof (proj1 (TokenType_eqb_eq _ _) EM) as HM.
           rewrite eat_cons in H by assumption. cbn [bind snd] in H. inv_ok H.
           apply IHp in E as (t1 & pre1 & -> & R1). cbn [app] in R1.
           apply IHtl in H as (pre2 & (-> & R2) & G2).
           exists (t :: (t1 :: pre1) ++ pre2). repeat split.
           ++ norm_app. reflexivity.
           ++ intros rest' G. rewrite term_loop_S. norm_app.
              rewrite at_cons, EP. cbn [bind].
              rewrite at_cons, EM. cbn [bind].
              rewrite eat_cons by assumption. cbn [bind snd].
              rewrite (R1 (pre2 ++ rest')) by auto. cbn [bind]. auto.
           ++ intros rest' _. apply guard_same.
        -- injection H as <- <-. exists []. repeat split.
           ++ intros rest' G. rewrite term_loop_S. cbn [app].
              rewrite (guard_at stops_term MUL t _ rest' eq_refl EP G).
              cbn [bind].
              rewrite (guard_at stops_term DIV t _ rest' eq_refl EM G).
              reflexivity.
           ++ intros rest' G. cbn [app].
              eapply guard_weaken; [apply stops_term_power|assumption].
    + (* power *)
      intros ts nd rest H. rewrite power_S in H. inv_ok H.
      apply IHu in E as (t1 & pre1 & -> & R1). cbn [app] in R1.
      at_inv E0. subst.
      destruct (TokenType_eqb (type t) POW) eqn:EP.
      * pose proof (proj1 (TokenType_eqb_eq _ _) EP) as HP.
        rewrite eat_cons in H by assumption. cbn [bind snd] in H. inv_ok H.
        apply IHp in E as (t2 & pre2 & -> & R2). cbn [app] in R2.
        injection H as <- <-.
        exists t1, (pre1 ++ t :: t2 :: pre2). split; [norm_app; reflexivity|].
        intros rest' G. rewrite power_S. norm_app.
        rewrite (R1 (t :: t2 :: pre2 ++ rest')) by apply guard_same.
        cbn [bind].
        rewrite at_cons, EP. cbn [bind].
        rewrite eat_cons by assumption. cbn [bind snd].
        rewrite R2 by assumption. reflexivity.
      * injection H as <- <-.
        exists t1, pre1. split; [reflexivity|].
        intros rest' G. rewrite power_S. cbn [app].
        rewrite (R1 rest') by (eapply guard_weaken; [|exact G]; reflexivity).
        cbn [bind].
        rewrite (guard_at stops_power POW t _ rest' eq_refl EP G).
        reflexivity.
    + (* unary *)
      intros ts nd rest H. rewrite unary_S in H. inv_ok H.
      at_inv E. subst.
      destruct (TokenType_eqb (type t) PLUS) eqn:EP.
      * pose proof (proj1 (TokenType_eqb_eq _ _) EP) as HP.
        rewrite eat_cons in H by assumption. cbn [bind snd] in H.
        apply IHu in H as (t1 & pre1 & -> & R1). cbn [app] in R1.
        exists t, (t1 :: pre1). split; [reflexivity|].
        intros rest' G. rewrite unary_S. cbn [app].
        rewrite at_cons, EP. cbn [bind].
        rewrite eat_cons by assumption. cbn [bind snd]. auto.
      * rewrite at_cons in H. cbn [bind] in H.
        destruct (TokenType_eqb (type t) MINUS) eqn:EM.
        -- pose proof (proj1 (TokenType_eqb_eq _ _) EM) as HM.
           rewrite eat_cons in H by assumption. cbn [bind snd] in H. inv_ok H.
           apply IHu in E as (t1 & pre1 & -> & R1). cbn [app] in R1.
           injection H as <- <-.
           exists t, (t1 :: pre1). split; [reflexivity|].
           intros rest' G. rewrite unary_S. cbn [app].
           rewrite at_cons, EP. cbn [bind].
           rewrite at_cons, EM. cbn [bind].
           rewrite eat_cons by assumption. cbn [bind snd].
           rewrite R1 by assumption. reflexivity.
        -- apply IHpr in H as (t1 & pre1 & Hts & R1). cbn [app] in Hts, R1.
           injection Hts as <- ->.
           exists t, pre1. split; [reflexivity|].
           intros rest' G. rewrite unary_S. cbn [app].
           rewrite at_cons, EP. cbn [bind].
           rewrite at_cons, EM. cbn [bind]. auto.
    + (* primary *)
      intros ts nd rest H. rewrite primary_S in H.
      destruct ts as [|t ts0]; [discriminate|]. cbn [peek bind] in H.
      destruct (TokenType_eqb (type t) NUMBER) eqn:EN;
        [|destruct (TokenType_eqb (type t) IDENT) eqn:EI;
          [|destruct (TokenType_eqb (type t) LPAREN) eqn:EL; [|discriminate]]].
      * pose proof (proj1 (TokenType_eqb_eq _ _) EN) as HN.
        rewrite eat_cons in H by assumption. cbn [bind snd] in H. inv_ok H.
        injection H as <- <-.
        exists t, []. split; [reflexivity|].
        intros rest' G. rewrite primary_S. cbn [app peek bind].
        rewrite EN, eat_cons by assumption. cbn [bind snd]. rewrite E.
        reflexivity.
      * pose proof (proj1 (TokenType_eqb_eq _ _) EI) as HI.
        rewrite eat_cons in H by assumption. cbn [bind snd] in H. inv_ok H.
        injection H as <- <-.
        exists t, []. split; [reflexivity|].
        intros rest' G. rewrite primary_S. cbn [app peek bind].
        rewrite EN, EI, eat_cons by assumption. cbn [bind snd]. rewrite E.
        reflexivity.
      * pose proof (proj1 (TokenType_eqb_eq _ _) EL) as HL.
        rewrite eat_cons in H by assumption. cbn [bind snd] in H. inv_ok H.
        apply IHe in E as (t1 & pre1 & -> & R1). cbn [app] in R1.
        destruct a as [c rest0].
        apply eat_Ok in E0 as [-> HR]. cbn [fst snd] in *.
        injection H as <- <-.
        exists t, ((t1 :: pre1) ++ [c]). split; [norm_app; reflexivity|].
        intros rest' G. rewrite primary_S. norm_app. cbn [peek bind].
        rewrite EN, EI, EL, eat_cons by assumption. cbn [bind snd].
        rewrite (R1 (c :: rest')) by apply guard_same.
        cbn [bind]. rewrite eat_cons by assumption. reflexivity.
Qed.


Lemma reads_length (stop : TokenType -> bool) f (ts : list token) nd rest pre :
  reads stop f ts nd rest pre ->
  List.length ts = List.length pre + List.length rest.
Proof. intros [-> _]. apply length_app. Qed.

Lemma parser_shortens n :
  (forall ts nd rest, expr n ts = Ok (nd, rest) ->
     List.length rest < List.length ts) /\
  (forall nd0 ts nd rest, expr_loop n nd0 ts = Ok (nd, rest) ->
     List.length rest <= List.length ts) /\
  (forall ts nd rest, term n ts = Ok (nd, rest) ->
     List.length rest < List.length ts) /\
  (forall nd0 ts nd rest, term_loop n nd0 ts = Ok (nd, rest) ->
     List.length rest <= List.length ts) /\
  (forall ts nd rest, power n ts = Ok (nd, rest) ->
     List.length rest < List.length ts) /\
  (forall ts nd rest, unary n ts = Ok (nd, rest) ->
     List.length rest < List.length ts) /\
  (forall ts nd rest, primary n ts = Ok (nd, rest) ->
     List.length rest < List.length ts).
Proof.
  destruct (parser_reads n) as (He & Hel & Ht & Htl & Hp & Hu & Hpr).
  repeat split; intros.
  - apply He in H as (t & pre & R). apply reads_length in R. simpl in R. lia.
  - apply Hel in H as (pre & R & _). apply reads_length in R. lia.
  - apply Ht in H as (t & pre & R). apply reads_length in R. simpl in R. lia.
  - apply Htl in H as (pre & R & _). apply reads_length in R. lia.
  - apply Hp in H as (t & pre & R). apply reads_length in R. simpl in R. lia.
  - apply Hu in H as (t & pre & R). apply reads_length in R. simpl in R. lia.
  - apply Hpr in H as (t & pre & R). apply reads_length in R. simpl in R. lia.
Qed.

Lemma eat_length (kind : TokenType) (ts : list token) e :
  eat kind ts = Ok e -> List.length ts = S (List.length (snd e)).
Proof. intros H. apply eat_Ok in H as [-> _]. reflexivity. Qed.

(** ** The budget of [parse] is enough *)

Lemma fine_at (kind : TokenType) (ts : list token) : fine (at_ kind ts).
Proof. destruct ts; discriminate. Qed.

Lemma fine_peek (ts : list token) : fine (peek ts).
Proof. destruct ts; discriminate. Qed.

Lemma fine_lookahead (ts : list token) : fine (lookahead ts).
Proof. destruct ts as [|? [|? ?]]; discriminate. Qed.

Lemma fine_eat (kind : TokenType) (ts : list token) : fine (eat kind ts).
Proof.
  destruct ts as [|t ts]; unfold eat; simpl; [discriminate|].
  destruct (TokenType_eqb (type t) kind); discriminate.
Qed.

Lemma fine_as_number (v : pyval hfloat) : fine (as_number v).
Proof. destruct v; discriminate. Qed.

Lemma fine_as_name (v : pyval hfloat) : fine (as_name v).
Proof. destruct v; discriminate. Qed.

Ltac lengths :=
  repeat match goal with
         | H : eat _ _ = Ok _ |- _ => apply eat_length in H
         | H : expr _ _ = Ok _ |- _ => apply parser_shortens in H
         | H : expr_loop _ _ _ = Ok _ |- _ => apply parser_shortens in H
         | H : term _ _ = Ok _ |- _ => apply parser_shortens in H
         | H : term_loop _ _ _ = Ok _ |- _ => apply parser_shortens in H
         | H : power _ _ = Ok _ |- _ => apply parser_shortens in H
         | H : unary _ _ = Ok _ |- _ => apply parser_shortens in H
         | H : primary _ _ = Ok _ |- _ => apply parser_shortens in H
         end;
  cbn [fst snd] in *; lia.

Ltac fine_step :=
  match goal with
  | |- fine (bind _ _) => apply fine_bind; [|intros ? ?]
  | |- fine (if ?b then _ else _) => destruct b
  | |- fine (let (_, _) := ?p in _) => destruct p
  | |- fine (Ok _) => discriminate
  | |- fine (Raise (SyntaxError _)) => discriminate
  | |- fine (at_ _ _) => apply fine_at
  | |- fine (eat _ _) => apply fine_eat
  | |- fine (peek _) => apply fine_peek
  | |- fine (lookahead _) => apply fine_lookahead
  | |- fine (as_number _) => apply fine_as_number
  | |- fine (as_name _) => apply fine_as_name
  | H : _ |- fine _ => apply H; lengths
  end.

Lemma parser_fine n :
  (forall ts : list token, 8 * List.length ts + 7 <= n -> fine (expr n ts)) /\
  (forall (nd : node) (ts : list token),
      8 * List.length ts + 6 <= n -> fine (expr_loop n nd ts)) /\
  (forall ts : list token, 8 * List.length ts + 5 <= n -> fine (term n ts)) /\
  (forall (nd : node) (ts : list token),
      8 * List.length ts + 4 <= n -> fine (term_loop n nd ts)) /\
  (forall ts : list token, 8 * List.length ts + 3 <= n -> fine (power n ts)) /\
  (forall ts : list token, 8 * List.length ts + 2 <= n -> fine (unary n ts)) /\
  (forall ts : list token, 8 * List.length ts + 1 <= n -> fine (primary n ts)).
Proof.
  induction n as [|n (IHe & IHel & IHt & IHtl & IHp & IHu & IHpr)].
  - repeat split; intros; lia.
  - repeat split; intros.
    + rewrite expr_S. repeat fine_step.
    + rewrite expr_loop_S. repeat fine_step.
    + rewrite term_S. repeat fine_step.
    + rewrite term_loop_S. repeat fine_step.
    + rewrite power_S. repeat fine_step.
    + rewrite unary_S. repeat fine_step.
    + rewrite primary_S. repeat fine_step.
Qed.

Lemma parse_with_fine n (ts : list token) :
  8 * List.length ts + 7 <= n -> fine (parse_with n ts).
Proof.
  intros Hn. destruct (parser_fine n) as (He & _).
  unfold parse_with. repeat fine_step.
Qed.

Lemma parse_never_OutOfFuel (ts : list token) : parse ts <> Raise OutOfFuel.
Proof.
  apply parse_with_fine. unfold parse_fuel. lia.
Qed.

(** With enough budget the result is the result of [parse]. *)
Lemma parse_with_enough n (ts : list token) r :
  parse_with n ts = Ok r -> parse ts = Ok r.
Proof.
  intros H. unfold parse.
  destruct (Nat.le_ge_cases n (parse_fuel (List.length ts))) as [Hle|Hle].
  - destruct (parse_with_monotone _ _ ts Hle) as [E|E]; congruence.
  - destruct (parse_with_monotone _ _ ts Hle) as [E|E]; [|congruence].
    exfalso. revert E. apply parse_with_fine. unfold parse_fuel. lia.
Qed.

(** ** What the parser builds *)

Lemma built_binary (o : string) (l r : node) :
  In o ["+"; "-"; "*"; "/"; "^"] -> built l -> built r -> built (BinOp o l r).
Proof.
  intros Ho [El Pl] [Er Pr]. unfold built. simpl. rewrite El, Er, Pl, Pr.
  simpl in Ho. intuition subst; reflexivity.
Qed.

Lemma built_unary (e : node) : built e -> built (UnaryOp "-" e).
Proof. intros [Ee Pe]. unfold built. simpl. rewrite Ee, Pe. auto. Qed.

Ltac split_ok H :=
  repeat match type of H with
         | bind ?r _ = Ok _ =>
             let E := fresh "E" in
             destruct r as [?|?] eqn:E; cbn [bind] in H; [|discriminate H]
         | (let (_, _) := ?p in _) = Ok _ => destruct p
         | (if ?b then _ else _) = Ok _ => destruct b
         | Raise _ = Ok _ => discriminate H
         | Ok _ = Ok _ => injection H as <- <-
         end.

Lemma parser_builds n :
  (forall ts nd rest, expr n ts = Ok (nd, rest) -> built nd) /\
  (forall nd0 ts nd rest, built nd0 ->
     expr_loop n nd0 ts = Ok (nd, rest) -> built nd) /\
  (forall ts nd rest, term n ts = Ok (nd, rest) -> built nd) /\
  (forall nd0 ts nd rest, built nd0 ->
     term_loop n nd0 ts = Ok (nd, rest) -> built nd) /\
  (forall ts nd rest, power n ts = Ok (nd, rest) -> built nd) /\
  (forall ts nd rest, unary n ts = Ok (nd, rest) -> built nd) /\
  (forall ts nd rest, primary n ts = Ok (nd, rest) -> built nd).
Proof.
  induction n as [|n (IHe & IHel & IHt & IHtl & IHp & IHu & IHpr)].
  - repeat split; intros; discriminate.
  - split; [|split; [|split; [|split; [|split; [|split]]]]].
    + intros ts nd rest H. rewrite expr_S in H. split_ok H. eauto.
    + intros nd0 ts nd rest B H. rewrite expr_loop_S in H. split_ok H;
        try assumption;
        (eapply IHel; [|eassumption]); apply built_binary; simpl; eauto.
    + intros ts nd rest H. rewrite term_S in H. split_ok H. eauto.
    + intros nd0 ts nd rest B H. rewrite term_loop_S in H. split_ok H;
        try assumption;
        (eapply IHtl; [|eassumption]); apply built_binary; simpl; eauto 6.
    + intros ts nd rest H. rewrite power_S in H. split_ok H; eauto.
      apply built_binary; simpl; eauto 6.
    + intros ts nd rest H. rewrite unary_S in H. split_ok H; eauto.
      apply built_unary. eauto.
    + intros ts nd rest H. rewrite primary_S in H. split_ok H; eauto.
      * split; reflexivity.
      * split; reflexivity.
Qed.

Lemma stops_statement_expr k : stops_statement k = true -> stops_expr k = true.
Proof. destruct k; cbv; congruence. Qed.

Lemma parse_with_reads n (ts : list token) (s : node) (rest : list token) :
  parse_with n ts = Ok (s, rest) ->
  exists pre, reads stops_statement (parse_with n) ts s rest pre.
Proof.
  destruct (parser_reads n) as (He & _).
  unfold parse_with at 1. intros H. inv_ok H. at_inv E. subst.
  destruct (TokenType_eqb (type t) PRINT) eqn:EP.
  - pose proof (proj1 (TokenType_eqb_eq _ _) EP) as HP.
    rewrite eat_cons in H by assumption. cbn [bind snd] in H. inv_ok H.
    at_inv E. subst. rename t0 into t2.
    destruct (TokenType_eqb (type t2) LPAREN) eqn:EL.
    + pose proof (proj1 (TokenType_eqb_eq _ _) EL) as HL.
      rewrite eat_cons in H by assumption. cbn [bind snd] in H. inv_ok H.
      apply He in E as (t1 & pre1 & -> & R1). cbn [app] in R1.
      destruct a as [c rest0]. apply eat_Ok in E0 as [-> HR].
      cbn [fst snd] in *. injection H as <- <-.
      exists (t :: t2 :: (t1 :: pre1) ++ [c]). split; [norm_app; reflexivity|].
      intros rest' G. unfold parse_with. norm_app.
      rewrite at_cons, EP. cbn [bind].
      rewrite eat_cons by assumption. cbn [bind snd].
      rewrite at_cons, EL. cbn [bind].
      rewrite eat_cons by assumption. cbn [bind snd].
      rewrite (R1 (c :: rest')) by apply guard_same.
      cbn [bind]. rewrite eat_cons by assumption. reflexivity.
    + inv_ok H. apply He in E as (t1 & pre1 & Hts & R1). cbn [app] in Hts, R1.
      injection Hts as <- ->. injection H as <- <-.
      exists (t :: t2 :: pre1). split; [reflexivity|].
      intros rest' G. unfold parse_with. cbn [app].
      rewrite at_cons, EP. cbn [bind].
      rewrite eat_cons by assumption. cbn [bind snd].
      rewrite at_cons, EL. cbn [bind].
      rewrite R1; [reflexivity|].
      eapply guard_weaken; [apply stops_statement_expr|assumption].
  - rewrite at_cons in H. cbn [bind] in H.
    destruct (TokenType_eqb (type t) IDENT) eqn:EI.
    + pose proof (proj1 (TokenType_eqb_eq _ _) EI) as HI.
      cbn [peek bind] in H. inv_ok H.
      destruct ts0 as [|next ts1]; [discriminate|].
      injection E as <-.
      destruct (TokenType_eqb (type next) ASSIGN) eqn:EA.
      * pose proof (proj1 (TokenType_eqb_eq _ _) EA) as HA.
        rewrite eat_cons in H by assumption. cbn [bind snd] in H.
        rewrite eat_cons in H by assumption. cbn [bind snd] in H. inv_ok H.
        apply He in E as (t1 & pre1 & -> & R1). cbn [app] in R1.
        injection H as <- <-.
        exists (t :: next :: t1 :: pre1). split; [reflexivity|].
        intros rest' G. unfold parse_with. cbn [app].
        rewrite at_cons, EP. cbn [bind].
        rewrite at_cons, EI. cbn [bind peek lookahead].
        rewrite EA.
        rewrite eat_cons by assumption. cbn [bind snd].
        rewrite eat_cons by assumption. cbn [bind snd].
        rewrite R1
          by (eapply guard_weaken; [apply stops_statement_expr|assumption]).
        cbn [bind]. rewrite E0. reflexivity.
      * apply He in H as (t1 & pre1 & Hts & R1). cbn [app] in Hts, R1.
        injection Hts as <- Hts.
        exists (t :: pre1). split; [cbn [app]; congruence|].
        intros rest' G. unfold parse_with. cbn [app].
        rewrite at_cons, EP. cbn [bind].
        rewrite at_cons, EI. cbn [bind peek].
        assert (L : exists next' more, pre1 ++ rest' = next' :: more /\
                      TokenType_eqb (type next') ASSIGN = false).
        { destruct pre1 as [|p1 pre1'].
          - destruct rest' as [|t' more]; [destruct G|].
            exists t', more. split; [reflexivity|].
            cbn [app] in Hts. subst rest. destruct G as [G|G].
            + destruct (type t'); cbv in G |- *; congruence.
            + rewrite <- G. assumption.
          - cbn [app] in Hts. injection Hts as -> _.
            exists p1, (pre1' ++ rest'). split; [reflexivity|assumption]. }
        destruct L as (next' & more & L & EA').
        rewrite L. cbn [lookahead bind]. rewrite EA', <- L.
        apply R1.
        eapply guard_weaken; [apply stops_statement_expr|assumption].
    + apply He in H as (t1 & pre1 & Hts & R1). cbn [app] in Hts, R1.
      injection Hts as <- ->.
      exists (t :: pre1). split; [reflexivity|].
      intros rest' G. unfold parse_with. cbn [app].
      rewrite at_cons, EP. cbn [bind].
      rewrite at_cons, EI. cbn [bind].
      apply R1.
      eapply guard_weaken; [apply stops_statement_expr|assumption].
Qed.

Lemma parse_with_builds n (ts : list token) (s : node) (rest : list token) :
  parse_with n ts = Ok (s, rest) -> statement s.
Proof.
  destruct (parser_builds n) as (He & _).
  unfold parse_with, statement. intros H. split_ok H; eauto 7.
Qed.

Lemma parse_with_expression n (ts : list token) (nd : node) (rest : list token) :
  parse_with n ts = Ok (nd, rest) -> is_expression nd = true ->
  expr n ts = Ok (nd, rest).
Proof.
  unfold parse_with. intros H Hnd. split_ok H; try discriminate Hnd; assumption.
Qed.

Lemma gen_built (e : node) : built e -> exists c, gen e [] = Ok c.
Proof.
  unfold built.
  induction e as [v|name|o l IHl r IHr|o e IHe|name e IHe|e IHe|];
    simpl; intros [He Hp]; try discriminate; eauto.
  - apply andb_true_iff in He as [El Er].
    apply andb_true_iff in Hp as [Hp Pr].
    apply andb_true_iff in Hp as [Ho Pl].
    destruct (IHl (conj El Pl)) as [cl ->].
    destruct (IHr (conj Er Pr)) as [cr Gr].
    cbn [bind]. rewrite gen_appends, Gr. cbn [bind].
    destruct (String.eqb o "+"); [eauto|].
    destruct (String.eqb o "-"); [eauto|].
    destruct (String.eqb o "*"); [eauto|].
    destruct (String.eqb o "/"); [eauto|].
    destruct (String.eqb o "^"); [eauto|].
    discriminate.
  - apply andb_true_iff in Hp as [Ho Pe].
    destruct (IHe (conj He Pe)) as [ce ->]. cbn [bind]. rewrite Ho. eauto.
Qed.

Lemma gen_statement (s : node) : statement s -> exists c, gen s [] = Ok c.
Proof.
  intros [(e & -> & B)|[(name & e & -> & B)|B]].
  - destruct (gen_built e B) as [c Hc]. simpl. rewrite Hc. simpl. eauto.
  - destruct (gen_built e B) as [c Hc]. simpl. rewrite Hc. simpl. eauto.
  - apply gen_built. assumption.
Qed.

(** ** A leading plus sign *)

Lemma unary_plus n (p : token) (ts : list token) :
  type p = PLUS -> unary (S n) (p :: ts) = unary n ts.
Proof.
  intros Hp. rewrite unary_S, at_cons, Hp. cbn [TokenType_eqb bind].
  rewrite eat_cons by assumption. reflexivity.
Qed.

Lemma power_plus n (p : token) (ts : list token) :
  type p = PLUS -> below (power n ts) (power (S n) (p :: ts)).
Proof.
  intros Hp. destruct n as [|n]; [apply below_out|].
  destruct (parser_monotone n) as (He & Hel & Ht & Htl & Hpw & Hu & Hpr).
  rewrite (power_S (S n)), (power_S n), unary_plus by assumption.
  repeat below_step.
Qed.

Lemma term_plus n (p : token) (ts : list token) :
  type p = PLUS -> below (term n ts) (term (S n) (p :: ts)).
Proof.
  intros Hp. destruct n as [|n]; [apply below_out|].
  destruct (parser_monotone n) as (He & Hel & Ht & Htl & Hpw & Hu & Hpr).
  pose proof (power_plus n p ts Hp) as Hplus.
  rewrite (term_S (S n)), (term_S n).
  apply below_bind; [assumption|]. intros a. repeat below_step.
Qed.

Lemma expr_plus n (p : token) (ts : list token) :
  type p = PLUS -> below (expr n ts) (expr (S n) (p :: ts)).
Proof.
  intros Hp. destruct n as [|n]; [apply below_out|].
  destruct (parser_monotone n) as (He & Hel & Ht & Htl & Hpw & Hu & Hpr).
  pose proof (term_plus n p ts Hp) as Hplus.
  rewrite (expr_S (S n)), (expr_S n).
  apply below_bind; [assumption|]. intros a. repeat below_step.
Qed.

Lemma parse_with_plus n (p : token) (ts : list token) :
  type p = PLUS -> parse_with n (p :: ts) = expr n (p :: ts).
Proof.
  intros Hp. unfold parse_with. rewrite !at_cons, Hp. reflexivity.
Qed.

(** ** Statements on the machine *)

Lemma exec_print (m : vm) (out : list num) (v : num) (s : list num) :
  exec (mkInstr "PRINT" PyNone) (set_stack m (v :: s)) out =
  if printable v then (set_stack m s, out ++ [v], None)
  else (set_stack m s, out, Some (ValueError digit_limit)).
Proof. reflexivity. Qed.

Lemma exec_store (name : string) (m : vm) (out : list num) (v : num) (s : list num) :
  exec (mkInstr "STORE" (PyStr name)) (set_stack m (v :: s)) out =
  (mkVM s (<[name := v]> (env m)), out, None).
Proof. reflexivity. Qed.

(** A print statement prints the value of its expression, unless [str]
    refuses it, and gives the stack back as it found it. *)
Lemma run_print (e : node) (c : list instr) :
  is_expression e = true -> gen (PrintStmt e) [] = Ok c ->
  forall (m : vm) (out : list num),
    match denote e (env m) with
    | Ok v =>
        run c m out =
        if printable v then (m, out ++ [v], None)
        else (m, out, Some (ValueError digit_limit))
    | Raise err => exists s, run c m out = (set_stack m s, out, Some err)
    end.
Proof.
  intros He Hc m out. simpl in Hc.
  destruct (gen e []) as [ce|] eqn:Ge; [|discriminate].
  injection Hc as <-. unfold emit. rewrite run_app.
  pose proof (run_expression e He ce Ge m out) as R.
  destruct (denote e (env m)) as [v|err].
  - rewrite R, run_one, exec_print, set_stack_same. reflexivity.
  - destruct R as [s ->]. exists s. reflexivity.
Qed.

(** An assignment binds the value of its expression, prints nothing and
    gives the stack back as it found it. *)
Lemma run_assign (name : string) (e : node) (c : list instr) :
  is_expression e = true -> gen (Assign name e) [] = Ok c ->
  forall (m : vm) (out : list num),
    match denote e (env m) with
    | Ok v => run c m out = (mkVM (stack m) (<[name := v]> (env m)), out, None)
    | Raise err => exists s, run c m out = (set_stack m s, out, Some err)
    end.
Proof.
  intros He Hc m out. simpl in Hc.
  destruct (gen e []) as [ce|] eqn:Ge; [|discriminate].
  injection Hc as <-. unfold emit. rewrite run_app.
  pose proof (run_expression e He ce Ge m out) as R.
  destruct (denote e (env m)) as [v|err].
  - rewrite R, run_one, exec_store. reflexivity.
  - destruct R as [s ->]. exists s. reflexivity.
Qed.

(** On the syntax tree, storing an expression and printing the variable
    prints what printing the expression prints. *)
Lemma assign_then_print (name : string) (e : node) (c1 c2 c3 : list instr)
    (m : vm) (out : list num) (v : num) :
  is_expression e = true ->
  gen (Assign name e) [] = Ok c1 ->
  gen (PrintStmt (Var name)) [] = Ok c2 ->
  gen (PrintStmt e) [] = Ok c3 ->
  denote e (env m) = Ok v -> printable v = true ->
  run c3 m out = (m, out ++ [v], None) /\
  exists m1, run c1 m out = (m1, out, None) /\
             run c2 m1 out = (m1, out ++ [v], None).
Proof.
  intros He H1 H2 H3 Hv Hp.
  pose proof (run_print e c3 He H3 m out) as R3. rewrite Hv, Hp in R3.
  pose proof (run_assign name e c1 He H1 m out) as R1. rewrite Hv in R1.
  split; [assumption|].
  eexists. split; [eassumption|].
  pose proof (run_print (Var name) c2 eq_refl H2
                (mkVM (stack m) (<[name := v]> (env m))) out) as R2.
  cbn [denote env] in R2. rewrite lookup_insert_eq, Hp in R2. exact R2.
Qed.

(** A bare expression prints nothing, whatever it computes. *)
Lemma bare_expression_silent (e : node) (c : list instr) (m : vm) (out : list num) :
  is_expression e = true -> gen e [] = Ok c ->
  snd (fst (run c m out)) = out.
Proof.
  intros He Hc. pose proof (run_expression e He c Hc m out) as R.
  destruct (denote e (env m)) as [v|err].
  - rewrite R. reflexivity.
  - destruct R as [s ->]. reflexivity.
Qed.

(** A bare expression that evaluates leaves its value on the stack. *)
Lemma bare_expression_pushes (e : node) (c : list instr) (m m' : vm)
    (out out' : list num) :
  is_expression e = true -> gen e [] = Ok c ->
  run c m out = (m', out', None) ->
  exists v, denote e (env m) = Ok v /\ stack m' = v :: stack m.
Proof.
  intros He Hc Hr. pose proof (run_expression e He c Hc m out) as R.
  destruct (denote e (env m)) as [v|err].
  - rewrite R in Hr. injection Hr as <- _. eauto.
  - destruct R as [s R]. rewrite R in Hr. discriminate.
Qed.

(** ** Positions do not matter to the tree *)

Lemma move_bind {A B : Type} (g : A -> A) (f : B -> B) (k : nat)
    (r : result A) (K K' : A -> result B) :
  (forall a, K' (g a) = move_result f k (K a)) ->
  bind (move_result g k r) K' = move_result f k (bind r K).
Proof. intros H. destruct r as [a|e]; simpl; auto. Qed.

Lemma skip_ws_move (s : string) :
  forall i k,
    skip_ws s (k + i) = (fst (skip_ws s i), k + snd (skip_ws s i)).
Proof.
  induction s as [|ch rest IH]; intros i k; simpl; [reflexivity|].
  destruct (isspace ch); [|reflexivity].
  rewrite <- IH. f_equal. lia.
Qed.

Lemma number_move (k : nat) (s : string) (start : nat) :
  number s (k + start) =
  move_result (fun r => (move k (fst r), snd r)) k (number s start).
Proof.
  unfold number. destruct (number_loop s false) as [taken left].
  destruct (contains_char "." taken).
  - destruct (float_of_string taken) as [f|[literal| |]]; reflexivity.
  - destruct (int_of_string_cases taken) as [(z & -> & _)|(literal & ->)];
      reflexivity.
Qed.

Lemma ident_move (k : nat) (s : string) (start : nat) :
  ident s (k + start) = (move k (fst (ident s start)), snd (ident s start)).
Proof.
  unfold ident. destruct (ident_loop s) as [taken left].
  destruct (String.eqb taken "print"); reflexivity.
Qed.

Lemma tokens_loop_move n :
  forall (s : string) (i k : nat),
    tokens_loop n s (k + i) = move_result (map (move k)) k (tokens_loop n s i).
Proof.
  induction n as [|n IH]; intros s i k; [reflexivity|].
  cbn [tokens_loop]. destruct s as [|c0 s0]; [reflexivity|].
  rewrite skip_ws_move.
  destruct (skip_ws (String c0 s0) i) as [s1 start]. cbn [fst snd].
  destruct s1 as [|ch rest]; [reflexivity|].
  destruct (isdigit ch).
  - rewrite number_move.
    destruct (number (String ch rest) start) as [[tok left]|e];
      [|reflexivity].
    cbn [move_result bind fst snd]. rewrite <- Nat.add_assoc, IH.
    destruct (tokens_loop n left _); reflexivity.
  - destruct (isalpha ch || Ascii.eqb ch "_").
    + rewrite ident_move.
      destruct (ident (String ch rest) start) as [tok left]. cbn [fst snd].
      rewrite <- Nat.add_assoc, IH.
      destruct (tokens_loop n left _); reflexivity.
    + destruct (single_char ch) as [kind|]; [|reflexivity].
      replace (S (k + start)) with (k + S start) by lia. rewrite IH.
      destruct (tokens_loop n rest _); reflexivity.
Qed.

Lemma at_move (k : nat) (kind : TokenType) (ts : list token) :
  at_ kind (map (move k) ts) = move_result (fun b => b) k (at_ kind ts).
Proof. destruct ts; reflexivity. Qed.

Lemma peek_move (k : nat) (ts : list token) :
  peek (map (move k) ts) = move_result (move k) k (peek ts).
Proof. destruct ts; reflexivity. Qed.

Lemma lookahead_move (k : nat) (ts : list token) :
  lookahead (map (move k) ts) = move_result (move k) k (lookahead ts).
Proof. destruct ts as [|? [|? ?]]; reflexivity. Qed.

Lemma eat_move (k : nat) (kind : TokenType) (ts : list token) :
  eat kind (map (move k) ts) =
  move_result (fun e => (move k (fst e), map (move k) (snd e))) k (eat kind ts).
Proof.
  destruct ts as [|t ts]; [reflexivity|]. unfold eat. simpl.
  destruct (TokenType_eqb (type t) kind); reflexivity.
Qed.

Lemma as_number_move (k : nat) (v : pyval hfloat) :
  as_number v = move_result (fun x => x) k (as_number v).
Proof. destruct v; reflexivity. Qed.

Lemma as_name_move (k : nat) (v : pyval hfloat) :
  as_name v = move_result (fun x => x) k (as_name v).
Proof. destruct v; reflexivity. Qed.

Ltac move_step k :=
  match goal with
  | |- ?x = ?x => reflexivity
  | |- bind (at_ _ (map _ _)) _ = _ => rewrite at_move
  | |- bind (eat _ (map _ _)) _ = _ => rewrite eat_move
  | |- bind (peek (map _ _)) _ = _ => rewrite peek_move
  | |- bind (lookahead (map _ _)) _ = _ => rewrite lookahead_move
  | |- bind (as_number ?v) _ = _ => rewrite (as_number_move k v) at 1
  | |- bind (as_name ?v) _ = _ => rewrite (as_name_move k v) at 1
  | |- bind (move_result _ _ _) _ = move_result _ _ (bind _ _) =>
      apply move_bind; intros ?; cbn [fst snd move type value]
  | |- (if ?b then _ else _) = move_result _ _ (if ?b then _ else _) =>
      destruct b
  | |- _ = move_result _ _ (let (_, _) := ?p in _) =>
      destruct p; cbn [fst snd move_parsed]
  | H : forall ts, ?f (map _ ts) = _ |- bind (?f (map _ _)) _ = _ => rewrite H
  | H : forall nd ts, ?f nd (map _ ts) = _ |- ?f _ (map _ _) = _ => apply H
  | H : forall ts, ?f (map _ ts) = _ |- ?f (map _ _) = _ => apply H
  | |- Ok _ = _ => reflexivity
  | |- Raise _ = _ => reflexivity
  end.

Lemma parser_move n k :
  (forall ts, expr n (map (move k) ts) = move_result (move_parsed k) k (expr n ts)) /\
  (forall nd ts, expr_loop n nd (map (move k) ts) =
                 move_result (move_parsed k) k (expr_loop n nd ts)) /\
  (forall ts, term n (map (move k) ts) = move_result (move_parsed k) k (term n ts)) /\
  (forall nd ts, term_loop n nd (map (move k) ts) =
                 move_result (move_parsed k) k (term_loop n nd ts)) /\
  (forall ts, power n (map (move k) ts) = move_result (move_parsed k) k (power n ts)) /\
  (forall ts, unary n (map (move k) ts) = move_result (move_parsed k) k (unary n ts)) /\
  (forall ts, primary n (map (move k) ts) =
              move_result (move_parsed k) k (primary n ts)).
Proof.
  induction n as [|n (IHe & IHel & IHt & IHtl & IHp & IHu & IHpr)].
  - repeat split; intros; reflexivity.
  - repeat split; intros.
    + rewrite !expr_S. repeat move_step k.
    + rewrite !expr_loop_S. repeat move_step k.
    + rewrite !term_S. repeat move_step k.
    + rewrite !term_loop_S. repeat move_step k.
    + rewrite !power_S. repeat move_step k.
    + rewrite !unary_S. repeat move_step k.
    + rewrite !primary_S. repeat move_step k.
Qed.

Lemma parse_move (k : nat) (ts : list token) :
  parse (map (move k) ts) = move_result (move_parsed k) k (parse ts).
Proof.
  unfold parse. rewrite length_map.
  destruct (parser_move (parse_fuel (List.length ts)) k) as (He & _).
  unfold parse_with. repeat move_step k.
Qed.

(** The tokens of a line behind a plus sign. *)
Lemma tokens_plus (text : string) :
  tokens (String "+" text) =
  (toks <- move_result (map (move 1)) 1 (tokens text) ;;
   Ok (mkToken PLUS (PyStr "+") 0 :: toks)).
Proof.
  unfold tokens. rewrite <- (tokens_loop_move _ text 0 1). reflexivity.
Qed.

(** The tokens of an expression behind a [PLUS] token. *)
Lemma parse_plus (p : token) (ts : list token) (nd : node) (rest : list token) :
  type p = PLUS ->
  parse ts = Ok (nd, rest) -> is_expression nd = true ->
  parse (p :: ts) = Ok (nd, rest).
Proof.
  intros Hp H He. unfold parse in H.
  apply parse_with_expression in H; [|assumption].
  apply (parse_with_enough (S (parse_fuel (List.length ts)))).
  rewrite parse_with_plus by assumption.
  destruct (expr_plus (parse_fuel (List.length ts)) p ts Hp) as [E|E];
    congruence.
Qed.

Lemma parse_line_plus (text : string) (nd : node) :
  parse_line text = Ok nd -> is_expression nd = true ->
  parse_line (String "+" text) = Ok nd.
Proof.
  unfold parse_line. rewrite tokens_plus. intros H He.
  destruct (tokens text) as [toks|]; [|discriminate]. cbn [bind] in H.
  destruct (parse toks) as [[nd' rest]|] eqn:Hparse; [|discriminate].
  injection H as ->. cbn [move_result bind].
  rewrite (parse_plus _ (map (move 1) toks) nd (map (move 1) rest)).
  - reflexivity.
  - reflexivity.
  - rewrite parse_move, Hparse. reflexivity.
  - assumption.
Qed.

Lemma parser_operators_no_unary_plus (n : node) :
  parser_operators n = true -> no_unary_plus n = true.
Proof.
  induction n as [v|name|o l IHl r IHr|o e IHe|name e IHe|e IHe|];
    simpl; intros H; auto.
  - apply andb_true_iff in H as [H Hr]. apply andb_true_iff in H as [_ Hl].
    rewrite IHl, IHr by assumption. reflexivity.
  - apply andb_true_iff in H as [Ho He].
    apply String.eqb_eq in Ho as ->. rewrite IHe by assumption. reflexivity.
Qed.

Lemma statement_operators (s : node) : statement s -> parser_operators s = true.
Proof.
  intros [(e & -> & B)|[(name & e & -> & B)|B]]; apply B.
Qed.

(** What a parsed statement that runs to its end does to the stack and to
    the output: a print statement prints one value and an assignment none,
    and both give the stack back; a bare expression prints nothing and
    leaves its value on the stack. *)
Lemma parsed_statement_effect (ts : list token) (s : node) (rest : list token)
    (c : list instr) (m m' : vm) (out out' : list num) :
  parse ts = Ok (s, rest) -> gen s [] = Ok c ->
  run c m out = (m', out', None) ->
  (exists e v, s = PrintStmt e /\ stack m' = stack m /\ out' = out ++ [v]) \/
  (exists name e, s = Assign name e /\ stack m' = stack m /\ out' = out) \/
  (exists v, is_expression s = true /\ stack m' = v :: stack m /\ out' = out).
Proof.
  intros Hparse Hgen Hrun. unfold parse in Hparse.
  apply parse_with_builds in Hparse
    as [(e & -> & [He _])|[(name & e & -> & [He _])|[He _]]].
  - left. pose proof (run_print e c He Hgen m out) as R.
    destruct (denote e (env m)) as [v|err].
    + rewrite R in Hrun. destruct (printable v); [|discriminate Hrun].
      injection Hrun as <- <-. eauto.
    + destruct R as [st R]. rewrite R in Hrun. discriminate.
  - right. left. pose proof (run_assign name e c He Hgen m out) as R.
    destruct (denote e (env m)) as [v|err].
    + rewrite R in Hrun. injection Hrun as <- <-. eauto.
    + destruct R as [st R]. rewrite R in Hrun. discriminate.
  - right. right. pose proof (run_expression s He c Hgen m out) as R.
    destruct (denote s (env m)) as [v|err].
    + rewrite R in Hrun. injection Hrun as <- <-. eauto.
    + destruct R as [st R]. rewrite R in Hrun. discriminate.
Qed.

(** ** A line ends with nothing but its own errors *)

Lemma ends_eof_cons (t : token) (ts : list token) :
  ends_eof ts = true -> ends_eof (t :: ts) = true.
Proof. destruct ts; [discriminate|]. auto. Qed.

Lemma tokens_loop_ends_eof n :
  forall (s : string) (i : nat) (toks : list token),
    tokens_loop n s i = Ok toks -> ends_eof toks = true.
Proof.
  induction n as [|n IH]; intros s i toks; [discriminate|].
  cbn [tokens_loop]. destruct s as [|c0 s0]; [intros [= <-]; reflexivity|].
  destruct (skip_ws (String c0 s0) i) as [s1 start].
  destruct s1 as [|ch rest]; [intros [= <-]; reflexivity|].
  destruct (isdigit ch).
  - destruct (number (String ch rest) start) as [[tok left]|]; [|discriminate].
    cbn [bind]. destruct (tokens_loop n left _) as [more|] eqn:Hmore;
      [|discriminate].
    intros [= <-]. apply ends_eof_cons. eapply IH. eassumption.
  - destruct (isalpha ch || Ascii.eqb ch "_").
    + destruct (ident (String ch rest) start) as [tok left].
      destruct (tokens_loop n left _) as [more|] eqn:Hmore; [|discriminate].
      intros [= <-]. apply ends_eof_cons. eapply IH. eassumption.
    + destruct (single_char ch) as [kind|]; [|discriminate].
      destruct (tokens_loop n rest _) as [more|] eqn:Hmore; [|discriminate].
      intros [= <-]. apply ends_eof_cons. eapply IH. eassumption.
Qed.

Lemma tokens_lexed (text : string) (toks : list token) :
  tokens text = Ok toks -> lexed toks.
Proof.
  intros H. split.
  - eapply tokens_loop_ends_eof. exact H.
  - eapply tokens_typed. exact H.
Qed.

Lemma number_reported (s : string) (start : nat) (e : exn) :
  number s start = Raise e -> reported e.
Proof.
  unfold number. destruct (number_loop s false) as [taken left].
  destruct (contains_char "." taken).
  - destruct (float_of_string taken) as [f|[literal| |]]; cbn [from_host bind];
      intros [= <-]; exact I.
  - destruct (int_of_string_cases taken) as [(z & -> & _)|(literal & ->)];
      cbn [bind]; [discriminate|].
    intros [= <-]. exact I.
Qed.

Lemma tokens_loop_reported n :
  forall (s : string) (i : nat) (e : exn),
    tokens_loop n s i = Raise e -> reported e \/ e = OutOfFuel.
Proof.
  induction n as [|n IH]; intros s i e; [intros [= <-]; auto|].
  cbn [tokens_loop]. destruct s as [|c0 s0]; [discriminate|].
  destruct (skip_ws (String c0 s0) i) as [s1 start].
  destruct s1 as [|ch rest]; [discriminate|].
  destruct (isdigit ch).
  - destruct (number (String ch rest) start) as [[tok left]|e'] eqn:Hnum.
    + cbn [bind]. destruct (tokens_loop n left _) as [more|e'] eqn:Hmore;
        [discriminate|].
      intros [= <-]. eapply IH. eassumption.
    + intros [= <-]. left. eapply number_reported. eassumption.
  - destruct (isalpha ch || Ascii.eqb ch "_").
    + destruct (ident (String ch rest) start) as [tok left].
      destruct (tokens_loop n left _) as [more|e'] eqn:Hmore; [discriminate|].
      intros [= <-]. eapply IH. eassumption.
    + destruct (single_char ch) as [kind|].
      * destruct (tokens_loop n rest _) as [more|e'] eqn:Hmore;
          [discriminate|].
        intros [= <-]. eapply IH. eassumption.
      * intros [= <-]. left. exact I.
Qed.

Lemma lexed_cons (t : token) (ts : list token) (kind : TokenType) :
  lexed (t :: ts) -> TokenType_eqb (type t) kind = true -> kind <> EOF ->
  lexed ts /\ typed_token t = true.
Proof.
  intros [He Ht] Hk Hne. apply TokenType_eqb_eq in Hk.
  simpl in Ht. apply andb_true_iff in Ht as [Ht Hts].
  destruct ts as [|t1 ts1].
  - simpl in He. apply TokenType_eqb_eq in He. congruence.
  - repeat split; assumption.
Qed.

Lemma good_Ok (nd : node) (ts : list token) : lexed ts -> good (Ok (nd, ts)).
Proof.
  intros L. split; [discriminate|]. intros nd' rest [= <- <-]. exact L.
Qed.

Lemma good_SyntaxError (msg : syntax_msg) : good (Raise (SyntaxError msg)).
Proof.
  split; [|discriminate]. intros e [= <-]. left. eauto.
Qed.

Lemma good_out : good (Raise OutOfFuel).
Proof.
  split; [|discriminate]. intros e [= <-]. right. reflexivity.
Qed.

Lemma good_bind (r : result (node * list token))
    (k : node * list token -> result (node * list token)) :
  good r -> (forall nd rest, lexed rest -> good (k (nd, rest))) ->
  good (bind r k).
Proof.
  intros [Hr Ho] Hk. destruct r as [[nd rest]|e]; cbn [bind].
  - apply Hk. eapply Ho. reflexivity.
  - split; [|discriminate]. intros e' [= <-]. apply Hr. reflexivity.
Qed.

Lemma good_eat (kind : TokenType) (ts : list token)
    (k : token * list token -> result (node * list token)) :
  kind <> EOF -> lexed ts ->
  (forall t rest, ts = t :: rest -> type t = kind -> lexed rest ->
                  good (k (t, rest))) ->
  good (bind (eat kind ts) k).
Proof.
  intros Hne L Hk. destruct ts as [|t ts0]; [destruct L; discriminate|].
  unfold eat. cbn [peek bind tl].
  destruct (TokenType_eqb (type t) kind) eqn:E; simpl.
  - apply Hk; [reflexivity|apply TokenType_eqb_eq; assumption|].
    eapply lexed_cons; eassumption.
  - apply good_SyntaxError.
Qed.

Lemma typed_number (t : token) :
  typed_token t = true -> type t = NUMBER -> exists v, value t = PyNum v.
Proof.
  unfold typed_token. intros H E. rewrite E in H.
  destruct (value t); try discriminate. eauto.
Qed.

Lemma typed_ident (t : token) :
  typed_token t = true -> type t = IDENT -> exists name, value t = PyStr name.
Proof.
  unfold typed_token. intros H E. rewrite E in H.
  destruct (value t); try discriminate. eauto.
Qed.

Ltac good_step :=
  match goal with
  | |- good (Ok _) => apply good_Ok; assumption
  | |- good (Raise (SyntaxError _)) => apply good_SyntaxError
  | |- good (bind (at_ _ (_ :: _)) _) => rewrite at_cons; cbn [bind]
  | |- good (bind (eat _ _) _) =>
      apply good_eat; [discriminate|assumption|intros ? ? ? ? ?; cbn [snd]]
  | |- good (if ?b then _ else _) => destruct b eqn:?
  | |- good (bind _ _) => apply good_bind; [|intros ? ? ?]
  | H : forall ts, lexed ts -> good (?f ts) |- good (?f _) => apply H; assumption
  | H : forall nd ts, lexed ts -> good (?f nd ts) |- good (?f _ _) =>
      apply H; assumption
  end.

Lemma parser_good n :
  (forall ts, lexed ts -> good (expr n ts)) /\
  (forall nd ts, lexed ts -> good (expr_loop n nd ts)) /\
  (forall ts, lexed ts -> good (term n ts)) /\
  (forall nd ts, lexed ts -> good (term_loop n nd ts)) /\
  (forall ts, lexed ts -> good (power n ts)) /\
  (forall ts, lexed ts -> good (unary n ts)) /\
  (forall ts, lexed ts -> good (primary n ts)).
Proof.
  induction n as [|n (IHe & IHel & IHt & IHtl & IHp & IHu & IHpr)].
  - split; [|split; [|split; [|split; [|split; [|split]]]]];
      intros; apply good_out.
  - split; [|split; [|split; [|split; [|split; [|split]]]]].
    + intros ts L. rewrite expr_S. repeat good_step.
    + intros nd ts L. rewrite expr_loop_S.
      destruct ts as [|t ts0]; [destruct L; discriminate|]. repeat good_step.
    + intros ts L. rewrite term_S. repeat good_step.
    + intros nd ts L. rewrite term_loop_S.
      destruct ts as [|t ts0]; [destruct L; discriminate|]. repeat good_step.
    + intros ts L. rewrite power_S. apply good_bind; [auto|].
      intros nd ts1 L1.
      destruct ts1 as [|t ts0]; [destruct L1; discriminate|]. repeat good_step.
    + intros ts L. rewrite unary_S.
      destruct ts as [|t ts0]; [destruct L; discriminate|]. repeat good_step.
    + intros ts L. rewrite primary_S.
      destruct ts as [|t ts0]; [destruct L; discriminate|]. cbn [peek bind].
      destruct (TokenType_eqb (type t) NUMBER) eqn:EN;
        [|destruct (TokenType_eqb (type t) IDENT) eqn:EI;
          [|destruct (TokenType_eqb (type t) LPAREN) eqn:EL]].
      * destruct (lexed_cons t ts0 NUMBER L EN) as [L0 Ht]; [discriminate|].
        apply TokenType_eqb_eq in EN.
        destruct (typed_number t Ht EN) as [v ->].
        rewrite eat_cons by assumption. cbn [bind as_number snd].
        apply good_Ok. assumption.
      * destruct (lexed_cons t ts0 IDENT L EI) as [L0 Ht]; [discriminate|].
        apply TokenType_eqb_eq in EI.
        destruct (typed_ident t Ht EI) as [name ->].
        rewrite eat_cons by assumption. cbn [bind as_name snd].
        apply good_Ok. assumption.
      * repeat good_step.
      * apply good_SyntaxError.
Qed.

Lemma parse_with_good n (ts : list token) : lexed ts -> good (parse_with n ts).
Proof.
  destruct (parser_good n) as (He & _).
  intros L. unfold parse_with.
  destruct ts as [|t ts0]; [destruct L; discriminate|].
  rewrite at_cons. cbn [bind].
  destruct (TokenType_eqb (type t) PRINT) eqn:EP.
  - apply good_eat; [discriminate|assumption|]. intros t' rest [= <- <-] _ L0.
    cbn [snd]. destruct ts0 as [|t2 ts1]; [destruct L0; discriminate|].
    repeat good_step.
  - rewrite at_cons. cbn [bind].
    destruct (TokenType_eqb (type t) IDENT) eqn:EI; [|auto].
    destruct (lexed_cons t ts0 IDENT L EI) as [L0 Ht]; [discriminate|].
    pose proof (proj1 (TokenType_eqb_eq _ _) EI) as HI.
    destruct (typed_ident t Ht HI) as [name Hname].
    destruct ts0 as [|next ts1]; [destruct L0; discriminate|].
    cbn [peek lookahead bind].
    destruct (TokenType_eqb (type next) ASSIGN) eqn:EA; [|auto].
    rewrite eat_cons by assumption. cbn [bind snd].
    apply good_eat; [discriminate|assumption|]. intros t' rest [= <- <-] _ L1.
    cbn [snd]. apply good_bind; [auto|]. intros inner ts2 L2.
    rewrite Hname. cbn [as_name bind]. apply good_Ok. assumption.
Qed.

(** On the tokens of a line the parser raises nothing but a
    [SyntaxError]. *)
Lemma parse_lexed (ts : list token) (e : exn) :
  lexed ts -> parse ts = Raise e -> exists msg, e = SyntaxError msg.
Proof.
  intros L H. destruct (parse_with_good (parse_fuel (List.length ts)) ts L)
    as [Hr _].
  destruct (Hr e H) as [Hs| ->]; [assumption|].
  exfalso. exact (parse_never_OutOfFuel ts H).
Qed.

Lemma from_host_reported {A : Type} (r : host_result A) (e : exn) :
  from_host r = Raise e -> reported e.
Proof.
  destruct r as [a|[literal| |]]; simpl; [discriminate| | |];
    intros [= <-]; exact I.
Qed.

Lemma denote_binary_reported (o : string) f (a b : num) (e : exn) :
  denote_binary o = Some f -> f a b = Raise e -> reported e.
Proof.
  assert (Hh : forall (r : host_result hfloat),
             (f <- from_host r ;; Ok (PyFloat f)) = Raise e -> reported e).
  { intros r. destruct (from_host r) eqn:E; [discriminate|].
    intros [= <-]. eapply from_host_reported. eassumption. }
  unfold denote_binary.
  repeat match goal with
         | |- (if ?c then _ else _) = _ -> _ => destruct c
         end; intros [= <-]; try discriminate;
    unfold py_add, py_sub, py_mul, py_truediv, py_pow;
    destruct a as [x|fa], b as [y|fb]; try discriminate; try apply Hh.
  - destruct (y =? 0)%Z; [intros [= <-]; exact I|apply Hh].
  - destruct (0 <=? y)%Z; [discriminate|].
    destruct (x =? 0)%Z; [intros [= <-]; exact I|apply Hh].
Qed.

(** An expression the grammar builds raises only for an unbound variable
    or in its arithmetic. *)
Lemma denote_reported (e : node) (vars : gmap string num) (err : exn) :
  built e -> denote e vars = Raise err -> reported err.
Proof.
  unfold built. revert err.
  induction e as [v|name|o l IHl r IHr|o e IHe|name e IHe|e IHe|];
    simpl; intros err [He Hp]; try discriminate.
  - destruct (vars !! name); [discriminate|]. intros [= <-]. exact I.
  - apply andb_true_iff in He as [El Er].
    apply andb_true_iff in Hp as [Hp Pr].
    apply andb_true_iff in Hp as [Ho Pl].
    destruct (denote l vars) as [a|e1] eqn:Dl; cbn [bind];
      [|intros [= <-]; apply IHl; auto].
    destruct (denote r vars) as [b|e2] eqn:Dr; cbn [bind];
      [|intros [= <-]; apply IHr; auto].
    destruct (denote_binary o) as [f|] eqn:Df.
    + apply denote_binary_reported with (o := o); assumption.
    + exfalso. revert Df Ho. unfold denote_binary.
      repeat match goal with
             | |- context [String.eqb o ?x] => destruct (String.eqb o x)
             end; simpl; congruence.
  - apply andb_true_iff in Hp as [Ho Pe]. rewrite Ho.
    destruct (denote e vars) as [a|e1] eqn:De; cbn [bind]; [discriminate|].
    intros [= <-]. apply IHe; auto.
Qed.

(** The bytecode of a parsed statement raises only what its expression
    raises. *)
Lemma run_statement_reported (s : node) (c : list instr) (m m' : vm)
    (out out' : list num) (err : exn) :
  statement s -> gen s [] = Ok c ->
  run c m out = (m', out', Some err) -> reported err.
Proof.
  intros [(e & -> & B)|[(name & e & -> & B)|B]] Hgen Hrun.
  - pose proof (run_print e c (proj1 B) Hgen m out) as R.
    destruct (denote e (env m)) as [v|err'] eqn:D.
    + rewrite R in Hrun. destruct (printable v); [discriminate|].
      injection Hrun as _ _ <-. exact I.
    + destruct R as [st R]. rewrite R in Hrun. injection Hrun as _ _ <-.
      eapply denote_reported; eassumption.
  - pose proof (run_assign name e c (proj1 B) Hgen m out) as R.
    destruct (denote e (env m)) as [v|err'] eqn:D.
    + rewrite R in Hrun. discriminate.
    + destruct R as [st R]. rewrite R in Hrun. injection Hrun as _ _ <-.
      eapply denote_reported; eassumption.
  - pose proof (run_expression s (proj1 B) c Hgen m out) as R.
    destruct (denote s (env m)) as [v|err'] eqn:D.
    + rewrite R in Hrun. discriminate.
    + destruct R as [st R]. rewrite R in Hrun. injection Hrun as _ _ <-.
      eapply denote_reported; eassumption.
Qed.

(** Whatever the line, [compile_and_run] ends with no exception or with
    one of the text, of a variable or of the arithmetic: the errors that
    would show a fault of the pipeline itself (an empty stack, an unknown
    instruction or operator, a payload of the wrong type, the end of a
    budget) are never raised. *)
Theorem compile_and_run_reported (line : string) (m m' : vm)
    (out out' : list num) (err : exn) :
  compile_and_run line m out = (m', out', Some err) -> reported err.
Proof.
  unfold compile_and_run, compile, parse_line.
  destruct (tokens line) as [toks|e] eqn:Ht; cbn [bind].
  - apply tokens_lexed in Ht.
    destruct (parse toks) as [[s rest]|e] eqn:Hp; cbn [bind fst].
    + unfold parse in Hp. apply parse_with_builds in Hp.
      destruct (gen_statement s Hp) as [c Hc]. rewrite Hc.
      apply (run_statement_reported s c m m' out out' err Hp Hc).
    + intros [= _ _ <-]. destruct (parse_lexed toks e Ht Hp) as [msg ->].
      exact I.
  - intros [= _ _ <-].
    destruct (tokens_loop_reported _ _ _ _ Ht) as [H| ->]; [assumption|].
    exfalso. exact (tokens_never_OutOfFuel line Ht).
Qed.

(** ** The lines [print E] and [x = E] *)

Lemma tokens_loop_monotone n :
  forall m (s : string) (i : nat),
    n <= m -> below (tokens_loop n s i) (tokens_loop m s i).
Proof.
  induction n as [|n IH]; intros m s i Hle; [apply below_out|].
  destruct m as [|m]; [lia|]. apply le_S_n in Hle.
  cbn [tokens_loop]. destruct s as [|c0 s0]; [apply below_refl|].
  destruct (skip_ws (String c0 s0) i) as [s1 start].
  destruct s1 as [|ch rest]; [apply below_refl|].
  destruct (isdigit ch).
  - apply below_bind; [apply below_refl|]. intros [tok left].
    apply below_bind; [apply IH; assumption|]. intros toks. apply below_refl.
  - destruct (isalpha ch || Ascii.eqb ch "_").
    + destruct (ident (String ch rest) start) as [tok left].
      apply below_bind; [apply IH; assumption|]. intros toks. apply below_refl.
    + destruct (single_char ch) as [kind|]; [|apply below_refl].
      apply below_bind; [apply IH; assumption|]. intros toks. apply below_refl.
Qed.

Lemma tokens_loop_enough n (s : string) (i : nat) :
  String.length s < n ->
  tokens_loop n s i = tokens_loop (S (String.length s)) s i.
Proof.
  intros Hn.
  destruct (tokens_loop_monotone (S (String.length s)) n s i Hn) as [E|E];
    [|congruence].
  exfalso. revert E. apply tokens_loop_fine. lia.
Qed.

(** The tokens of a text that starts at offset [i] of its line. *)
Lemma tokens_loop_at n (s : string) (i : nat) :
  String.length s < n ->
  tokens_loop n s i = move_result (map (move i)) i (tokens s).
Proof.
  intros Hn. rewrite (tokens_loop_enough n s i Hn).
  unfold tokens. rewrite <- tokens_loop_move. f_equal. lia.
Qed.

Lemma tokens_loop_space n (s : string) (i : nat) :
  tokens_loop (S n) (String " " s) i = tokens_loop (S n) s (S i).
Proof.
  cbn [tokens_loop]. change (skip_ws (String " " s) i) with (skip_ws s (S i)).
  destruct s as [|c0 s0]; reflexivity.
Qed.

Lemma tokens_loop_ident n (ch : ascii) (rest : string) (i : nat) :
  isspace ch = false -> isdigit ch = false ->
  isalpha ch || Ascii.eqb ch "_" = true ->
  tokens_loop (S n) (String ch rest) i =
  (toks <- tokens_loop n (snd (ident (String ch rest) i))
             (i + (String.length (String ch rest)
                   - String.length (snd (ident (String ch rest) i)))) ;;
   Ok (fst (ident (String ch rest) i) :: toks)).
Proof.
  intros Hs Hd Ha. cbn [tokens_loop skip_ws]. rewrite Hs, Hd, Ha.
  destruct (ident (String ch rest) i). reflexivity.
Qed.

Lemma tokens_loop_single n (ch : ascii) (rest : string) (i : nat) kind :
  isspace ch = false -> isdigit ch = false ->
  isalpha ch || Ascii.eqb ch "_" = false -> single_char ch = Some kind ->
  tokens_loop (S n) (String ch rest) i =
  (toks <- tokens_loop n rest (S i) ;;
   Ok (mkToken kind (PyStr (String ch EmptyString)) i :: toks)).
Proof.
  intros Hs Hd Ha Hk. cbn [tokens_loop skip_ws]. rewrite Hs, Hd, Ha, Hk.
  reflexivity.
Qed.

Lemma tokens_print (E : string) :
  tokens (String.append "print " E) =
  (toks <- move_result (map (move 6)) 6 (tokens E) ;;
   Ok (mkToken PRINT (PyStr "print") 0 :: toks)).
Proof.
  unfold tokens at 1.
  change (String.append "print " E)
    with (String "p" (String "r" (String "i" (String "n" (String "t"
            (String " " E)))))).
  rewrite tokens_loop_ident by reflexivity.
  change (ident (String "p" (String "r" (String "i" (String "n" (String "t"
            (String " " E)))))) 0)
    with (mkToken PRINT (PyStr "print") 0 : token, String " " E).
  cbn [fst snd String.length].
  replace (0 + (S (S (S (S (S (S (String.length E)))))) - S (String.length E)))
    with 5 by lia.
  rewrite tokens_loop_space, tokens_loop_at by lia. reflexivity.
Qed.

Lemma tokens_assign_x (E : string) :
  tokens (String.append "x = " E) =
  (toks <- move_result (map (move 4)) 4 (tokens E) ;;
   Ok (mkToken IDENT (PyStr "x") 0 :: mkToken ASSIGN (PyStr "=") 2 :: toks)).
Proof.
  unfold tokens at 1.
  change (String.append "x = " E)
    with (String "x" (String " " (String "=" (String " " E)))).
  rewrite tokens_loop_ident by reflexivity.
  change (ident (String "x" (String " " (String "=" (String " " E)))) 0)
    with (mkToken IDENT (PyStr "x") 0 : token,
          String " " (String "=" (String " " E))).
  cbn [fst snd String.length].
  replace (0 + (S (S (S (S (String.length E)))) - S (S (S (String.length E)))))
    with 1 by lia.
  rewrite tokens_loop_space.
  rewrite (tokens_loop_single _ _ _ _ ASSIGN) by reflexivity.
  rewrite tokens_loop_space, tokens_loop_at by lia.
  destruct (tokens E); reflexivity.
Qed.

(** The tokens of an expression that does not open with a parenthesis,
    behind [PRINT]. *)
Lemma parse_print (p t : token) (ts : list token) (e : node) (rest : list token) :
  type p = PRINT -> type t <> LPAREN ->
  parse (t :: ts) = Ok (e, rest) -> is_expression e = true ->
  parse (p :: t :: ts) = Ok (PrintStmt e, rest).
Proof.
  intros Hp Ht H He. unfold parse in H.
  apply parse_with_expression in H; [|assumption].
  eapply parse_with_enough. unfold parse_with.
  rewrite at_cons, Hp. cbn [TokenType_eqb bind].
  rewrite eat_cons by assumption. cbn [bind snd]. rewrite at_cons.
  destruct (TokenType_eqb (type t) LPAREN) eqn:E;
    [apply TokenType_eqb_eq in E; contradiction|].
  cbn [bind]. rewrite H. reflexivity.
Qed.

(** The tokens of an expression behind an identifier and [=]. *)
Lemma parse_assign (i a : token) (name : string) (ts : list token)
    (e : node) (rest : list token) :
  type i = IDENT -> value i = PyStr name -> type a = ASSIGN ->
  parse ts = Ok (e, rest) -> is_expression e = true ->
  parse (i :: a :: ts) = Ok (Assign name e, rest).
Proof.
  intros Hi Hv Ha H He. unfold parse in H.
  apply parse_with_expression in H; [|assumption].
  eapply parse_with_enough. unfold parse_with.
  rewrite at_cons, Hi. cbn [TokenType_eqb bind].
  rewrite at_cons, Hi. cbn [TokenType_eqb bind peek lookahead].
  rewrite Ha. cbn [TokenType_eqb].
  rewrite eat_cons by assumption. cbn [bind snd].
  rewrite eat_cons by assumption. cbn [bind snd].
  rewrite H. cbn [bind]. rewrite Hv. reflexivity.
Qed.

Lemma parse_line_print (E : string) (e : node) :
  opens_without_parenthesis E ->
  parse_line E = Ok e -> is_expression e = true ->
  parse_line (String.append "print " E) = Ok (PrintStmt e).
Proof.
  intros (t & toks & Ht & Hne). unfold parse_line.
  rewrite tokens_print, Ht. cbn [move_result bind map].
  destruct (parse (t :: toks)) as [[e' rest]|] eqn:Hp; [|discriminate].
  cbn [bind fst]. intros [= ->] He.
  rewrite (parse_print _ (move 6 t) (map (move 6) toks) e
             (map (move 6) rest)); auto.
  change (move 6 t :: map (move 6) toks) with (map (move 6) (t :: toks)).
  rewrite parse_move, Hp. reflexivity.
Qed.

Lemma parse_line_assign_x (E : string) (e : node) :
  parse_line E = Ok e -> is_expression e = true ->
  parse_line (String.append "x = " E) = Ok (Assign "x" e).
Proof.
  unfold parse_line. rewrite tokens_assign_x.
  destruct (tokens E) as [toks|]; [|discriminate]. cbn [move_result bind].
  destruct (parse toks) as [[e' rest]|] eqn:Hp; [|discriminate].
  cbn [bind fst]. intros [= ->] He.
  rewrite (parse_assign _ _ "x" (map (move 4) toks) e (map (move 4) rest));
    auto.
  rewrite parse_move, Hp. reflexivity.
Qed.

(** X29: the round trip on lines.  If the text [E] is an expression that
    does not open with a parenthesis, the line [print E] prints a value
    and changes nothing exactly when [x = E] binds [x] and [print x] then
    prints that value. *)
Theorem roundtrip_without_leading_parenthesis (E : string) (e : node)
    (m : vm) (out : list num) (v : num) :
  opens_without_parenthesis E ->
  parse_line E = Ok e -> is_expression e = true ->
  (compile_and_run (String.append "print " E) m out = (m, out ++ [v], None) <->
   exists m1,
     compile_and_run (String.append "x = " E) m out = (m1, out, None) /\
     compile_and_run "print x" m1 out = (m1, out ++ [v], None)).
Proof.
  intros Hopen Hparse He.
  assert (B : exists c, gen e [] = Ok c).
  { revert Hparse. unfold parse_line.
    destruct (tokens E) as [toks|]; [|discriminate]. cbn [bind].
    destruct (parse toks) as [[e' rest]|] eqn:Hp; [|discriminate].
    cbn [bind fst]. intros [= ->]. unfold parse in Hp.
    apply parse_with_builds in Hp. apply gen_statement. assumption. }
  destruct B as [c Hc].
  assert (G1 : gen (Assign "x" e) [] = Ok (c ++ [mkInstr "STORE" (PyStr "x")]))
    by (simpl; rewrite Hc; reflexivity).
  assert (G3 : gen (PrintStmt e) [] = Ok (c ++ [mkInstr "PRINT" PyNone]))
    by (simpl; rewrite Hc; reflexivity).
  assert (R2 : forall m1 : vm,
             compile_and_run "print x" m1 out =
             match env m1 !! "x" with
             | Some w =>
                 if printable w then (m1, out ++ [w], None)
                 else (m1, out, Some (ValueError digit_limit))
             | None => (m1, out, Some (NameError "x"))
             end).
  { intros m1.
    pose proof (run_print (Var "x") _ eq_refl eq_refl m1 out) as R.
    cbn [denote] in R. destruct (env m1 !! "x") as [w|] eqn:L; [exact R|].
    unfold compile_and_run.
    change (compile "print x")
      with (Ok [mkInstr "LOAD" (PyStr "x") : instr; mkInstr "PRINT" PyNone]).
    cbn [run]. unfold exec at 1. cbn [op arg String.eqb Ascii.eqb Bool.eqb].
    rewrite L. reflexivity. }
  unfold compile_and_run at 1 2, compile.
  rewrite (parse_line_print E e Hopen Hparse He),
    (parse_line_assign_x E e Hparse He). cbn [bind]. rewrite G1, G3.
  pose proof (run_print e _ He G3 m out) as R3.
  pose proof (run_assign "x" e _ He G1 m out) as R1.
  destruct (denote e (env m)) as [v0|err].
  - rewrite R3, R1. split.
    + destruct (printable v0) eqn:P; [|discriminate].
      intros [= H]. apply app_inv_head in H. injection H as ->.
      eexists. split; [reflexivity|].
      rewrite R2. cbn [env]. rewrite lookup_insert_eq, P. reflexivity.
    + intros (m1 & [= <-] & H2). rewrite R2 in H2. cbn [env] in H2.
      rewrite lookup_insert_eq in H2.
      destruct (printable v0); [|discriminate H2].
      injection H2 as H2. apply app_inv_head in H2. injection H2 as ->.
      reflexivity.
  - destruct R3 as [s3 R3]. destruct R1 as [s1 R1]. rewrite R3, R1. split.
    + discriminate.
    + intros (m1 & H1 & _). discriminate H1.
Qed.

(** * The pipeline on whole lines *)

(** C1: the line [3+4] is a bare expression.  Its bytecode is the code of
    the expression alone, with no [PRINT] behind it, and running it prints
    nothing: the 7 stays on the operand stack.  The branch of [gen] that
    would append [PRINT] is not reached, because the node is a [BinOp]. *)
Theorem C1_bare_expression_prints_nothing :
  compile "3+4" =
    Ok [mkInstr "PUSH" (PyNum (PyInt 3)); mkInstr "PUSH" (PyNum (PyInt 4));
        mkInstr "ADD" PyNone] /\
  compile_and_run "3+4" new_vm [] = (mkVM [PyInt 7] ∅, [], None).
Proof. split; reflexivity. Qed.

(** C2: the line [3+4] lexes, parses, generates code and executes without
    error on a new machine, and the operand stack then holds one value
    instead of being empty. *)
Theorem C2_bare_expression_leaves_a_value :
  exists (code : list instr) (m : vm) (out : list num),
    compile "3+4" = Ok code /\
    run code new_vm [] = (m, out, None) /\
    stack m = [PyInt 7].
Proof.
  eexists _, _, _. split; [reflexivity|]. split; reflexivity.
Qed.

(** C3, amended: a leading minus binds tighter than the power operator.
    The line [-2^2] parses as the power of (the negation of 2) by 2, and
    [print -2^2] prints 4.  So it is for any two numbers: the tokens of
    [- a ^ b] parse as the power of (the negation of [a]) by [b], and
    printing that tree prints [(-a) ** b], or raises the [ValueError] of
    [str] when that is an [int] of more than 4300 digits. *)
Theorem C3_unary_minus_binds_tighter_than_power :
  parse_line "-2^2" =
    Ok (BinOp "^" (UnaryOp "-" (Num (PyInt 2))) (Num (PyInt 2))) /\
  compile_and_run "print -2^2" new_vm [] = (new_vm, [PyInt 4], None) /\
  (forall (a b : num) (i j k l z : nat),
      parse [mkToken MINUS (PyStr "-") i; mkToken NUMBER (PyNum a) j;
             mkToken POW (PyStr "^") k; mkToken NUMBER (PyNum b) l;
             mkToken EOF PyNone z] =
      Ok (BinOp "^" (UnaryOp "-" (Num a)) (Num b), [mkToken EOF PyNone z])) /\
  (forall (a b : num) (m : vm) (out : list num),
      exists c,
        gen (PrintStmt (BinOp "^" (UnaryOp "-" (Num a)) (Num b))) [] = Ok c /\
        run c m out =
        match py_pow (py_neg a) b with
        | Ok v =>
            if printable v then (m, out ++ [v], None)
            else (m, out, Some (ValueError digit_limit))
        | Raise e => (m, out, Some e)
        end).
Proof.
  split; [reflexivity|]. split; [reflexivity|]. split.
  - intros. reflexivity.
  - intros a b [s vars] out. eexists. split; [reflexivity|].
    unfold run, exec, binary, set_stack. simpl.
    destruct (py_pow (py_neg a) b) as [v|e]; [|reflexivity].
    simpl. destruct (printable v); reflexivity.
Qed.

(** C4: [print 2+3*4] prints 14 and [print 2^3^2] prints 512, but
    [print (2+3)*4] prints 5: the parenthesis after [print] is taken for
    the optional one of the print statement, which ends at its closing
    parenthesis, and the [*4] behind it is never read. *)
Theorem C4_precedence_examples :
  compile_and_run "print 2+3*4" new_vm [] = (new_vm, [PyInt 14], None) /\
  compile_and_run "print 2^3^2" new_vm [] = (new_vm, [PyInt 512], None) /\
  compile_and_run "print (2+3)*4" new_vm [] = (new_vm, [PyInt 5], None) /\
  (toks <- tokens "print (2+3)*4" ;; parse toks) =
    Ok (PrintStmt (BinOp "+" (Num (PyInt 2)) (Num (PyInt 3))),
        [mkToken MUL (PyStr "*") 11; mkToken NUMBER (PyNum (PyInt 4)) 12;
         mkToken EOF PyNone 13]).
Proof. repeat split; reflexivity. Qed.

(** C5: the code of a binary node is the code of its left operand, then
    the code of its right operand, then the opcode of its operator; the
    opcode pops the right operand [b] first and the left operand [a]
    second and pushes [a o b], for every pair of values: the exact result
    for two [int]s, the host's operation on [a] and [b], in this order,
    when one of them is not an [int].  So the statement [print a o b]
    prints [a o b], operands in source order, unless [str] refuses the
    result.  In particular [SUB] computes left minus right and [DIV] left
    divided by right, on integers and on the numbers of the host, and
    [print 7-3] prints 4. *)
Theorem C5_binary_operands_in_source_order :
  Forall
    (fun entry : string * string * arith =>
       let '(o, opcode, op) := entry in
       (forall l r : node,
           gen (BinOp o l r) [] =
           (cl <- gen l [] ;; cr <- gen r [] ;;
            Ok (cl ++ cr ++ [mkInstr opcode PyNone]))) /\
       (forall (a b : num) (s : list num) vars (out : list num),
           run [mkInstr opcode PyNone] (mkVM (b :: a :: s) vars) out =
           match left_op_right op a b with
           | Ok v => (mkVM (v :: s) vars, out, None)
           | Raise e => (mkVM s vars, out, Some e)
           end) /\
       (forall (f : hfloat) (b : num) (s : list num) vars (out : list num),
           run [mkInstr opcode PyNone] (mkVM (b :: PyFloat f :: s) vars) out =
           match from_host (float_arith op (PyFloat f) b) with
           | Ok r => (mkVM (PyFloat r :: s) vars, out, None)
           | Raise e => (mkVM s vars, out, Some e)
           end) /\
       (forall (a : num) (f : hfloat) (s : list num) vars (out : list num),
           run [mkInstr opcode PyNone] (mkVM (PyFloat f :: a :: s) vars) out =
           match from_host (float_arith op a (PyFloat f)) with
           | Ok r => (mkVM (PyFloat r :: s) vars, out, None)
           | Raise e => (mkVM s vars, out, Some e)
           end) /\
       (forall (a b : num) (m : vm) (out : list num),
           exists c,
             gen (PrintStmt (BinOp o (Num a) (Num b))) [] = Ok c /\
             run c m out =
             match left_op_right op a b with
             | Ok v =>
                 if printable v then (m, out ++ [v], None)
                 else (m, out, Some (ValueError digit_limit))
             | Raise e => (m, out, Some e)
             end))
    [("+", "ADD", Add); ("-", "SUB", Sub); ("*", "MUL", Mul);
     ("/", "DIV", Div); ("^", "POW", Pow)] /\
  (forall (x y : Z) (s : list num) vars (out : list num),
      run [mkInstr "SUB" PyNone] (mkVM (PyInt y :: PyInt x :: s) vars) out =
      (mkVM (PyInt (x - y) :: s) vars, out, None)) /\
  (forall (x y : Z) (s : list num) vars (out : list num),
      run [mkInstr "DIV" PyNone] (mkVM (PyInt y :: PyInt x :: s) vars) out =
      if (y =? 0)%Z then (mkVM s vars, out, Some ZeroDivisionError)
      else
        match from_host (int_truediv x y) with
        | Ok r => (mkVM (PyFloat r :: s) vars, out, None)
        | Raise e => (mkVM s vars, out, Some e)
        end) /\
  compile_and_run "print 7-3" new_vm [] = (new_vm, [PyInt 4], None).
Proof.
  assert (Order : forall (o : string) (l r : node) (opcode : string),
             (forall code2 : list instr,
                 (if String.eqb o "+" then Ok (emit "ADD" PyNone code2)
                  else if String.eqb o "-" then Ok (emit "SUB" PyNone code2)
                  else if String.eqb o "*" then Ok (emit "MUL" PyNone code2)
                  else if String.eqb o "/" then Ok (emit "DIV" PyNone code2)
                  else if String.eqb o "^" then Ok (emit "POW" PyNone code2)
                  else Raise (NotImplementedError ("BinOp " ++ o))) =
                 Ok (code2 ++ [mkInstr opcode PyNone])) ->
             gen (BinOp o l r) [] =
             (cl <- gen l [] ;; cr <- gen r [] ;;
              Ok (cl ++ cr ++ [mkInstr opcode PyNone]))).
  { intros o l r opcode H. cbn [gen].
    destruct (gen l []) as [cl|]; [|reflexivity]. cbn [bind].
    rewrite gen_appends. destruct (gen r []) as [cr|]; [|reflexivity].
    cbn [bind]. rewrite H, <- app_assoc. reflexivity. }
  assert (Pops : forall (opcode : string) (op : arith)
                        (f : num -> num -> result num),
             (forall (m : vm) (out : list num),
                 exec (mkInstr opcode PyNone) m out = binary f m out) ->
             (forall a b, f a b = left_op_right op a b) ->
             forall (a b : num) (s : list num) vars (out : list num),
               run [mkInstr opcode PyNone] (mkVM (b :: a :: s) vars) out =
               match left_op_right op a b with
               | Ok v => (mkVM (v :: s) vars, out, None)
               | Raise e => (mkVM s vars, out, Some e)
               end).
  { intros opcode op f He Hf a b s vars out.
    rewrite run_one, He. unfold binary, set_stack. cbn [stack env].
    rewrite Hf. destruct (left_op_right op a b); reflexivity. }
  assert (Prints : forall (o opcode : string) (op : arith),
             (forall l r : node,
                 gen (BinOp o l r) [] =
                 (cl <- gen l [] ;; cr <- gen r [] ;;
                  Ok (cl ++ cr ++ [mkInstr opcode PyNone]))) ->
             (forall (a b : num) (s : list num) vars (out : list num),
                 run [mkInstr opcode PyNone] (mkVM (b :: a :: s) vars) out =
                 match left_op_right op a b with
                 | Ok v => (mkVM (v :: s) vars, out, None)
                 | Raise e => (mkVM s vars, out, Some e)
                 end) ->
             forall (a b : num) (m : vm) (out : list num),
             exists c,
               gen (PrintStmt (BinOp o (Num a) (Num b))) [] = Ok c /\
               run c m out =
               match left_op_right op a b with
               | Ok v =>
                   if printable v then (m, out ++ [v], None)
                   else (m, out, Some (ValueError digit_limit))
               | Raise e => (m, out, Some e)
               end).
  { intros o opcode op Hg Hr a b [s vars] out. eexists.
    change (gen (PrintStmt (BinOp o (Num a) (Num b))) [])
      with (code1 <- gen (BinOp o (Num a) (Num b)) [] ;;
            Ok (emit "PRINT" PyNone code1)).
    rewrite Hg. cbn [gen emit app bind]. split; [reflexivity|].
    change [mkInstr "PUSH" (PyNum a); mkInstr "PUSH" (PyNum b);
            mkInstr opcode PyNone; mkInstr "PRINT" PyNone]
      with ([mkInstr "PUSH" (PyNum a) : instr; mkInstr "PUSH" (PyNum b)]
            ++ [mkInstr opcode PyNone] ++ [mkInstr "PRINT" PyNone]).
    rewrite run_app.
    change (run [mkInstr "PUSH" (PyNum a) : instr; mkInstr "PUSH" (PyNum b)]
              (mkVM s vars) out)
      with (mkVM (b :: a :: s) vars, out, @None exn).
    cbn iota. rewrite run_app, Hr.
    destruct (left_op_right op a b) as [v|e]; [|reflexivity].
    rewrite run_one.
    change (mkVM (v :: s) vars) with (set_stack (mkVM s vars) (v :: s)).
    rewrite exec_print. reflexivity. }
  assert (Left : forall (opcode : string) (op : arith),
             (forall (a b : num) (s : list num) vars (out : list num),
                 run [mkInstr opcode PyNone] (mkVM (b :: a :: s) vars) out =
                 match left_op_right op a b with
                 | Ok v => (mkVM (v :: s) vars, out, None)
                 | Raise e => (mkVM s vars, out, Some e)
                 end) ->
             forall (f : hfloat) (b : num) (s : list num) vars (out : list num),
               run [mkInstr opcode PyNone] (mkVM (b :: PyFloat f :: s) vars) out =
               match from_host (float_arith op (PyFloat f) b) with
               | Ok r => (mkVM (PyFloat r :: s) vars, out, None)
               | Raise e => (mkVM s vars, out, Some e)
               end).
  { intros opcode op Hr f b s vars out. rewrite Hr. cbn [left_op_right].
    destruct (from_host (float_arith op (PyFloat f) b)); reflexivity. }
  assert (Right : forall (opcode : string) (op : arith),
             (forall (a b : num) (s : list num) vars (out : list num),
                 run [mkInstr opcode PyNone] (mkVM (b :: a :: s) vars) out =
                 match left_op_right op a b with
                 | Ok v => (mkVM (v :: s) vars, out, None)
                 | Raise e => (mkVM s vars, out, Some e)
                 end) ->
             forall (a : num) (f : hfloat) (s : list num) vars (out : list num),
               run [mkInstr opcode PyNone] (mkVM (PyFloat f :: a :: s) vars) out =
               match from_host (float_arith op a (PyFloat f)) with
               | Ok r => (mkVM (PyFloat r :: s) vars, out, None)
               | Raise e => (mkVM s vars, out, Some e)
               end).
  { intros opcode op Hr a f s vars out. rewrite Hr.
    destruct a as [x|g]; cbn [left_op_right];
      destruct (from_host (float_arith op _ (PyFloat f))); reflexivity. }
  assert (Entry : forall (o opcode : string) (op : arith)
                         (f : num -> num -> result num),
             (forall code2 : list instr,
                 (if String.eqb o "+" then Ok (emit "ADD" PyNone code2)
                  else if String.eqb o "-" then Ok (emit "SUB" PyNone code2)
                  else if String.eqb o "*" then Ok (emit "MUL" PyNone code2)
                  else if String.eqb o "/" then Ok (emit "DIV" PyNone code2)
                  else if String.eqb o "^" then Ok (emit "POW" PyNone code2)
                  else Raise (NotImplementedError ("BinOp " ++ o))) =
                 Ok (code2 ++ [mkInstr opcode PyNone])) ->
             (forall (m : vm) (out : list num),
                 exec (mkInstr opcode PyNone) m out = binary f m out) ->
             (forall a b, f a b = left_op_right op a b) ->
             (forall l r : node,
                 gen (BinOp o l r) [] =
                 (cl <- gen l [] ;; cr <- gen r [] ;;
                  Ok (cl ++ cr ++ [mkInstr opcode PyNone]))) /\
             (forall (a b : num) (s : list num) vars (out : list num),
                 run [mkInstr opcode PyNone] (mkVM (b :: a :: s) vars) out =
                 match left_op_right op a b with
                 | Ok v => (mkVM (v :: s) vars, out, None)
                 | Raise e => (mkVM s vars, out, Some e)
                 end)).
  { intros o opcode op f Hg He Hf. split.
    - intros l r. apply Order. exact Hg.
    - apply (Pops opcode op f He Hf). }
  assert (Same : forall a b : num,
             py_add a b = left_op_right Add a b /\
             py_sub a b = left_op_right Sub a b /\
             py_mul a b = left_op_right Mul a b /\
             py_truediv a b = left_op_right Div a b /\
             py_pow a b = left_op_right Pow a b).
  { intros [x|f] [y|g]; repeat split; reflexivity. }
  split; [|split; [|split]].
  - repeat match goal with
           | |- Forall _ (_ :: _) => constructor
           | |- Forall _ [] => constructor
           end;
      cbv beta iota;
      refine ((fun H =>
                 conj (proj1 H) (conj (proj2 H)
                   (conj (Left _ _ (proj2 H)) (conj (Right _ _ (proj2 H))
                      (Prints _ _ _ (proj1 H) (proj2 H)))))) _);
      [apply (Entry _ _ _ py_add)|apply (Entry _ _ _ py_sub)
      |apply (Entry _ _ _ py_mul)|apply (Entry _ _ _ py_truediv)
      |apply (Entry _ _ _ py_pow)];
      try reflexivity; intros a b; apply Same.
  - intros x y s vars out.
    rewrite (Pops "SUB" Sub py_sub) by (first [reflexivity|intros; apply Same]).
    reflexivity.
  - intros x y s vars out.
    rewrite (Pops "DIV" Div py_truediv)
      by (first [reflexivity|intros; apply Same]).
    cbn [left_op_right]. destruct (y =? 0)%Z; [reflexivity|].
    destruct (from_host (int_truediv x y)); reflexivity.
  - reflexivity.
Qed.

(** C6: with [(2+3)*4] for the expression, [x = (2+3)*4] followed by
    [print x] prints 20, and [print (2+3)*4] prints 5. *)
Theorem C6_roundtrip_fails_on_a_leading_parenthesis :
  compile_and_run "x = (2+3)*4" new_vm [] =
    (mkVM [] (<["x" := PyInt 20]> ∅), [], None) /\
  compile_and_run "print x" (mkVM [] (<["x" := PyInt 20]> ∅)) [] =
    (mkVM [] (<["x" := PyInt 20]> ∅), [PyInt 20], None) /\
  compile_and_run "print (2+3)*4" new_vm [] = (new_vm, [PyInt 5], None).
Proof. repeat split; reflexivity. Qed.

(** C7: [print y] in an empty environment raises [NameError] for [y];
    nothing is printed and the environment is still empty. *)
Theorem C7_print_of_an_unbound_variable :
  forall (s : list num) (out : list num),
    compile_and_run "print y" (mkVM s ∅) out =
    (mkVM s ∅, out, Some (NameError "y")).
Proof. intros s out. reflexivity. Qed.

(** C8: [print 1/0] raises [ZeroDivisionError]; nothing is printed, and
    the machine is as it was. *)
Theorem C8_print_of_a_division_by_zero :
  forall (m : vm) (out : list num),
    compile_and_run "print 1/0" m out = (m, out, Some ZeroDivisionError).
Proof. intros [s vars] out. reflexivity. Qed.

(** C9: [parse] returns after one statement and never looks whether the
    tokens are used up.  The statement is the longest one that the grammar
    reads from the front of the input: [parse] has read a prefix [pre] and
    returns the rest untouched.  The rest is ignored.  Nothing behind its
    first token matters: with any other tokens there, the result is the
    same statement.  Nor does that first token matter, as long as the
    token in its place is not an operator or [=], which would belong to
    the statement.  The tokens of [1 2] give the statement of [1], with
    the token of [2] left over and no error. *)
Theorem C9_trailing_tokens_are_ignored :
  (forall (ts : list token) (s : node) (rest : list token),
      parse ts = Ok (s, rest) ->
      exists pre,
        ts = pre ++ rest /\
        (forall (t : token) (more more' : list token),
            rest = t :: more ->
            parse (pre ++ t :: more') = Ok (s, t :: more')) /\
        (forall (t' : token) (more' : list token),
            stops_statement (type t') = true ->
            parse (pre ++ t' :: more') = Ok (s, t' :: more'))) /\
  parse_line "1 2" = Ok (Num (PyInt 1)) /\
  (toks <- tokens "1 2" ;; parse toks) =
    Ok (Num (PyInt 1),
        [mkToken NUMBER (PyNum (PyInt 2)) 2; mkToken EOF PyNone 3]).
Proof.
  split; [|split; reflexivity].
  intros ts s rest H. unfold parse in H.
  apply parse_with_reads in H as (pre & -> & R).
  exists pre. split; [reflexivity|]. split.
  - intros t more more' ->. eapply parse_with_enough. apply R.
    apply guard_same.
  - intros t' more' Ht. eapply parse_with_enough. apply R.
    left. exact Ht.
Qed.

(** C10: a leading plus sign leaves no trace in the tree.  [unary] eats
    the [PLUS] and calls itself on what follows; so if a line, or a list
    of tokens, parses to the tree of an expression, the same line or list
    behind a plus sign parses to the same tree.  No tree that [parse]
    returns holds a [UnaryOp] with the operator [+], and [gen] raises on
    none of them. *)
Theorem C10_unary_plus_builds_no_node :
  (forall n (p : token) (ts : list token),
      type p = PLUS -> unary (S n) (p :: ts) = unary n ts) /\
  (forall (p : token) (ts : list token) (nd : node) (rest : list token),
      type p = PLUS ->
      parse ts = Ok (nd, rest) -> is_expression nd = true ->
      parse (p :: ts) = Ok (nd, rest)) /\
  (forall (text : string) (nd : node),
      parse_line text = Ok nd -> is_expression nd = true ->
      parse_line (String "+" text) = Ok nd) /\
  (forall (ts : list token) (s : node) (rest : list token),
      parse ts = Ok (s, rest) ->
      no_unary_plus s = true /\ exists c, gen s [] = Ok c).
Proof.
  split; [exact unary_plus|]. split; [exact parse_plus|].
  split; [exact parse_line_plus|].
  intros ts s rest H. unfold parse in H.
  apply parse_with_builds in H. split.
  - apply parser_operators_no_unary_plus, statement_operators. assumption.
  - apply gen_statement. assumption.
Qed.

(** * More of the lexer *)

(** ** Where the tokens stand *)

Lemma append_cons (x : ascii) (a b : string) :
  String.append (String x a) b = String x (String.append a b).
Proof. reflexivity. Qed.

Lemma length_append (a b : string) :
  String.length (String.append a b) = String.length a + String.length b.
Proof.
  induction a as [|x a IH]; [reflexivity|].
  rewrite append_cons. cbn [String.length]. rewrite IH. reflexivity.
Qed.

Lemma append_assoc (a b c : string) :
  String.append (String.append a b) c = String.append a (String.append b c).
Proof.
  induction a as [|x a IH]; [reflexivity|].
  rewrite !append_cons. f_equal. exact IH.
Qed.

Lemma append_empty (a : string) : String.append a "" = a.
Proof.
  induction a as [|x a IH]; [reflexivity|].
  rewrite append_cons. f_equal. exact IH.
Qed.

Lemma skip_ws_split (s : string) :
  forall i, exists ws,
    s = String.append ws (fst (skip_ws s i)) /\
    snd (skip_ws s i) = i + String.length ws /\ blank ws = true.
Proof.
  induction s as [|ch rest IH]; intros i; cbn [skip_ws].
  - exists "". cbn. auto.
  - destruct (isspace ch) eqn:E.
    + destruct (IH (S i)) as (ws & H1 & H2 & H3).
      exists (String ch ws). rewrite append_cons, <- H1, H2.
      cbn [blank String.length]. rewrite E, H3.
      split; [reflexivity|]. split; [lia|reflexivity].
    + exists "". cbn. auto.
Qed.

Lemma skip_ws_stops (s : string) :
  forall i ch rest, fst (skip_ws s i) = String ch rest -> isspace ch = false.
Proof.
  induction s as [|c s IH]; intros i ch rest; cbn [skip_ws].
  - discriminate.
  - destruct (isspace c) eqn:E; [apply IH|].
    cbn. intros [= <- _]. exact E.
Qed.

Lemma number_loop_split (s : string) :
  forall dot_seen,
    s = String.append (fst (number_loop s dot_seen)) (snd (number_loop s dot_seen)).
Proof.
  induction s as [|ch rest IH]; intros dot_seen; cbn [number_loop]; [reflexivity|].
  destruct (isdigit ch || Ascii.eqb ch "."); [|reflexivity].
  destruct (Ascii.eqb ch ".").
  - destruct dot_seen; [reflexivity|].
    specialize (IH true). destruct (number_loop rest true) as [taken left].
    cbn [fst snd] in *. rewrite append_cons. congruence.
  - specialize (IH dot_seen). destruct (number_loop rest dot_seen) as [taken left].
    cbn [fst snd] in *. rewrite append_cons. congruence.
Qed.

Lemma ident_loop_split (s : string) :
  s = String.append (fst (ident_loop s)) (snd (ident_loop s)).
Proof.
  induction s as [|ch rest IH]; cbn [ident_loop]; [reflexivity|].
  destruct (isalnum ch || Ascii.eqb ch "_"); [|reflexivity].
  destruct (ident_loop rest) as [taken left]. cbn [fst snd] in *.
  rewrite append_cons. congruence.
Qed.

Lemma number_Ok (s : string) (start : nat) (tok : token) (left : string) :
  number s start = Ok (tok, left) ->
  type tok = NUMBER /\ pos tok = start /\
  s = String.append (fst (number_loop s false)) left.
Proof.
  unfold number. pose proof (number_loop_split s false) as Sp.
  destruct (number_loop s false) as [taken left']. cbn [fst snd] in Sp.
  destruct (contains_char "." taken).
  - destruct (from_host (float_of_string taken)); cbn [bind]; [|discriminate].
    intros [= <- <-]. auto.
  - destruct (int_of_string taken); cbn [bind]; [|discriminate].
    intros [= <- <-]. auto.
Qed.

Lemma number_loop_takes (ch : ascii) (rest : string) :
  isdigit ch = true ->
  exists taken, fst (number_loop (String ch rest) false) = String ch taken.
Proof.
  intros D. cbn [number_loop]. rewrite D, (isdigit_not_point ch D). cbn [orb].
  destruct (number_loop rest false) as [taken left]. exists taken. reflexivity.
Qed.

Lemma ident_Ok (s : string) (start : nat) :
  (type (fst (ident s start)) = IDENT \/ type (fst (ident s start)) = PRINT) /\
  pos (fst (ident s start)) = start /\
  value (fst (ident s start)) = PyStr (fst (ident_loop s)) /\
  snd (ident s start) = snd (ident_loop s).
Proof.
  unfold ident. destruct (ident_loop s) as [taken left].
  destruct (String.eqb taken "print"); cbn; auto.
Qed.

Lemma ident_loop_takes (ch : ascii) (rest : string) :
  isalpha ch || Ascii.eqb ch "_" = true ->
  exists taken, fst (ident_loop (String ch rest)) = String ch taken.
Proof.
  intros A. cbn [ident_loop].
  assert (E : isalnum ch || Ascii.eqb ch "_" = true).
  { apply orb_true_iff in A as [A|A]; [rewrite (isalpha_isalnum _ A)|rewrite A];
      auto using orb_true_r. }
  rewrite E. destruct (ident_loop rest) as [taken left]. exists taken. reflexivity.
Qed.

Lemma lexes_end (i : nat) : lexes "" i [mkToken EOF PyNone i].
Proof.
  exists []. cbn. rewrite Nat.add_0_r. split; [reflexivity|].
  split; [constructor|]. repeat constructor.
Qed.

Lemma lexes_blank (ws : string) (i : nat) (toks : list token) :
  lexes "" (i + String.length ws) toks -> lexes ws i toks.
Proof.
  intros (body & -> & B & Srt). destruct body as [|t body].
  - exists []. cbn in *. rewrite Nat.add_0_r in Srt. rewrite Nat.add_0_r.
    split; [reflexivity|]. split; [constructor|exact Srt].
  - apply Forall_inv in B as (k & ch & _ & G & _). destruct k; discriminate G.
Qed.

Lemma lexes_cons (ws taken left : string) (ch : ascii) (rest : string)
    (i : nat) (tok : token) (toks : list token) :
  taken = String ch rest ->
  pos tok = i + String.length ws -> first_char (type tok) ch = true ->
  lexes left (i + String.length ws + String.length taken) toks ->
  lexes (String.append ws (String.append taken left)) i (tok :: toks).
Proof.
  intros -> P F (body & -> & B & Srt).
  exists (tok :: body). rewrite !length_append. split; [|split].
  - cbn [app]. rewrite !Nat.add_assoc. reflexivity.
  - constructor.
    + exists (String.length ws), ch. split; [exact P|]. split; [|exact F].
      pose proof (append_correct2 ws (String.append (String ch rest) left) 0) as G.
      cbn [Nat.add] in G. rewrite <- G. reflexivity.
    + eapply Forall_impl; [exact B|]. cbn beta.
      intros t (k & c & Hp & Hg & Hf).
      exists (k + String.length (String ch rest) + String.length ws), c.
      split; [lia|]. split; [|exact Hf].
      rewrite <- append_correct2, <- append_correct2. exact Hg.
  - cbn [map]. constructor; [exact Srt|].
    rewrite map_app, Forall_app. split.
    + rewrite Forall_map. eapply Forall_impl; [exact B|]. cbn beta.
      intros t (k & c & Hp & _). rewrite P, Hp. cbn [String.length]. lia.
    + repeat constructor. rewrite P. cbn [pos String.length]. lia.
Qed.

Lemma lexes_step (s ws s1 : string) (ch : ascii) (taken left : string)
    (i : nat) (tok : token) (toks : list token) :
  s = String.append ws s1 -> s1 = String.append (String ch taken) left ->
  pos tok = i + String.length ws -> first_char (type tok) ch = true ->
  lexes left (i + String.length ws + (String.length s1 - String.length left)) toks ->
  lexes s i (tok :: toks).
Proof.
  intros -> -> P F L.
  rewrite length_append, Nat.add_sub in L.
  eapply lexes_cons; [reflexivity|exact P|exact F|exact L].
Qed.

Lemma tokens_loop_lexes n :
  forall (s : string) (i : nat) (toks : list token),
    tokens_loop n s i = Ok toks -> lexes s i toks.
Proof.
  induction n as [|n IH]; intros s i toks; [discriminate|].
  destruct s as [|c s']; [intros [= <-]; apply lexes_end|].
  cbn [tokens_loop].
  destruct (skip_ws_split (String c s') i) as (ws & Hs & Hstart & _).
  destruct (skip_ws (String c s') i) as [s1 start]. cbn [fst snd] in Hs, Hstart.
  subst start. destruct s1 as [|ch rest].
  - intros [= <-]. rewrite Hs, append_empty. apply lexes_blank, lexes_end.
  - destruct (isdigit ch) eqn:D; [|destruct (isalpha ch || Ascii.eqb ch "_") eqn:A].
    + destruct (number (String ch rest) (i + String.length ws))
        as [[tok left]|e] eqn:N; cbn [bind]; [|discriminate].
      destruct (tokens_loop n left _) as [toks'|e] eqn:T; cbn [bind];
        [|discriminate].
      intros [= <-]. apply number_Ok in N as (Ht & Hp & Hl).
      destruct (number_loop_takes ch rest D) as [taken Htaken].
      rewrite Htaken in Hl.
      eapply lexes_step; [exact Hs|exact Hl|exact Hp| |apply IH; exact T].
      rewrite Ht. exact D.
    + pose proof (ident_Ok (String ch rest) (i + String.length ws))
        as (Ht & Hp & _ & Hl).
      pose proof (ident_loop_split (String ch rest)) as Hsplit.
      destruct (ident_loop_takes ch rest A) as [taken Htaken].
      rewrite Htaken, <- Hl in Hsplit.
      destruct (ident (String ch rest) (i + String.length ws)) as [tok left].
      cbn [fst snd] in *.
      destruct (tokens_loop n left _) as [toks'|e] eqn:T; cbn [bind];
        [|discriminate].
      intros [= <-].
      eapply lexes_step; [exact Hs|exact Hsplit|exact Hp| |apply IH; exact T].
      destruct Ht as [-> | ->]; exact A.
    + destruct (single_char ch) as [kind|] eqn:K; [|discriminate].
      destruct (tokens_loop n rest _) as [toks'|e] eqn:T; cbn [bind];
        [|discriminate].
      intros [= <-].
      eapply (lexes_step _ ws (String ch rest) ch "" rest);
        [exact Hs|reflexivity|reflexivity| |].
      * cbn [type]. unfold first_char. rewrite K, TokenType_eqb_refl.
        unfold single_char in K.
        repeat match type of K with
               | (if ?b then _ else _) = _ => destruct b
               end; first [discriminate K|injection K as <-; reflexivity].
      * apply IH. cbn [String.length].
        replace (i + String.length ws + (S (String.length rest) - String.length rest))
          with (S (i + String.length ws)) by lia.
        exact T.
Qed.

Lemma number_Raise (s : string) (start : nat) (e : exn) :
  number s start = Raise e -> conversion e.
Proof.
  unfold number, conversion. destruct (number_loop s false) as [taken left].
  destruct (contains_char "." taken).
  - destruct (float_of_string taken) as [f|[literal| |]]; cbn;
      intros [= <-]; eauto.
  - destruct (int_of_string_cases taken) as [(z & -> & _)|(literal & ->)];
      cbn [bind]; intros [= <-]; eauto.
Qed.

Lemma stray_step (s ws s1 taken left : string) (i : nat) (e : exn) :
  s = String.append ws s1 -> s1 = String.append taken left ->
  stray left (i + String.length ws + (String.length s1 - String.length left)) e ->
  stray s i e.
Proof.
  intros -> -> (k & ch & -> & G & H).
  rewrite length_append, Nat.add_sub.
  exists (k + String.length taken + String.length ws), ch.
  split; [do 2 f_equal; lia|]. split; [|exact H].
  rewrite <- !append_correct2. exact G.
Qed.

Lemma tokens_loop_Raise n :
  forall (s : string) (i : nat) (e : exn),
    tokens_loop n s i = Raise e ->
    e = OutOfFuel \/ conversion e \/ stray s i e.
Proof.
  induction n as [|n IH]; intros s i e; [intros [= <-]; auto|].
  destruct s as [|c s']; [discriminate|].
  cbn [tokens_loop].
  destruct (skip_ws_split (String c s') i) as (ws & Hs & Hstart & _).
  pose proof (skip_ws_stops (String c s') i) as Hsp.
  destruct (skip_ws (String c s') i) as [s1 start]. cbn [fst snd] in Hs, Hstart, Hsp.
  subst start. destruct s1 as [|ch rest]; [discriminate|].
  specialize (Hsp ch rest eq_refl).
  destruct (isdigit ch) eqn:D; [|destruct (isalpha ch || Ascii.eqb ch "_") eqn:A].
  - destruct (number (String ch rest) (i + String.length ws))
      as [[tok left]|e'] eqn:N; cbn [bind].
    + destruct (tokens_loop n left _) as [toks'|e'] eqn:T; cbn [bind];
        [discriminate|].
      intros [= <-]. apply number_Ok in N as (_ & _ & Hl).
      apply IH in T as [T|[T|T]]; auto.
      right; right. eapply stray_step; eassumption.
    + intros [= <-]. apply number_Raise in N. auto.
  - pose proof (ident_Ok (String ch rest) (i + String.length ws))
      as (_ & _ & _ & Hl).
    pose proof (ident_loop_split (String ch rest)) as Hsplit.
    rewrite <- Hl in Hsplit.
    destruct (ident (String ch rest) (i + String.length ws)) as [tok left].
    cbn [fst snd] in *.
    destruct (tokens_loop n left _) as [toks'|e'] eqn:T; cbn [bind];
      [discriminate|].
    intros [= <-]. apply IH in T as [T|[T|T]]; auto.
    right; right. eapply stray_step; eassumption.
  - destruct (single_char ch) as [kind|] eqn:K.
    + destruct (tokens_loop n rest _) as [toks'|e'] eqn:T; cbn [bind];
        [discriminate|].
      intros [= <-]. apply IH in T as [T|[T|T]]; auto.
      right; right.
      eapply (stray_step _ ws (String ch rest) (String ch "") rest);
        [exact Hs|reflexivity|].
      cbn [String.length].
      replace (i + String.length ws + (S (String.length rest) - String.length rest))
        with (S (i + String.length ws)) by lia.
      exact T.
    + intros [= <-]. right; right.
      exists (String.length ws), ch. split; [reflexivity|].
      split; [|auto].
      rewrite Hs.
      pose proof (append_correct2 ws (String ch rest) 0) as G.
      cbn [Nat.add] in G. rewrite <- G. reflexivity.
Qed.

(** ** Literals and names *)

Lemma number_loop_literal (s : string) :
  forall dot_seen,
    all_of (fun ch => isdigit ch || Ascii.eqb ch ".") (fst (number_loop s dot_seen)) = true /\
    points (fst (number_loop s dot_seen)) + (if dot_seen then 1 else 0) <= 1 /\
    match snd (number_loop s dot_seen) with
    | String ch _ =>
        isdigit ch = false /\
        (Ascii.eqb ch "." = true ->
         points (fst (number_loop s dot_seen)) + (if dot_seen then 1 else 0) = 1)
    | EmptyString => True
    end.
Proof.
  induction s as [|ch rest IH]; intros dot_seen; cbn [number_loop].
  - cbn. destruct dot_seen; auto.
  - destruct (isdigit ch) eqn:D; cbn [orb].
    + rewrite (isdigit_not_point ch D).
      specialize (IH dot_seen). destruct (number_loop rest dot_seen) as [taken left].
      cbn [fst snd all_of points] in *.
      rewrite D, (isdigit_not_point ch D). cbn [orb andb Nat.add]. exact IH.
    + destruct (Ascii.eqb ch ".") eqn:P.
      * destruct dot_seen.
        -- cbn. rewrite D, P. auto.
        -- specialize (IH true). destruct (number_loop rest true) as [taken left].
           cbn [fst snd all_of points] in *. rewrite D, P. cbn [orb andb].
           destruct IH as (A & B & C). split; [exact A|]. split; [lia|].
           destruct left as [|c left']; [exact I|].
           destruct C as [C1 C2]. split; [exact C1|]. intros H. specialize (C2 H). lia.
      * cbn. rewrite D, P. split; [reflexivity|]. split; [destruct dot_seen; lia|].
        split; [reflexivity|discriminate].
Qed.

Lemma contains_char_points (s : string) :
  contains_char "." s = negb (Nat.eqb (points s) 0).
Proof.
  induction s as [|ch rest IH]; cbn [contains_char points]; [reflexivity|].
  rewrite IH. destruct (Ascii.eqb ch "."); reflexivity.
Qed.

Lemma ascii_digit_classes (ch : ascii) :
  is_ascii_digit ch = true ->
  isdigit ch = true /\ isspace ch = false /\ Ascii.eqb ch "." = false.
Proof.
  destruct ch as [[] [] [] [] [] [] [] []]; vm_compute; intros H;
    first [discriminate H|auto].
Qed.

Lemma letter_classes (ch : ascii) :
  isalpha ch || Ascii.eqb ch "_" = true ->
  isspace ch = false /\ isdigit ch = false.
Proof.
  destruct ch as [[] [] [] [] [] [] [] []]; vm_compute; intros H;
    first [discriminate H|auto].
Qed.

Lemma number_loop_digits (s : string) :
  all_of is_ascii_digit s = true ->
  forall dot_seen, number_loop s dot_seen = (s, "").
Proof.
  induction s as [|ch rest IH]; cbn [all_of number_loop]; [reflexivity|].
  intros H dot_seen. apply andb_true_iff in H as [H1 H2].
  apply ascii_digit_classes in H1 as (D & _ & P). rewrite D, P. cbn [orb].
  rewrite (IH H2). reflexivity.
Qed.

Lemma digits_no_point (s : string) :
  all_of is_ascii_digit s = true -> contains_char "." s = false.
Proof.
  induction s as [|ch rest IH]; cbn [all_of contains_char]; [reflexivity|].
  intros H. apply andb_true_iff in H as [H1 H2].
  apply ascii_digit_classes in H1 as (_ & _ & P). rewrite P. apply IH, H2.
Qed.

Lemma string_of_uint_digits (d : Decimal.uint) :
  all_of is_ascii_digit (DecimalString.NilEmpty.string_of_uint d) = true.
Proof. induction d; cbn [DecimalString.NilEmpty.string_of_uint all_of]; auto. Qed.

Lemma int_digits_uint (d : Decimal.uint) :
  forall acc : nat,
    int_digits (Z.of_nat acc) (DecimalString.NilEmpty.string_of_uint d) =
    Some (Z.of_nat (Nat.of_uint_acc d acc)).
Proof.
  induction d as [|d IH|d IH|d IH|d IH|d IH|d IH|d IH|d IH|d IH|d IH];
    intros acc;
    cbn [DecimalString.NilEmpty.string_of_uint int_digits Nat.of_uint_acc];
    [reflexivity|..];
    rewrite Nat.tail_mul_spec;
    match goal with
    | |- context [is_ascii_digit ?c] =>
        change (is_ascii_digit c) with true; cbn iota;
        let k := eval vm_compute in (code c - 48) in
        change (code c - 48) with k
    end;
    rewrite <- IH; f_equal; lia.
Qed.

Lemma to_little_uint_not_Nil (n : nat) :
  forall acc, acc <> Decimal.Nil -> Nat.to_little_uint n acc <> Decimal.Nil.
Proof.
  induction n as [|n IH]; intros acc H; cbn [Nat.to_little_uint]; [exact H|].
  apply IH. destruct acc; discriminate.
Qed.

Lemma decimal_not_empty (n : nat) : exists ch rest, decimal n = String ch rest.
Proof.
  unfold decimal. destruct (Nat.to_uint n) eqn:E; cbn; eauto.
  unfold Nat.to_uint in E. apply DecimalFacts.rev_nil_inv in E.
  apply to_little_uint_not_Nil in E; [contradiction|discriminate].
Qed.

Lemma int_of_decimal (n : nat) :
  int_of_string (decimal n) =
  if (String.length (decimal n) <=? int_max_str_digits)%nat
  then Ok (Z.of_nat n) else Raise (ValueError digit_limit).
Proof.
  destruct (decimal_not_empty n) as (ch & rest & E).
  unfold int_of_string. rewrite E, <- E. unfold decimal.
  change 0%Z with (Z.of_nat 0). rewrite (int_digits_uint (Nat.to_uint n) 0).
  change (Nat.of_uint_acc (Nat.to_uint n) 0) with (Nat.of_uint (Nat.to_uint n)).
  rewrite DecimalNat.Unsigned.of_to. reflexivity.
Qed.

Lemma ident_loop_word (w : string) :
  forall rest,
    all_of (fun c => isalnum c || Ascii.eqb c "_") w = true ->
    match rest with
    | String c _ => isalnum c || Ascii.eqb c "_" = false
    | EmptyString => True
    end ->
    ident_loop (String.append w rest) = (w, rest).
Proof.
  induction w as [|ch w IH]; intros rest A R.
  - destruct rest as [|c rest]; [reflexivity|].
    change (String.append "" (String c rest)) with (String c rest).
    cbn [ident_loop]. rewrite R. reflexivity.
  - cbn [all_of] in A. apply andb_true_iff in A as [A1 A2].
    rewrite append_cons. cbn [ident_loop]. rewrite A1, (IH rest A2 R).
    reflexivity.
Qed.

Lemma is_name_inv (w : string) :
  is_name w = true ->
  exists ch rest,
    w = String ch rest /\ isalpha ch || Ascii.eqb ch "_" = true /\
    all_of (fun c => isalnum c || Ascii.eqb c "_") w = true /\
    String.eqb w "print" = false.
Proof.
  destruct w as [|ch rest]; [discriminate|]. unfold is_name.
  intros H. apply andb_true_iff in H as [H H3].
  apply andb_true_iff in H as [H1 H2].
  exists ch, rest. split; [reflexivity|]. split; [exact H1|].
  split; [|apply negb_true_iff; exact H3].
  cbn [all_of]. rewrite H2, andb_true_r.
  apply orb_true_iff in H1 as [H1|H1];
    [rewrite (isalpha_isalnum _ H1)|rewrite H1]; auto using orb_true_r.
Qed.

Lemma tokens_loop_name n (w rest : string) (i : nat) :
  is_name w = true ->
  match rest with
  | String c _ => isalnum c || Ascii.eqb c "_" = false
  | EmptyString => True
  end ->
  tokens_loop (S n) (String.append w rest) i =
  (toks <- tokens_loop n rest (i + String.length w) ;;
   Ok (mkToken IDENT (PyStr w) i :: toks)).
Proof.
  intros N R. destruct (is_name_inv w N) as (ch & w' & -> & L & A & P).
  destruct (letter_classes ch L) as [Hs Hd].
  rewrite append_cons, tokens_loop_ident by assumption.
  rewrite <- append_cons. unfold ident.
  rewrite (ident_loop_word _ rest A R), P. cbn [fst snd].
  rewrite length_append, Nat.add_sub. reflexivity.
Qed.

Lemma tokens_name (w : string) :
  is_name w = true ->
  tokens w =
  Ok [mkToken IDENT (PyStr w) 0; mkToken EOF PyNone (String.length w)].
Proof.
  intros N. unfold tokens. rewrite <- (append_empty w) at 2.
  rewrite (tokens_loop_name _ w "" 0 N I).
  destruct (is_name_inv w N) as (ch & w' & -> & _). reflexivity.
Qed.



(** ** Whitespace *)

Lemma tokens_loop_isspace n (c : ascii) (s : string) (i : nat) :
  isspace c = true ->
  tokens_loop (S n) (String c s) i = tokens_loop (S n) s (S i).
Proof.
  intros Hc. cbn [tokens_loop skip_ws]. rewrite Hc.
  destruct s as [|c0 s0]; reflexivity.
Qed.

Lemma tokens_loop_blank n (ws : string) :
  blank ws = true ->
  forall (s : string) (i : nat),
    tokens_loop (S n) (String.append ws s) i =
    tokens_loop (S n) s (i + String.length ws).
Proof.
  induction ws as [|c ws IH]; intros B s i.
  - cbn [String.length]. rewrite Nat.add_0_r. reflexivity.
  - cbn [blank] in B. apply andb_true_iff in B as [B1 B2].
    rewrite append_cons, tokens_loop_isspace, (IH B2) by assumption.
    cbn [String.length]. f_equal. lia.
Qed.

Lemma tokens_blank (ws s : string) :
  blank ws = true ->
  tokens (String.append ws s) =
  move_result (map (move (String.length ws))) (String.length ws) (tokens s).
Proof.
  intros B. unfold tokens at 1. rewrite (tokens_loop_blank _ ws B).
  rewrite tokens_loop_at by (rewrite length_append; lia). reflexivity.
Qed.

Lemma parse_line_blank (ws s : string) :
  blank ws = true ->
  parse_line (String.append ws s) =
  move_result (fun nd => nd) (String.length ws) (parse_line s).
Proof.
  intros B. unfold parse_line. rewrite (tokens_blank ws s B).
  destruct (tokens s) as [toks|e]; cbn [move_result bind]; [|reflexivity].
  rewrite parse_move. destruct (parse toks) as [[nd rest]|e]; reflexivity.
Qed.

Lemma lstrip_blank (ws : string) : blank ws = true -> lstrip ws = "".
Proof.
  induction ws as [|c ws IH]; cbn [blank lstrip]; [reflexivity|].
  intros B. apply andb_true_iff in B as [-> B2]. apply IH, B2.
Qed.

(** ** The lexer accepts every plain line *)

Lemma all_of_append (class : ascii -> bool) (a b : string) :
  all_of class (String.append a b) = all_of class a && all_of class b.
Proof.
  induction a as [|x a IH]; [reflexivity|].
  rewrite append_cons. cbn [all_of]. rewrite IH, andb_assoc. reflexivity.
Qed.

Lemma plain_digit (ch : ascii) :
  plain ch = true -> isdigit ch || Ascii.eqb ch "." = true ->
  is_ascii_digit ch = true.
Proof.
  destruct ch as [[] [] [] [] [] [] [] []]; vm_compute; intros H1 H2;
    first [discriminate H1|discriminate H2|reflexivity].
Qed.

Lemma all_of_both (p q r : ascii -> bool) (s : string) :
  (forall ch, p ch = true -> q ch = true -> r ch = true) ->
  all_of p s = true -> all_of q s = true -> all_of r s = true.
Proof.
  intros H. induction s as [|ch s IH]; cbn [all_of]; [reflexivity|].
  intros P Q. apply andb_true_iff in P as [P1 P2].
  apply andb_true_iff in Q as [Q1 Q2].
  rewrite (H ch P1 Q1), (IH P2 Q2). reflexivity.
Qed.

Lemma int_digits_total (s : string) :
  all_of is_ascii_digit s = true ->
  forall acc, exists z, int_digits acc s = Some z.
Proof.
  induction s as [|ch s IH]; cbn [all_of int_digits]; intros A acc; [eauto|].
  apply andb_true_iff in A as [-> A2]. apply IH, A2.
Qed.

Lemma number_plain (ch : ascii) (rest : string) (start : nat) :
  isdigit ch = true -> all_of plain (String ch rest) = true ->
  String.length (String ch rest) <= int_max_str_digits ->
  exists tok left, number (String ch rest) start = Ok (tok, left).
Proof.
  intros D A Len. unfold number.
  pose proof (number_loop_split (String ch rest) false) as Sp.
  destruct (number_loop_literal (String ch rest) false) as (L & _).
  destruct (number_loop_takes ch rest D) as [taken' Ht].
  destruct (number_loop (String ch rest) false) as [taken left].
  cbn [fst snd] in *. subst taken.
  rewrite Sp, all_of_append in A. apply andb_true_iff in A as [A _].
  rewrite Sp, length_append in Len.
  pose proof (all_of_both _ _ _ _ plain_digit A L) as Dg.
  rewrite (digits_no_point _ Dg). unfold int_of_string.
  destruct (int_digits_total _ Dg 0%Z) as [z ->].
  destruct (Nat.leb_spec (String.length (String ch taken')) int_max_str_digits);
    [|lia].
  cbn [bind]. eauto.
Qed.

Lemma tokens_loop_plain n :
  forall (s : string) (i : nat),
    String.length s < n -> all_of plain s = true ->
    String.length s <= int_max_str_digits ->
    exists toks, tokens_loop n s i = Ok toks.
Proof.
  induction n as [|n IH]; intros s i Hn A Len; [lia|].
  destruct s as [|c s']; [cbn; eauto|].
  cbn [tokens_loop].
  destruct (skip_ws_split (String c s') i) as (ws & Hs & _ & _).
  pose proof (skip_ws_length (String c s') i) as Hlen.
  pose proof (skip_ws_stops (String c s') i) as Hsp.
  destruct (skip_ws (String c s') i) as [s1 start].
  cbn [fst snd] in Hs, Hlen, Hsp.
  rewrite Hs, all_of_append in A. apply andb_true_iff in A as [_ A].
  destruct s1 as [|ch rest]; [eauto|].
  specialize (Hsp ch rest eq_refl). cbn [String.length] in Hn, Hlen, Len.
  destruct (isdigit ch) eqn:D; [|destruct (isalpha ch || Ascii.eqb ch "_") eqn:L].
  - destruct (number_plain ch rest start D A) as (tok & left & N);
      [cbn [String.length]; lia|].
    rewrite N. cbn [bind].
    pose proof (number_shortens _ _ _ _ _ D N) as Hl.
    apply number_Ok in N as (_ & _ & Hsplit).
    rewrite Hsplit, all_of_append in A. apply andb_true_iff in A as [_ A].
    destruct (IH left (start + (String.length (String ch rest) - String.length left)))
      as [toks ->]; [lia|exact A|lia|]. cbn [bind]. eauto.
  - pose proof (ident_shortens ch rest start) as Hl.
    pose proof (ident_Ok (String ch rest) start) as (_ & _ & _ & Hleft).
    pose proof (ident_loop_split (String ch rest)) as Hsplit.
    rewrite <- Hleft in Hsplit.
    destruct (ident (String ch rest) start) as [tok left]. cbn [fst snd] in *.
    specialize (Hl tok left L eq_refl).
    rewrite Hsplit, all_of_append in A. apply andb_true_iff in A as [_ A].
    destruct (IH left (start + (String.length (String ch rest) - String.length left)))
      as [toks ->]; [lia|exact A|lia|]. cbn [bind]. eauto.
  - cbn [all_of] in A. apply andb_true_iff in A as [P A].
    destruct (single_char ch) as [kind|] eqn:K.
    + destruct (IH rest (S start)) as [toks ->]; [lia|exact A|lia|].
      cbn [bind]. eauto.
    + exfalso. unfold plain in P. rewrite Hsp, K in P.
      destruct (is_ascii_digit ch) eqn:AD.
      * apply ascii_digit_classes in AD as (AD & _). congruence.
      * cbn [orb] in P. rewrite orb_false_r, L in P. discriminate P.
Qed.

(** ** What the lexer guarantees *)

(** X1: the tokens of a line stand where they begin.  Every token but the
    last carries the offset of a character of the line, and that character
    is one that begins a token of its type: a digit for [NUMBER], a letter
    or an underscore for [IDENT] and [PRINT], its own character for an
    operator.  The offsets grow strictly along the list.  The last token,
    and no other, is [EOF], and its offset is the length of the line. *)
Theorem tokens_stand_where_they_begin (text : string) (toks : list token) :
  tokens text = Ok toks -> lexes text 0 toks.
Proof. apply tokens_loop_lexes. Qed.

(** X2: what the lexer raises.  It is an exception of the conversion of a
    literal ([int(num)], [float(num)]), or the [SyntaxError] of line 111;
    the message then names a character of the line and its offset, and
    this character is no whitespace, no digit, no letter, no underscore and
    no operator. *)
Theorem lexer_errors_name_their_character (text : string) (e : exn) :
  tokens text = Raise e -> conversion e \/ stray text 0 e.
Proof.
  intros H. destruct (tokens_loop_Raise _ _ _ _ H) as [->|H']; [|exact H'].
  exfalso. exact (tokens_never_OutOfFuel text H).
Qed.

(** X3: the lexer accepts every plain line that [int] can read: a line of
    whitespace, decimal digits, letters, underscores and the eight
    operator characters, of at most 4300 characters, so that none of its
    literals is beyond the digit limit of [int], has tokens. *)
Theorem lexer_accepts_plain_lines (text : string) :
  all_of plain text = true -> String.length text <= int_max_str_digits ->
  exists toks, tokens text = Ok toks.
Proof. intros A L. apply tokens_loop_plain; [lia|exact A|exact L]. Qed.

(** X4: [number] reads one literal.  It takes the longest run of digits
    and points that has at most one point, and leaves the rest of the
    text: what follows is no digit, and it is a point only if the literal
    has one already.  The token is a [NUMBER] at the given position; its
    value is [int] of the run if the run has no point, and [float] of the
    run if it has one. *)
Theorem number_reads_one_literal (s : string) (start : nat) (tok : token)
    (left : string) :
  number s start = Ok (tok, left) ->
  exists taken,
    s = String.append taken left /\
    all_of (fun ch => isdigit ch || Ascii.eqb ch ".") taken = true /\
    points taken <= 1 /\
    type tok = NUMBER /\ pos tok = start /\
    match value tok with
    | PyNum (PyInt z) => points taken = 0 /\ int_of_string taken = Ok z
    | PyNum (PyFloat f) => points taken = 1 /\ float_of_string taken = HostOk f
    | _ => False
    end /\
    match left with
    | String ch _ =>
        isdigit ch = false /\ (Ascii.eqb ch "." = true -> points taken = 1)
    | EmptyString => True
    end.
Proof.
  unfold number. pose proof (number_loop_split s false) as Sp.
  destruct (number_loop_literal s false) as (A & P & L).
  destruct (number_loop s false) as [taken left']. cbn [fst snd] in *.
  rewrite Nat.add_0_r in P.
  assert (L' : match left' with
               | String ch _ =>
                   isdigit ch = false /\
                   (Ascii.eqb ch "." = true -> points taken = 1)
               | EmptyString => True
               end).
  { destruct left' as [|ch left'']; [exact I|]. destruct L as [L1 L2].
    split; [exact L1|]. intros H. specialize (L2 H). lia. }
  rewrite contains_char_points.
  destruct (Nat.eqb (points taken) 0) eqn:Z; cbn [negb].
  - apply Nat.eqb_eq in Z.
    destruct (int_of_string taken) as [z|] eqn:V; cbn [bind]; [|discriminate].
    intros [= <- <-]. exists taken. cbn [type pos value]. auto 10.
  - apply Nat.eqb_neq in Z.
    destruct (float_of_string taken) as [f|[literal| |]] eqn:V; cbn [from_host bind];
      try discriminate.
    intros [= <- <-]. exists taken. cbn [type pos value].
    repeat (split; [solve [auto|lia]|]). split; [split; [lia|exact V]|exact L'].
Qed.

(** X5: a decimal numeral of at most 4300 digits reads back as its
    number: the tokens of the numeral of [n] are a [NUMBER] with the value
    [n] and the [EOF].  On a longer numeral the lexer raises the
    [ValueError] of [int], which refuses more than 4300 digits. *)
Theorem decimal_numerals_read_back (n : nat) :
  tokens (decimal n) =
  if (String.length (decimal n) <=? int_max_str_digits)%nat
  then Ok [mkToken NUMBER (PyNum (PyInt (Z.of_nat n))) 0;
           mkToken EOF PyNone (String.length (decimal n))]
  else Raise (ValueError digit_limit).
Proof.
  pose proof (string_of_uint_digits (Nat.to_uint n)) as A.
  fold (decimal n) in A. pose proof (int_of_decimal n) as V.
  destruct (decimal_not_empty n) as (ch & rest & E). rewrite E in *.
  pose proof A as A'. cbn [all_of] in A'.
  apply andb_true_iff in A' as [A1 _].
  apply ascii_digit_classes in A1 as (D & Sp & _).
  unfold tokens. cbn [String.length tokens_loop skip_ws]. rewrite Sp, D.
  unfold number. rewrite (number_loop_digits _ A), (digits_no_point _ A), V.
  cbn [String.length].
  destruct (S (String.length rest) <=? int_max_str_digits)%nat;
    [|reflexivity].
  cbn [bind String.length]. rewrite Nat.sub_0_r. reflexivity.
Qed.

(** X6: a name is one identifier.  A word of letters, digits and
    underscores that does not begin with a digit and is not [print] has
    two tokens: an [IDENT] with the word as its value, and the [EOF]. *)
Theorem names_are_identifiers (w : string) :
  is_name w = true ->
  tokens w =
  Ok [mkToken IDENT (PyStr w) 0; mkToken EOF PyNone (String.length w)].
Proof. apply tokens_name. Qed.

(** X7: whitespace in front of a line moves the positions in the messages
    and nothing else.  If the line has a tree, the indented line does what
    the line does; if not, it fails with the same message, the position
    moved by the width of the indentation. *)
Theorem indentation_moves_only_the_messages (ws line : string) (m : vm)
    (out : list num) :
  blank ws = true ->
  compile_and_run (String.append ws line) m out =
  match parse_line line with
  | Ok _ => compile_and_run line m out
  | Raise e => (m, out, Some (move_exn (String.length ws) e))
  end.
Proof.
  intros B. unfold compile_and_run, compile.
  rewrite (parse_line_blank ws line B).
  destruct (parse_line line); reflexivity.
Qed.

(** * More of the parser *)

(** ** Parentheses *)

Lemma parse_with_settled n (ts : list token) (r : result (node * list token)) :
  parse_with n ts = r -> fine r -> parse ts = r.
Proof.
  intros H F. unfold parse.
  destruct (Nat.le_ge_cases n (parse_fuel (List.length ts))) as [L|L].
  - destruct (parse_with_monotone n _ ts L) as [E|E]; [|congruence].
    rewrite H in E. contradiction.
  - destruct (parse_with_monotone _ n ts L) as [E|E]; [|congruence].
    exfalso. exact (parse_never_OutOfFuel ts E).
Qed.

Lemma expr_reads_body n (body : list token) (eof : token) (e : node) :
  expr n (body ++ [eof]) = Ok (e, [eof]) ->
  forall rest', guard stops_expr [eof] rest' ->
                expr n (body ++ rest') = Ok (e, rest').
Proof.
  intros H. destruct (proj1 (parser_reads n) _ _ _ H) as (t & pre & Hts & R).
  apply app_inj_tail in Hts as [-> _]. exact R.
Qed.

Lemma stops_expr_at (t : token) (kind : TokenType) :
  stops_expr (type t) = true -> In kind [PLUS; MINUS; MUL; DIV; POW] ->
  TokenType_eqb (type t) kind = false.
Proof.
  intros St K. destruct (type t); cbn in K;
    destruct K as [<-|[<-|[<-|[<-|[<-|[]]]]]]; first [reflexivity|discriminate St].
Qed.

Lemma climb n (ts : list token) (e : node) (t : token) (more : list token) :
  unary n ts = Ok (e, t :: more) -> stops_expr (type t) = true ->
  expr (S (S (S n))) ts = Ok (e, t :: more).
Proof.
  intros H St.
  rewrite expr_S, term_S, power_S, H. cbn [bind].
  rewrite at_cons, (stops_expr_at t POW St) by (cbn; tauto). cbn [bind].
  rewrite term_loop_S, !at_cons,
    (stops_expr_at t MUL St), (stops_expr_at t DIV St) by (cbn; tauto).
  cbn [bind].
  rewrite expr_loop_S, !at_cons,
    (stops_expr_at t PLUS St), (stops_expr_at t MINUS St) by (cbn; tauto).
  reflexivity.
Qed.

Lemma climb_Raise n (ts : list token) (err : exn) :
  unary n ts = Raise err -> expr (S (S (S n))) ts = Raise err.
Proof. intros H. rewrite expr_S, term_S, power_S, H. reflexivity. Qed.

Lemma unary_parenthesis n (lp : token) (ts : list token) :
  type lp = LPAREN ->
  unary (S (S n)) (lp :: ts) =
  (r <- expr n ts ;; let (inner, ts2) := r in
   c <- eat RPAREN ts2 ;; Ok (inner, snd c)).
Proof.
  intros L. rewrite unary_S, !at_cons, L. cbn [TokenType_eqb bind].
  rewrite primary_S. cbn [peek bind]. rewrite L. cbn [TokenType_eqb].
  rewrite eat_cons by assumption. reflexivity.
Qed.

Lemma parse_with_parenthesis n (lp : token) (ts : list token) :
  type lp = LPAREN -> parse_with n (lp :: ts) = expr n (lp :: ts).
Proof.
  intros L. unfold parse_with. rewrite !at_cons, L. reflexivity.
Qed.

Lemma parse_expression_body (body : list token) (eof : token) (e : node) :
  parse (body ++ [eof]) = Ok (e, [eof]) -> is_expression e = true ->
  exists n, forall rest', guard stops_expr [eof] rest' ->
                          expr n (body ++ rest') = Ok (e, rest').
Proof.
  intros H E. unfold parse in H. apply parse_with_expression in H; [|exact E].
  eexists. apply expr_reads_body. exact H.
Qed.

(** X8: parentheses leave no node.  If the tokens [body] are an expression
    with the tree [e], then [( body )], in front of a token at which an
    expression ends, parses to the same tree [e]: [primary] eats the two
    parentheses, and nothing in the tree records them. *)
Theorem parentheses_leave_no_node (lp rp eof t : token)
    (body more : list token) (e : node) :
  type lp = LPAREN -> type rp = RPAREN ->
  parse (body ++ [eof]) = Ok (e, [eof]) -> is_expression e = true ->
  stops_expr (type t) = true ->
  parse (lp :: body ++ rp :: t :: more) = Ok (e, t :: more).
Proof.
  intros L R H E St.
  destruct (parse_expression_body body eof e H E) as [n B].
  apply (parse_with_enough (S (S (S (S (S n)))))).
  rewrite parse_with_parenthesis by assumption.
  apply climb; [|exact St].
  rewrite unary_parenthesis by assumption.
  rewrite (B (rp :: t :: more)) by (left; rewrite R; reflexivity).
  cbn [bind]. rewrite eat_cons by assumption. reflexivity.
Qed.

(** X9: after [print], an opening parenthesis is the parenthesis of the
    statement.  If the tokens [body] are an expression with the tree [e],
    then [print ( body )] is the statement [PrintStmt e], and [parse]
    returns at the closing parenthesis: whatever follows it, operators
    included, is left unread. *)
Theorem print_parenthesis_ends_the_statement (p lp rp eof : token)
    (body rest : list token) (e : node) :
  type p = PRINT -> type lp = LPAREN -> type rp = RPAREN ->
  parse (body ++ [eof]) = Ok (e, [eof]) -> is_expression e = true ->
  parse (p :: lp :: body ++ rp :: rest) = Ok (PrintStmt e, rest).
Proof.
  intros P L R H E.
  destruct (parse_expression_body body eof e H E) as [n B].
  apply (parse_with_enough n). unfold parse_with.
  rewrite at_cons, P. cbn [TokenType_eqb bind].
  rewrite eat_cons by assumption. cbn [bind snd].
  rewrite at_cons, L. cbn [TokenType_eqb bind].
  rewrite eat_cons by assumption. cbn [bind snd].
  rewrite (B (rp :: rest)) by (left; rewrite R; reflexivity).
  cbn [bind]. rewrite eat_cons by assumption. reflexivity.
Qed.

(** X10: a parenthesis that is not closed.  If the expression behind an
    opening parenthesis is followed by a token at which it ends and which is
    no closing parenthesis, [parse] raises the [SyntaxError] of [eat]: it
    expected [RPAREN], and the message names the type and the position of
    the token it found. *)
Theorem unclosed_parenthesis (lp eof t : token) (body more : list token)
    (e : node) :
  type lp = LPAREN ->
  parse (body ++ [eof]) = Ok (e, [eof]) -> is_expression e = true ->
  stops_expr (type t) = true -> type t <> RPAREN ->
  parse (lp :: body ++ t :: more) =
  Raise (SyntaxError (Expected_but_found RPAREN (type t) (pos t))).
Proof.
  intros L H E St NR.
  destruct (parse_expression_body body eof e H E) as [n B].
  apply (parse_with_settled (S (S (S (S (S n)))))); [|discriminate].
  rewrite parse_with_parenthesis by assumption.
  apply climb_Raise.
  rewrite unary_parenthesis by assumption.
  rewrite (B (t :: more)) by (left; exact St).
  cbn [bind]. unfold eat. cbn [peek bind].
  destruct (TokenType_eqb (type t) RPAREN) eqn:K; [|reflexivity].
  apply TokenType_eqb_eq in K. contradiction.
Qed.

(** ** Sums and products group to the left *)

Lemma below_Ok {A : Type} (r r' : result A) (a : A) :
  below r r' -> r = Ok a -> r' = Ok a.
Proof. intros [B|B] E; congruence. Qed.

Lemma parser_more_fuel n m :
  n <= m ->
  (forall ts r, expr n ts = Ok r -> expr m ts = Ok r) /\
  (forall nd ts r, expr_loop n nd ts = Ok r -> expr_loop m nd ts = Ok r) /\
  (forall ts r, term n ts = Ok r -> term m ts = Ok r) /\
  (forall nd ts r, term_loop n nd ts = Ok r -> term_loop m nd ts = Ok r) /\
  (forall ts r, power n ts = Ok r -> power m ts = Ok r).
Proof.
  induction 1 as [|m Hle (IHe & IHel & IHt & IHtl & IHp)]; [tauto|].
  destruct (parser_monotone m) as (He & Hel & Ht & Htl & Hp & _).
  repeat split; intros; eapply below_Ok; eauto.
Qed.

Lemma guard_continues (stop : TokenType -> bool) (pre rest : list token)
    (p : token) (more : list token) :
  stop (type p) = true ->
  guard stop (pre ++ rest) (pre ++ p :: more).
Proof.
  intros St. destruct pre as [|t pre]; [left; exact St|apply guard_same].
Qed.

Lemma expr_loop_continues n :
  forall nd0 ts nd rest,
    expr_loop n nd0 ts = Ok (nd, rest) ->
    exists pre,
      ts = pre ++ rest /\
      forall (p : token) more k r,
        type p = PLUS \/ type p = MINUS ->
        expr_loop k nd (p :: more) = Ok r ->
        exists k', expr_loop k' nd0 (pre ++ p :: more) = Ok r.
Proof.
  induction n as [|n IH]; intros nd0 ts nd rest H; [discriminate|].
  rewrite expr_loop_S in H.
  destruct ts as [|t ts0]; [discriminate|].
  rewrite !at_cons in H. cbn [bind] in H.
  destruct (TokenType_eqb (type t) PLUS) eqn:P;
    [|destruct (TokenType_eqb (type t) MINUS) eqn:M].
  - apply TokenType_eqb_eq in P.
    rewrite eat_cons in H by assumption. cbn [bind snd] in H.
    destruct (term n ts0) as [[right ts2]|] eqn:T; cbn [bind] in H; [|discriminate].
    destruct (IH _ _ _ _ H) as (pre2 & -> & C).
    destruct (proj1 (proj2 (proj2 (parser_reads n))) _ _ _ T)
      as (t1 & pre1 & Hts & R).
    exists (t :: (t1 :: pre1) ++ pre2). split.
    { rewrite Hts. cbn [app]. rewrite <- app_assoc. reflexivity. }
    intros p more k r Hp Hk. destruct (C p more k r Hp Hk) as [k2 Hk2].
    exists (S (Nat.max n k2)).
    change ((t :: (t1 :: pre1) ++ pre2) ++ p :: more)
      with (t :: ((t1 :: pre1) ++ pre2) ++ p :: more).
    rewrite expr_loop_S, at_cons, P. cbn [TokenType_eqb bind].
    rewrite eat_cons by assumption. cbn [bind snd].
    rewrite <- app_assoc.
    rewrite (proj1 (proj2 (proj2 (parser_more_fuel n _ (Nat.le_max_l n k2))))
               _ _ (R (pre2 ++ p :: more)
                      (guard_continues stops_term _ _ _ _
                         ltac:(destruct Hp as [-> | ->]; reflexivity)))).
    cbn [bind].
    apply (proj1 (proj2 (parser_more_fuel k2 _ (Nat.le_max_r n k2)))).
    exact Hk2.
  - pose proof P as P'. apply TokenType_eqb_eq in M.
    rewrite eat_cons in H by assumption. cbn [bind snd] in H.
    destruct (term n ts0) as [[right ts2]|] eqn:T; cbn [bind] in H; [|discriminate].
    destruct (IH _ _ _ _ H) as (pre2 & -> & C).
    destruct (proj1 (proj2 (proj2 (parser_reads n))) _ _ _ T)
      as (t1 & pre1 & Hts & R).
    exists (t :: (t1 :: pre1) ++ pre2). split.
    { rewrite Hts. cbn [app]. rewrite <- app_assoc. reflexivity. }
    intros p more k r Hp Hk. destruct (C p more k r Hp Hk) as [k2 Hk2].
    exists (S (Nat.max n k2)).
    change ((t :: (t1 :: pre1) ++ pre2) ++ p :: more)
      with (t :: ((t1 :: pre1) ++ pre2) ++ p :: more).
    rewrite expr_loop_S, !at_cons, M. cbn [TokenType_eqb bind].
    rewrite eat_cons by assumption. cbn [bind snd].
    rewrite <- app_assoc.
    rewrite (proj1 (proj2 (proj2 (parser_more_fuel n _ (Nat.le_max_l n k2))))
               _ _ (R (pre2 ++ p :: more)
                      (guard_continues stops_term _ _ _ _
                         ltac:(destruct Hp as [-> | ->]; reflexivity)))).
    cbn [bind].
    apply (proj1 (proj2 (parser_more_fuel k2 _ (Nat.le_max_r n k2)))).
    exact Hk2.
  - injection H as <- <-. exists []. split; [reflexivity|].
    intros p more k r _ Hk. exists k. exact Hk.
Qed.

Lemma expr_continues n (ts : list token) (nd : node) (rest : list token) :
  expr n ts = Ok (nd, rest) ->
  exists t pre,
    ts = (t :: pre) ++ rest /\
    forall (p : token) more k r,
      type p = PLUS \/ type p = MINUS ->
      expr_loop k nd (p :: more) = Ok r ->
      exists k', expr k' ((t :: pre) ++ p :: more) = Ok r.
Proof.
  destruct n as [|n]; [discriminate|]. rewrite expr_S.
  destruct (term n ts) as [[n1 ts1]|] eqn:T; cbn [bind]; [|discriminate].
  intros H. destruct (expr_loop_continues n _ _ _ _ H) as (pre2 & -> & C).
  destruct (proj1 (proj2 (proj2 (parser_reads n))) _ _ _ T)
    as (t1 & pre1 & Hts & R).
  exists t1, (pre1 ++ pre2). split.
  { rewrite Hts. cbn [app]. rewrite <- app_assoc. reflexivity. }
  intros p more k r Hp Hk. destruct (C p more k r Hp Hk) as [k2 Hk2].
  exists (S (Nat.max n k2)). rewrite expr_S.
  replace ((t1 :: pre1 ++ pre2) ++ p :: more)
    with ((t1 :: pre1) ++ pre2 ++ p :: more)
    by (cbn [app]; rewrite <- app_assoc; reflexivity).
  rewrite (proj1 (proj2 (proj2 (parser_more_fuel n _ (Nat.le_max_l n k2))))
             _ _ (R (pre2 ++ p :: more)
                    (guard_continues stops_term _ _ _ _
                       ltac:(destruct Hp as [-> | ->]; reflexivity)))).
  cbn [bind].
  apply (proj1 (proj2 (parser_more_fuel k2 _ (Nat.le_max_r n k2)))).
  exact Hk2.
Qed.

Lemma expr_loop_stops n :
  forall nd0 ts nd rest,
    expr_loop n nd0 ts = Ok (nd, rest) ->
    at_ PLUS rest = Ok false /\ at_ MINUS rest = Ok false.
Proof.
  induction n as [|n IH]; intros nd0 ts nd rest H; [discriminate|].
  rewrite expr_loop_S in H.
  destruct ts as [|t ts0]; [discriminate|].
  rewrite !at_cons in H. cbn [bind] in H.
  destruct (TokenType_eqb (type t) PLUS) eqn:P;
    [|destruct (TokenType_eqb (type t) MINUS) eqn:M].
  - destruct (eat PLUS (t :: ts0)); cbn [bind] in H; [|discriminate].
    destruct (term n _) as [[right ts2]|]; cbn [bind] in H; [|discriminate].
    eapply IH. exact H.
  - destruct (eat MINUS (t :: ts0)); cbn [bind] in H; [|discriminate].
    destruct (term n _) as [[right ts2]|]; cbn [bind] in H; [|discriminate].
    eapply IH. exact H.
  - injection H as <- <-. rewrite !at_cons, P, M. auto.
Qed.

Lemma expr_stops n (ts : list token) (nd : node) (rest : list token) :
  expr n ts = Ok (nd, rest) ->
  at_ PLUS rest = Ok false /\ at_ MINUS rest = Ok false.
Proof.
  destruct n as [|n]; [discriminate|]. rewrite expr_S.
  destruct (term n ts) as [[n1 ts1]|]; cbn [bind]; [|discriminate].
  apply expr_loop_stops.
Qed.

Lemma parse_with_same_start n k (t : token) (pre rest : list token)
    (nd : node) (left : list token) (p : token) (more : list token) :
  parse_with n ((t :: pre) ++ rest) = Ok (nd, left) ->
  is_expression nd = true -> type p <> ASSIGN ->
  parse_with k ((t :: pre) ++ p :: more) = expr k ((t :: pre) ++ p :: more).
Proof.
  unfold parse_with. cbn [app]. rewrite !at_cons. cbn [bind peek].
  intros H E A.
  destruct (TokenType_eqb (type t) PRINT).
  { split_ok H; discriminate E. }
  destruct (TokenType_eqb (type t) IDENT); [|reflexivity].
  destruct pre as [|x pre]; cbn [app lookahead bind] in *.
  - destruct (TokenType_eqb (type p) ASSIGN) eqn:K; [|reflexivity].
    apply TokenType_eqb_eq in K. contradiction.
  - destruct (TokenType_eqb (type x) ASSIGN); [|reflexivity].
    split_ok H; discriminate E.
Qed.

(** X11: sums group to the left, and a product binds tighter than a sum.
    If the tokens [body1] are an expression with the tree [e1], and [term]
    reads the tokens [body2] as [e2], then [body1 + body2] is the tree of
    [+] over [e1] and [e2], and [body1 - body2] the tree of [-]: all that
    stands before the sign is the left operand, and one term behind it is
    the right one. *)
Theorem a_sum_takes_what_stands_before_it (body1 body2 : list token)
    (eof p : token) (e1 e2 : node) (k : nat) :
  parse (body1 ++ [eof]) = Ok (e1, [eof]) -> is_expression e1 = true ->
  term k (body2 ++ [eof]) = Ok (e2, [eof]) ->
  type p = PLUS \/ type p = MINUS ->
  parse (body1 ++ p :: body2 ++ [eof]) =
  Ok (BinOp (if TokenType_eqb (type p) PLUS then "+" else "-") e1 e2, [eof]).
Proof.
  intros H E T P. unfold parse in H.
  pose proof (parse_with_expression _ _ _ _ H E) as X.
  destruct (expr_stops _ _ _ _ X) as [SP SM].
  destruct (expr_continues _ _ _ _ X) as (t & pre & Hts & C).
  apply app_inj_tail in Hts as [-> _].
  assert (L : expr_loop (S (S k)) e1 (p :: body2 ++ [eof]) =
              Ok (BinOp (if TokenType_eqb (type p) PLUS then "+" else "-") e1 e2,
                  [eof])).
  { rewrite expr_loop_S, !at_cons. cbn [bind].
    assert (T' : term (S k) (body2 ++ [eof]) = Ok (e2, [eof]))
      by (apply (proj1 (proj2 (proj2 (parser_more_fuel k (S k) (Nat.le_succ_diag_r k))))), T).
    destruct P as [P|P]; rewrite P; cbn [TokenType_eqb];
      rewrite eat_cons by assumption; cbn [bind snd]; rewrite T'; cbn [bind];
      rewrite expr_loop_S, SP; cbn [bind]; rewrite SM; reflexivity. }
  destruct (C p _ _ _ P L) as [k' Hk'].
  apply (parse_with_enough k').
  rewrite (parse_with_same_start _ k' _ _ _ _ _ _ _ H E)
    by (destruct P as [-> | ->]; discriminate).
  exact Hk'.
Qed.

(** ** Products, powers and signs *)

Lemma power_stops n :
  forall ts nd rest, power n ts = Ok (nd, rest) -> at_ POW rest = Ok false.
Proof.
  induction n as [|n IH]; intros ts nd rest H; [discriminate|].
  rewrite power_S in H.
  destruct (unary n ts) as [[n1 ts1]|]; cbn [bind] in H; [|discriminate].
  destruct (at_ POW ts1) as [[|]|] eqn:A; cbn [bind] in H; [| |discriminate].
  - destruct (eat POW ts1); cbn [bind] in H; [|discriminate].
    destruct (power n _) as [[right ts2]|] eqn:P; cbn [bind] in H;
      [|discriminate].
    injection H as <- <-. eapply IH. exact P.
  - injection H as <- <-. exact A.
Qed.

Lemma term_loop_stops n :
  forall nd0 ts nd rest,
    term_loop n nd0 ts = Ok (nd, rest) -> at_ POW ts = Ok false ->
    at_ POW rest = Ok false /\ at_ MUL rest = Ok false /\ at_ DIV rest = Ok false.
Proof.
  induction n as [|n IH]; intros nd0 ts nd rest H A; [discriminate|].
  rewrite term_loop_S in H.
  destruct (at_ MUL ts) as [[|]|] eqn:M; cbn [bind] in H; [| |discriminate].
  - destruct (eat MUL ts); cbn [bind] in H; [|discriminate].
    destruct (power n _) as [[right ts2]|] eqn:P; cbn [bind] in H;
      [|discriminate].
    eapply IH; [exact H|]. eapply power_stops. exact P.
  - destruct (at_ DIV ts) as [[|]|] eqn:D; cbn [bind] in H; [| |discriminate].
    + destruct (eat DIV ts); cbn [bind] in H; [|discriminate].
      destruct (power n _) as [[right ts2]|] eqn:P; cbn [bind] in H;
        [|discriminate].
      eapply IH; [exact H|]. eapply power_stops. exact P.
    + injection H as <- <-. auto.
Qed.

Lemma term_stops n (ts : list token) (nd : node) (rest : list token) :
  term n ts = Ok (nd, rest) ->
  at_ POW rest = Ok false /\ at_ MUL rest = Ok false /\ at_ DIV rest = Ok false.
Proof.
  destruct n as [|n]; [discriminate|]. rewrite term_S.
  destruct (power n ts) as [[n1 ts1]|] eqn:P; cbn [bind]; [|discriminate].
  intros H. eapply term_loop_stops; [exact H|]. eapply power_stops. exact P.
Qed.

Lemma expr_loop_stops_term n :
  forall nd0 ts nd rest,
    expr_loop n nd0 ts = Ok (nd, rest) ->
    at_ POW ts = Ok false /\ at_ MUL ts = Ok false /\ at_ DIV ts = Ok false ->
    at_ POW rest = Ok false /\ at_ MUL rest = Ok false /\ at_ DIV rest = Ok false.
Proof.
  induction n as [|n IH]; intros nd0 ts nd rest H A; [discriminate|].
  rewrite expr_loop_S in H.
  destruct (at_ PLUS ts) as [[|]|] eqn:M; cbn [bind] in H; [| |discriminate].
  - destruct (eat PLUS ts); cbn [bind] in H; [|discriminate].
    destruct (term n _) as [[right ts2]|] eqn:P; cbn [bind] in H;
      [|discriminate].
    eapply IH; [exact H|]. eapply term_stops. exact P.
  - destruct (at_ MINUS ts) as [[|]|] eqn:D; cbn [bind] in H; [| |discriminate].
    + destruct (eat MINUS ts); cbn [bind] in H; [|discriminate].
      destruct (term n _) as [[right ts2]|] eqn:P; cbn [bind] in H;
        [|discriminate].
      eapply IH; [exact H|]. eapply term_stops. exact P.
    + injection H as <- <-. exact A.
Qed.

Lemma expr_stops_term n (ts : list token) (nd : node) (rest : list token) :
  expr n ts = Ok (nd, rest) ->
  at_ POW rest = Ok false /\ at_ MUL rest = Ok false /\ at_ DIV rest = Ok false.
Proof.
  destruct n as [|n]; [discriminate|]. rewrite expr_S.
  destruct (term n ts) as [[n1 ts1]|] eqn:T; cbn [bind]; [|discriminate].
  intros H. eapply expr_loop_stops_term; [exact H|]. eapply term_stops. exact T.
Qed.

Lemma term_loop_continues n :
  forall nd0 ts nd rest,
    term_loop n nd0 ts = Ok (nd, rest) ->
    exists pre,
      ts = pre ++ rest /\
      forall (p : token) more k r,
        type p = MUL \/ type p = DIV ->
        term_loop k nd (p :: more) = Ok r ->
        exists k', term_loop k' nd0 (pre ++ p :: more) = Ok r.
Proof.
  induction n as [|n IH]; intros nd0 ts nd rest H; [discriminate|].
  rewrite term_loop_S in H.
  destruct ts as [|t ts0]; [discriminate|].
  rewrite !at_cons in H. cbn [bind] in H.
  destruct (TokenType_eqb (type t) MUL) eqn:P;
    [|destruct (TokenType_eqb (type t) DIV) eqn:M].
  - apply TokenType_eqb_eq in P.
    rewrite eat_cons in H by assumption. cbn [bind snd] in H.
    destruct (power n ts0) as [[right ts2]|] eqn:T; cbn [bind] in H; [|discriminate].
    destruct (IH _ _ _ _ H) as (pre2 & -> & C).
    destruct (proj1 (proj2 (proj2 (proj2 (proj2 (parser_reads n))))) _ _ _ T)
      as (t1 & pre1 & Hts & R).
    exists (t :: (t1 :: pre1) ++ pre2). split.
    { rewrite Hts. cbn [app]. rewrite <- app_assoc. reflexivity. }
    intros p more k r Hp Hk. destruct (C p more k r Hp Hk) as [k2 Hk2].
    exists (S (Nat.max n k2)).
    change ((t :: (t1 :: pre1) ++ pre2) ++ p :: more)
      with (t :: ((t1 :: pre1) ++ pre2) ++ p :: more).
    rewrite term_loop_S, at_cons, P. cbn [TokenType_eqb bind].
    rewrite eat_cons by assumption. cbn [bind snd].
    rewrite <- app_assoc.
    rewrite (proj2 (proj2 (proj2 (proj2 (parser_more_fuel n _ (Nat.le_max_l n k2)))))
               _ _ (R (pre2 ++ p :: more)
                      (guard_continues stops_power _ _ _ _
                         ltac:(destruct Hp as [-> | ->]; reflexivity)))).
    cbn [bind].
    apply (proj1 (proj2 (proj2 (proj2 (parser_more_fuel k2 _ (Nat.le_max_r n k2)))))).
    exact Hk2.
  - pose proof P as P'. apply TokenType_eqb_eq in M.
    rewrite eat_cons in H by assumption. cbn [bind snd] in H.
    destruct (power n ts0) as [[right ts2]|] eqn:T; cbn [bind] in H; [|discriminate].
    destruct (IH _ _ _ _ H) as (pre2 & -> & C).
    destruct (proj1 (proj2 (proj2 (proj2 (proj2 (parser_reads n))))) _ _ _ T)
      as (t1 & pre1 & Hts & R).
    exists (t :: (t1 :: pre1) ++ pre2). split.
    { rewrite Hts. cbn [app]. rewrite <- app_assoc. reflexivity. }
    intros p more k r Hp Hk. destruct (C p more k r Hp Hk) as [k2 Hk2].
    exists (S (Nat.max n k2)).
    change ((t :: (t1 :: pre1) ++ pre2) ++ p :: more)
      with (t :: ((t1 :: pre1) ++ pre2) ++ p :: more).
    rewrite term_loop_S, !at_cons, M. cbn [TokenType_eqb bind].
    rewrite eat_cons by assumption. cbn [bind snd].
    rewrite <- app_assoc.
    rewrite (proj2 (proj2 (proj2 (proj2 (parser_more_fuel n _ (Nat.le_max_l n k2)))))
               _ _ (R (pre2 ++ p :: more)
                      (guard_continues stops_power _ _ _ _
                         ltac:(destruct Hp as [-> | ->]; reflexivity)))).
    cbn [bind].
    apply (proj1 (proj2 (proj2 (proj2 (parser_more_fuel k2 _ (Nat.le_max_r n k2)))))).
    exact Hk2.
  - injection H as <- <-. exists []. split; [reflexivity|].
    intros p more k r _ Hk. exists k. exact Hk.
Qed.

Lemma term_continues n (ts : list token) (nd : node) (rest : list token) :
  term n ts = Ok (nd, rest) ->
  exists t pre,
    ts = (t :: pre) ++ rest /\
    forall (p : token) more k r,
      type p = MUL \/ type p = DIV ->
      term_loop k nd (p :: more) = Ok r ->
      exists k', term k' ((t :: pre) ++ p :: more) = Ok r.
Proof.
  destruct n as [|n]; [discriminate|]. rewrite term_S.
  destruct (power n ts) as [[n1 ts1]|] eqn:T; cbn [bind]; [|discriminate].
  intros H. destruct (term_loop_continues n _ _ _ _ H) as (pre2 & -> & C).
  destruct (proj1 (proj2 (proj2 (proj2 (proj2 (parser_reads n))))) _ _ _ T)
    as (t1 & pre1 & Hts & R).
  exists t1, (pre1 ++ pre2). split.
  { rewrite Hts. cbn [app]. rewrite <- app_assoc. reflexivity. }
  intros p more k r Hp Hk. destruct (C p more k r Hp Hk) as [k2 Hk2].
  exists (S (Nat.max n k2)). rewrite term_S.
  replace ((t1 :: pre1 ++ pre2) ++ p :: more)
    with ((t1 :: pre1) ++ pre2 ++ p :: more)
    by (cbn [app]; rewrite <- app_assoc; reflexivity).
  rewrite (proj2 (proj2 (proj2 (proj2 (parser_more_fuel n _ (Nat.le_max_l n k2)))))
             _ _ (R (pre2 ++ p :: more)
                    (guard_continues stops_power _ _ _ _
                       ltac:(destruct Hp as [-> | ->]; reflexivity)))).
  cbn [bind].
  apply (proj1 (proj2 (proj2 (proj2 (parser_more_fuel k2 _ (Nat.le_max_r n k2)))))).
  exact Hk2.
Qed.

Lemma expr_of_term n (ts : list token) (nd : node) (rest : list token) :
  term n ts = Ok (nd, rest) ->
  at_ PLUS rest = Ok false -> at_ MINUS rest = Ok false ->
  expr (S n) ts = Ok (nd, rest).
Proof.
  intros T P M. rewrite expr_S, T. cbn [bind].
  destruct n as [|n]; [discriminate T|].
  rewrite expr_loop_S, P. cbn [bind]. rewrite M. reflexivity.
Qed.

Lemma term_of_power n (ts : list token) (nd : node) (rest : list token) :
  power n ts = Ok (nd, rest) ->
  at_ MUL rest = Ok false -> at_ DIV rest = Ok false ->
  term (S n) ts = Ok (nd, rest).
Proof.
  intros T P M. rewrite term_S, T. cbn [bind].
  destruct n as [|n]; [discriminate T|].
  rewrite term_loop_S, P. cbn [bind]. rewrite M. reflexivity.
Qed.

(** X12: products group to the left, and a power binds tighter than a
    product.  If the tokens [body1] are an expression that [term] reads
    whole, with the tree [e1], and [power] reads the tokens [body2] as
    [e2], then [body1 * body2] is the tree of [*] over [e1] and [e2], and
    [body1 / body2] the tree of [/]. *)
Theorem a_product_takes_the_term_before_it (body1 body2 : list token)
    (eof p : token) (e1 e2 : node) (k1 k2 : nat) :
  parse (body1 ++ [eof]) = Ok (e1, [eof]) -> is_expression e1 = true ->
  term k1 (body1 ++ [eof]) = Ok (e1, [eof]) ->
  power k2 (body2 ++ [eof]) = Ok (e2, [eof]) ->
  type p = MUL \/ type p = DIV ->
  parse (body1 ++ p :: body2 ++ [eof]) =
  Ok (BinOp (if TokenType_eqb (type p) MUL then "*" else "/") e1 e2, [eof]).
Proof.
  intros H E T1 T2 P. unfold parse in H.
  pose proof (parse_with_expression _ _ _ _ H E) as X.
  destruct (expr_stops _ _ _ _ X) as [SP SM].
  destruct (term_stops _ _ _ _ T1) as (_ & SU & SD).
  destruct (term_continues _ _ _ _ T1) as (t & pre & Hts & C).
  apply app_inj_tail in Hts as [-> _].
  assert (L : term_loop (S (S k2)) e1 (p :: body2 ++ [eof]) =
              Ok (BinOp (if TokenType_eqb (type p) MUL then "*" else "/") e1 e2,
                  [eof])).
  { rewrite term_loop_S, !at_cons. cbn [bind].
    assert (T' : power (S k2) (body2 ++ [eof]) = Ok (e2, [eof]))
      by (apply (proj2 (proj2 (proj2 (proj2 (parser_more_fuel k2 (S k2) (Nat.le_succ_diag_r k2)))))), T2).
    destruct P as [P|P]; rewrite P; cbn [TokenType_eqb];
      rewrite eat_cons by assumption; cbn [bind snd]; rewrite T'; cbn [bind];
      rewrite term_loop_S, SU; cbn [bind]; rewrite SD; reflexivity. }
  destruct (C p _ _ _ P L) as [k' Hk'].
  apply (parse_with_enough (S k')).
  rewrite (parse_with_same_start _ (S k') _ _ _ _ _ _ _ H E)
    by (destruct P as [-> | ->]; discriminate).
  apply expr_of_term; assumption.
Qed.

(** X13: powers group to the right, and a sign binds tighter than a
    power.  If the tokens [body1] are an expression that [unary] reads
    whole, with the tree [e1], and [power] reads the tokens [body2] as
    [e2], then [body1 ^ body2] is the tree of [^] over [e1] and [e2]: the
    left operand is one signed primary, the right operand a whole power. *)
Theorem a_power_takes_the_power_after_it (body1 body2 : list token)
    (eof p : token) (e1 e2 : node) (k1 k2 : nat) :
  parse (body1 ++ [eof]) = Ok (e1, [eof]) -> is_expression e1 = true ->
  unary k1 (body1 ++ [eof]) = Ok (e1, [eof]) ->
  power k2 (body2 ++ [eof]) = Ok (e2, [eof]) ->
  type p = POW ->
  parse (body1 ++ p :: body2 ++ [eof]) = Ok (BinOp "^" e1 e2, [eof]).
Proof.
  intros H E U T P. unfold parse in H.
  pose proof (parse_with_expression _ _ _ _ H E) as X.
  destruct (expr_stops _ _ _ _ X) as [SP SM].
  destruct (expr_stops_term _ _ _ _ X) as (_ & SU & SD).
  destruct (proj1 (proj2 (proj2 (proj2 (proj2 (proj2 (parser_reads k1))))))
              _ _ _ U) as (t & pre & Hts & R).
  apply app_inj_tail in Hts as [-> _].
  pose proof (R (p :: body2 ++ [eof]) (or_introl eq_refl)) as U'.
  assert (W : power (S (Nat.max k1 k2)) ((t :: pre) ++ p :: body2 ++ [eof]) =
              Ok (BinOp "^" e1 e2, [eof])).
  { rewrite power_S.
    destruct (proj2 (parser_monotone_le k1 _ (Nat.le_max_l k1 k2))
                ((t :: pre) ++ p :: body2 ++ [eof])) as [O|<-];
      [rewrite U' in O; discriminate O|].
    rewrite U'. cbn [bind]. rewrite at_cons, P. cbn [TokenType_eqb bind].
    rewrite eat_cons by assumption. cbn [bind snd].
    rewrite (proj2 (proj2 (proj2 (proj2 (parser_more_fuel k2 _ (Nat.le_max_r k1 k2)))))
               _ _ T).
    reflexivity. }
  apply (parse_with_enough (S (S (S (Nat.max k1 k2))))).
  rewrite (parse_with_same_start _ _ _ _ _ _ _ _ _ H E)
    by (rewrite P; discriminate).
  apply expr_of_term; [|assumption|assumption].
  apply term_of_power; assumption.
Qed.

(** X14: a minus sign takes the unary behind it.  If [unary] reads the
    tokens [body] as [e], up to a token at which an expression ends, then
    [- body] is the tree [UnaryOp("-", e)]. *)
Theorem a_minus_takes_the_unary_after_it (m eof : token) (body : list token)
    (e : node) (k : nat) :
  type m = MINUS -> unary k (body ++ [eof]) = Ok (e, [eof]) ->
  stops_expr (type eof) = true ->
  parse (m :: body ++ [eof]) = Ok (UnaryOp "-" e, [eof]).
Proof.
  intros M U St.
  apply (parse_with_enough (S (S (S (S k))))). unfold parse_with.
  rewrite !at_cons, M. cbn [TokenType_eqb bind].
  apply climb; [|exact St].
  rewrite unary_S, !at_cons, M. cbn [TokenType_eqb bind].
  rewrite eat_cons by assumption. cbn [bind snd]. rewrite U. reflexivity.
Qed.

(** ** A parser error names a token *)

Lemma names_Ok (ts rest : list token) (nd : node) :
  incl rest ts -> names ts (Ok (nd, rest)).
Proof. intros I. split; [discriminate|]. intros nd' rest' [= <- <-]. exact I. Qed.

Lemma names_out (ts : list token) : names ts (Raise OutOfFuel).
Proof. split; [|discriminate]. intros e [= <-]. auto. Qed.

Lemma names_TypeError (ts : list token) : names ts (Raise TypeError).
Proof. split; [|discriminate]. intros e [= <-]. auto. Qed.

Lemma names_incl (ts' ts : list token) r :
  incl ts' ts -> names ts' r -> names ts r.
Proof.
  intros I [Hr Ho]. split.
  - intros e E. destruct (Hr e E) as [H|[H|[H|(t & Ht & H)]]]; auto.
    do 3 right. exists t. split; [apply I, Ht|exact H].
  - intros nd rest E. eapply incl_tran; [eapply Ho; exact E|exact I].
Qed.

Lemma names_bind (ts : list token) (r : result (node * list token))
    (k : node * list token -> result (node * list token)) :
  names ts r -> (forall nd rest, incl rest ts -> names ts (k (nd, rest))) ->
  names ts (bind r k).
Proof.
  intros [Hr Ho] Hk. destruct r as [[nd rest]|e]; cbn [bind].
  - apply Hk. eapply Ho. reflexivity.
  - split; [|discriminate]. intros e' [= <-]. apply Hr. reflexivity.
Qed.

Lemma names_at (ts ts' : list token) (kind : TokenType)
    (k : bool -> result (node * list token)) :
  (forall b, names ts (k b)) -> names ts (bind (at_ kind ts') k).
Proof.
  intros Hk. destruct ts' as [|t ts0]; cbn [at_ peek bind]; [|apply Hk].
  split; [|discriminate]. intros e [= <-]. auto.
Qed.

Lemma names_eat (ts ts' : list token) (kind : TokenType)
    (k : token * list token -> result (node * list token)) :
  incl ts' ts ->
  (forall t rest, incl rest ts -> names ts (k (t, rest))) ->
  names ts (bind (eat kind ts') k).
Proof.
  intros I Hk. destruct ts' as [|t ts0]; unfold eat; cbn [peek bind tl].
  - split; [|discriminate]. intros e [= <-]. auto.
  - destruct (negb (TokenType_eqb (type t) kind)); cbn [bind].
    + split; [|discriminate]. intros e [= <-]. do 3 right.
      exists t. split; [apply I; left; reflexivity|eauto].
    + apply Hk. eapply incl_tran; [apply incl_tl, incl_refl|exact I].
Qed.

Ltac names_step :=
  match goal with
  | |- names _ (Ok _) => apply names_Ok; assumption
  | |- names _ (Raise OutOfFuel) => apply names_out
  | |- names _ (bind (at_ _ _) _) => apply names_at; intros ?
  | |- names _ (bind (eat _ _) _) =>
      apply names_eat; [assumption|intros ? ? ?; cbn [snd]]
  | |- names _ (if ?b then _ else _) => destruct b
  | |- names _ (bind (as_number ?v) _) =>
      destruct v; cbn [as_number bind]; try apply names_TypeError
  | |- names _ (bind (as_name ?v) _) =>
      destruct v; cbn [as_name bind]; try apply names_TypeError
  | H : forall ts, names ts (?f ts) |- names _ (bind (?f ?ts') _) =>
      apply names_bind; [apply (names_incl ts'); [assumption|apply H]
                        |intros ? ? ?]
  | H : forall nd ts, names ts (?f nd ts) |- names _ (?f ?nd ?ts') =>
      apply (names_incl ts'); [assumption|apply H]
  | H : forall ts, names ts (?f ts) |- names _ (?f ?ts') =>
      apply (names_incl ts'); [assumption|apply H]
  end.

Lemma parser_names n :
  (forall ts, names ts (expr n ts)) /\
  (forall nd ts, names ts (expr_loop n nd ts)) /\
  (forall ts, names ts (term n ts)) /\
  (forall nd ts, names ts (term_loop n nd ts)) /\
  (forall ts, names ts (power n ts)) /\
  (forall ts, names ts (unary n ts)) /\
  (forall ts, names ts (primary n ts)).
Proof.
  induction n as [|n (IHe & IHel & IHt & IHtl & IHp & IHu & IHpr)].
  - split; [|split; [|split; [|split; [|split; [|split]]]]];
      intros; apply names_out.
  - split; [|split; [|split; [|split; [|split; [|split]]]]].
    + intros ts. pose proof (incl_refl ts). rewrite expr_S. repeat names_step.
    + intros nd ts. pose proof (incl_refl ts). rewrite expr_loop_S.
      repeat names_step.
    + intros ts. pose proof (incl_refl ts). rewrite term_S. repeat names_step.
    + intros nd ts. pose proof (incl_refl ts). rewrite term_loop_S.
      repeat names_step.
    + intros ts. pose proof (incl_refl ts). rewrite power_S. repeat names_step.
    + intros ts. pose proof (incl_refl ts). rewrite unary_S. repeat names_step.
    + intros ts. pose proof (incl_refl ts). rewrite primary_S.
      destruct ts as [|t ts0]; cbn [peek bind].
      { split; [|discriminate]. intros e [= <-]. auto. }
      destruct (TokenType_eqb (type t) NUMBER);
        [|destruct (TokenType_eqb (type t) IDENT);
          [|destruct (TokenType_eqb (type t) LPAREN)]].
      * repeat names_step.
      * repeat names_step.
      * repeat names_step.
      * split; [|discriminate]. intros e [= <-]. do 3 right.
        exists t. split; [left; reflexivity|auto].
Qed.

Lemma names_IndexError (ts : list token) : names ts (Raise IndexError).
Proof. split; [|discriminate]. intros e [= <-]. auto. Qed.

Lemma parse_with_names n (ts : list token) : names ts (parse_with n ts).
Proof.
  destruct (parser_names n) as (He & _).
  pose proof (incl_refl ts). unfold parse_with.
  apply names_at. intros [|].
  - repeat names_step.
  - apply names_at. intros [|]; [|apply He].
    destruct ts as [|t [|next ts1]]; cbn [peek lookahead bind];
      try apply names_IndexError.
    repeat names_step.
Qed.

Lemma get_Some_length (s : string) :
  forall k ch, String.get k s = Some ch -> k < String.length s.
Proof.
  induction s as [|c s IH]; intros k ch; [discriminate|].
  destruct k as [|k]; cbn [String.get String.length]; [lia|].
  intros H. apply IH in H. lia.
Qed.

Lemma lexes_inside (s : string) (i : nat) (toks : list token) (t : token) :
  lexes s i toks -> In t toks -> pos t <= i + String.length s.
Proof.
  intros (body & -> & B & _) I. apply in_app_iff in I as [I|[<-|[]]].
  - rewrite List.Forall_forall in B. destruct (B t I) as (k & ch & -> & G & _).
    apply get_Some_length in G. lia.
  - reflexivity.
Qed.

(** X30: the parser does not read the positions.  Moving every token of a
    list [k] characters further changes neither the tree nor what is read;
    the tokens that are left, and the position in a message, move by
    [k]. *)
Theorem positions_reach_only_the_messages (k : nat) (ts : list token) :
  parse (map (move k) ts) = move_result (move_parsed k) k (parse ts).
Proof. apply parse_move. Qed.

(** X15: a parser error names a token of the line.  On the tokens of a
    line, what [parse] raises is [RecursionError], when the line is nested
    more deeply than the interpreter allows, or one of the two messages of
    the parser, [Unexpected token] or [Expected ... but found], with the
    type and the position of a token of the line; the position is an
    offset into the line, or its length. *)
Theorem parser_errors_name_a_token (text : string) (toks : list token)
    (e : exn) :
  tokens text = Ok toks -> parse toks = Raise e ->
  e = RecursionError \/
  exists t,
    In t toks /\ pos t <= String.length text /\
    (e = SyntaxError (Unexpected_token (type t) (pos t)) \/
     exists kind, e = SyntaxError (Expected_but_found kind (type t) (pos t))).
Proof.
  intros T P. right.
  destruct (parse_lexed toks e (tokens_lexed text toks T) P) as [msg ->].
  destruct (parse_with_names (parse_fuel (List.length toks)) toks) as [Hr _].
  destruct (Hr _ P) as [H|[H|[H|(t & I & H)]]]; try discriminate H.
  exists t. split; [exact I|]. split; [|exact H].
  apply (lexes_inside text 0 toks t); [exact (tokens_loop_lexes _ _ _ _ T)|exact I].
Qed.

(** * More of the code generator and the machine *)

(** ** The stack under the operands *)

Lemma binary_frame (f : num -> num -> result num) (s0 under : list num)
    (vars : gmap string num) (out : list num) (m1 : vm) (out1 : list num)
    (st : option exn) :
  binary f (mkVM s0 vars) out = (m1, out1, st) -> st <> Some IndexError ->
  binary f (mkVM (s0 ++ under) vars) out =
  (mkVM (stack m1 ++ under) (env m1), out1, st).
Proof.
  unfold binary, set_stack. cbn [stack env].
  destruct s0 as [|b [|a s]]; cbn [app].
  - intros [= <- <- <-]. congruence.
  - intros [= <- <- <-]. congruence.
  - destruct (f a b); intros [= <- <- <-] _; reflexivity.
Qed.


Lemma exec_frame (ins : instr) (s0 under : list num) (vars : gmap string num)
    (out : list num) (m1 : vm) (out1 : list num) (st : option exn) :
  exec ins (mkVM s0 vars) out = (m1, out1, st) -> st <> Some IndexError ->
  exec ins (mkVM (s0 ++ under) vars) out =
  (mkVM (stack m1 ++ under) (env m1), out1, st).
Proof.
  unfold exec.
  repeat match goal with
         | |- context [String.eqb ?a ?b] => destruct (String.eqb a b)
         end;
    try apply binary_frame; unfold set_stack; cbn [stack env].
  all: destruct (arg ins); try destruct (vars !! _);
    destruct s0 as [|top s0]; cbn [app]; try destruct (printable top);
    intros [= <- <- <-] N; solve [reflexivity | congruence].
Qed.

Lemma run_frame (c : list instr) :
  forall (s0 under : list num) (vars : gmap string num) (out : list num)
         (m1 : vm) (out1 : list num) (st : option exn),
    run c (mkVM s0 vars) out = (m1, out1, st) -> st <> Some IndexError ->
    run c (mkVM (s0 ++ under) vars) out =
    (mkVM (stack m1 ++ under) (env m1), out1, st).
Proof.
  induction c as [|ins c IH]; intros s0 under vars out m1 out1 st; cbn [run].
  - intros [= <- <- <-] _. reflexivity.
  - destruct (exec ins (mkVM s0 vars) out) as [[m' out'] [e|]] eqn:E.
    + intros [= <- <- <-] N.
      rewrite (exec_frame _ _ under _ _ _ _ _ E N). reflexivity.
    + intros H N. rewrite (exec_frame _ _ under _ _ _ _ _ E) by discriminate.
      destruct m' as [s' vars']. apply IH; assumption.
Qed.

Lemma compile_and_run_frame (line : string) (s : list num)
    (vars : gmap string num) (out : list num) (m1 : vm) (out1 : list num)
    (st : option exn) :
  compile_and_run line (mkVM [] vars) out = (m1, out1, st) ->
  compile_and_run line (mkVM s vars) out =
  (mkVM (stack m1 ++ s) (env m1), out1, st).
Proof.
  intros H.
  assert (N : st <> Some IndexError).
  { intros ->. apply compile_and_run_reported in H. exact H. }
  unfold compile_and_run in *. destruct (compile line) as [c|e].
  - apply (run_frame c [] s); assumption.
  - injection H as <- <- <-. reflexivity.
Qed.

Lemma gen_operators (n : node) :
  forall code,
    match gen n code with
    | Ok _ => parser_operators n = true
    | Raise e =>
        parser_operators n = false /\
        (e = RecursionError \/ exists what, e = NotImplementedError what)
    end.
Proof.
  induction n as [v|name|o l IHl r IHr|o e IHe|name e IHe|e IHe|];
    intros code; cbn [gen parser_operators].
  - reflexivity.
  - reflexivity.
  - specialize (IHl code). destruct (gen l code) as [code1|err]; cbn [bind].
    + specialize (IHr code1). destruct (gen r code1) as [code2|err]; cbn [bind].
      * rewrite IHl, IHr.
        destruct (String.eqb o "+"), (String.eqb o "-"), (String.eqb o "*"),
          (String.eqb o "/"), (String.eqb o "^"); cbn; eauto.
      * destruct IHr as [-> IHr]. rewrite andb_false_r. auto.
    + destruct IHl as [-> IHl]. rewrite andb_false_r. auto.
  - specialize (IHe code). destruct (gen e code) as [code1|err]; cbn [bind].
    + rewrite IHe. destruct (String.eqb o "-"); cbn; eauto.
    + destruct IHe as [-> IHe]. rewrite andb_false_r. auto.
  - specialize (IHe code). destruct (gen e code); cbn [bind]; assumption.
  - specialize (IHe code). destruct (gen e code); cbn [bind]; assumption.
  - auto.
Qed.

Lemma gen_Ok_built (e : node) (c : list instr) :
  is_expression e = true -> gen e [] = Ok c -> built e.
Proof.
  intros He Hc. split; [assumption|].
  pose proof (gen_operators e []) as H. rewrite Hc in H. exact H.
Qed.

Lemma run_code_of_expression (e : node) (c : list instr) (m : vm) (out : list num) :
  is_expression e = true -> gen e [] = Ok c ->
  match denote e (env m) with
  | Ok v => run c m out = (set_stack m (v :: stack m), out, None)
  | Raise err =>
      reported err /\
      exists s, run c m out = (set_stack m (s ++ stack m), out, Some err)
  end.
Proof.
  intros He Hc. pose proof (run_expression e He c Hc m out) as H.
  destruct (denote e (env m)) as [v|err] eqn:D; [exact H|].
  assert (R : reported err).
  { eapply denote_reported; [eapply gen_Ok_built|]; eassumption. }
  split; [exact R|].
  pose proof (run_expression e He c Hc (mkVM [] (env m)) out) as H0.
  cbn [env] in H0. rewrite D in H0. destruct H0 as [s H0].
  exists s. destruct m as [s1 vars].
  apply (run_frame c [] s1) in H0; [exact H0|].
  intros [= ->]. exact R.
Qed.

(** ** What the code generator and the machine guarantee *)

Lemma gen_length (n : node) :
  forall c, gen n [] = Ok c -> List.length c = node_count n.
Proof.
  induction n as [v|name|o l IHl r IHr|o e IHe|name e IHe|e IHe|];
    intros c; cbn [gen node_count].
  - intros [= <-]. reflexivity.
  - intros [= <-]. reflexivity.
  - destruct (gen l []) as [cl|] eqn:L; cbn [bind]; [|discriminate].
    rewrite (gen_appends r cl).
    destruct (gen r []) as [cr|] eqn:R; cbn [bind]; [|discriminate].
    intros H. apply gen_binary_inv in H as (f & name & _ & -> & _).
    rewrite !length_app, (IHl cl eq_refl), (IHr cr eq_refl). cbn. lia.
  - destruct (gen e []) as [ce|] eqn:G; cbn [bind]; [|discriminate].
    destruct (String.eqb o "-"); [|discriminate].
    intros [= <-]. unfold emit. rewrite length_app, (IHe ce eq_refl). cbn. lia.
  - destruct (gen e []) as [ce|] eqn:G; cbn [bind]; [|discriminate].
    intros [= <-]. unfold emit. rewrite length_app, (IHe ce eq_refl). cbn. lia.
  - destruct (gen e []) as [ce|] eqn:G; cbn [bind]; [|discriminate].
    intros [= <-]. unfold emit. rewrite length_app, (IHe ce eq_refl). cbn. lia.
  - discriminate.
Qed.


(** X17: [gen] only appends, one instruction for each node of the tree,
    each with the operand of its opcode; what it appends does not depend on
    the code that is there already. *)
Theorem gen_emits_one_instruction_per_node (n : node) (code c : list instr) :
  gen n code = Ok c ->
  exists c',
    c = code ++ c' /\ gen n [] = Ok c' /\
    List.length c' = node_count n /\ forallb typed_instr c' = true.
Proof.
  rewrite gen_appends. destruct (gen n []) as [c'|] eqn:G; cbn [bind];
    [|discriminate].
  intros [= <-]. exists c'. split; [reflexivity|]. split; [reflexivity|].
  split; [apply gen_length; exact G|].
  apply (gen_typed n [] c' eq_refl G).
Qed.

(** X18: the bytecode of an expression computes the expression.  Run on
    any machine, it pushes the value the expression has in the variables
    of the machine, with the operands of every operator in source order;
    followed by [PRINT] it gives the stack back and prints that value,
    or raises the [ValueError] of [str] and prints nothing when the value
    is an [int] of more than 4300 digits; followed by [STORE] it binds the
    name to that value and gives the stack back.  If the expression has no
    value, the three of them raise what the evaluation raises, print
    nothing, write no variable, and leave the stack as it was under what
    they had pushed. *)
Theorem bytecode_computes_the_expression (e : node) (c : list instr)
    (name : string) (m : vm) (out : list num) :
  is_expression e = true -> gen e [] = Ok c ->
  gen (PrintStmt e) [] = Ok (c ++ [mkInstr "PRINT" PyNone]) /\
  gen (Assign name e) [] = Ok (c ++ [mkInstr "STORE" (PyStr name)]) /\
  match denote e (env m) with
  | Ok v =>
      run c m out = (set_stack m (v :: stack m), out, None) /\
      run (c ++ [mkInstr "PRINT" PyNone]) m out =
        (if printable v then (m, out ++ [v], None)
         else (m, out, Some (ValueError digit_limit))) /\
      run (c ++ [mkInstr "STORE" (PyStr name)]) m out =
        (mkVM (stack m) (<[name := v]> (env m)), out, None)
  | Raise err =>
      exists s,
        run c m out = (set_stack m (s ++ stack m), out, Some err) /\
        run (c ++ [mkInstr "PRINT" PyNone]) m out =
          (set_stack m (s ++ stack m), out, Some err) /\
        run (c ++ [mkInstr "STORE" (PyStr name)]) m out =
          (set_stack m (s ++ stack m), out, Some err)
  end.
Proof.
  intros He Hc. cbn [gen]. rewrite Hc. cbn [bind].
  split; [reflexivity|]. split; [reflexivity|].
  pose proof (run_code_of_expression e c m out He Hc) as R.
  rewrite !run_app.
  destruct (denote e (env m)) as [v|err].
  - rewrite R, !run_one, exec_print, exec_store, set_stack_same. auto.
  - destruct R as (_ & s & R). exists s. rewrite R. auto.
Qed.

(** X19: the machine works on top of its stack.  If a piece of bytecode
    runs from some stack without reaching under it, then on top of any
    other values it does the same: same output, same variables, same
    exception, and the values underneath are where they were. *)
Theorem bytecode_runs_on_top_of_the_stack (c : list instr)
    (s0 under : list num) (vars : gmap string num) (out : list num)
    (m1 : vm) (out1 : list num) (st : option exn) :
  run c (mkVM s0 vars) out = (m1, out1, st) -> st <> Some IndexError ->
  run c (mkVM (s0 ++ under) vars) out =
  (mkVM (stack m1 ++ under) (env m1), out1, st).
Proof. apply run_frame. Qed.

(** * More of the pipeline on whole lines *)

Lemma compile_and_run_effect (line : string) (m m' : vm) (out out' : list num)
    (st : option exn) :
  compile_and_run line m out = (m', out', st) ->
  (st = None /\ exists v, out' = out ++ [v] /\ m' = m) \/
  (st = None /\ exists name v,
      out' = out /\ m' = mkVM (stack m) (<[name := v]> (env m))) \/
  (st = None /\ exists v, out' = out /\ m' = set_stack m (v :: stack m)) \/
  (exists err s, st = Some err /\ reported err /\ out' = out /\
                 m' = set_stack m (s ++ stack m)).
Proof.
  intros H.
  assert (Stop : forall err, (m', out', st) = (m, out, Some err) ->
            exists err s, st = Some err /\ reported err /\ out' = out /\
                          m' = set_stack m (s ++ stack m)).
  { intros err E. rewrite E in H. injection E as -> -> ->.
    exists err, []. cbn [app]. rewrite set_stack_same.
    apply compile_and_run_reported in H. auto. }
  unfold compile_and_run, compile, parse_line in H.
  destruct (tokens line) as [toks|e]; cbn [bind] in H;
    [|right; right; right; eapply Stop; symmetry; exact H].
  destruct (parse toks) as [[s rest]|e] eqn:P; cbn [bind fst] in H;
    [|right; right; right; eapply Stop; symmetry; exact H].
  clear Stop. unfold parse in P. apply parse_with_builds in P.
  destruct P as [(e & -> & B)|[(name & e & -> & B)|B]].
  - destruct (gen_built e B) as [c Hc]. cbn [gen] in H. rewrite Hc in H.
    cbn [bind] in H. unfold emit in H. rewrite run_app in H.
    pose proof (run_code_of_expression e c m out (proj1 B) Hc) as R.
    destruct (denote e (env m)) as [v|err].
    + rewrite R, run_one, exec_print, set_stack_same in H.
      destruct (printable v); injection H as <- <- <-; [left; eauto|].
      right; right; right. exists (ValueError digit_limit), [].
      cbn [app]. rewrite set_stack_same. cbn [reported]. auto.
    + destruct R as (Rep & s & R). rewrite R in H. injection H as <- <- <-.
      right; right; right. eauto 10.
  - destruct (gen_built e B) as [c Hc]. cbn [gen] in H. rewrite Hc in H.
    cbn [bind] in H. unfold emit in H. rewrite run_app in H.
    pose proof (run_code_of_expression e c m out (proj1 B) Hc) as R.
    destruct (denote e (env m)) as [v|err].
    + rewrite R, run_one, exec_store in H.
      injection H as <- <- <-. right; left. eauto 10.
    + destruct R as (Rep & s0 & R). rewrite R in H. injection H as <- <- <-.
      right; right; right. eauto 10.
  - destruct (gen_built s B) as [c Hc]. rewrite Hc in H.
    pose proof (run_code_of_expression s c m out (proj1 B) Hc) as R.
    destruct (denote s (env m)) as [v|err].
    + rewrite R in H. injection H as <- <- <-. right; right; left. eauto.
    + destruct R as (Rep & s0 & R). rewrite R in H. injection H as <- <- <-.
      right; right; right. eauto 10.
Qed.

(** X20: what one line can do.  It prints one value and changes nothing;
    or it binds one name and prints nothing; or it pushes one value and
    prints nothing (the bare expression); or it fails, with an exception of
    its text, its variables or its arithmetic, the [ValueError] of the
    digit limit of [int] and [str] among them, or with [RecursionError]
    when it is nested more deeply than the interpreter allows, and then
    nothing has been printed, no variable has changed, and the stack holds
    what it held, under the operands that were waiting. *)
Theorem effect_of_a_line (line : string) (m m' : vm) (out out' : list num)
    (st : option exn) :
  compile_and_run line m out = (m', out', st) ->
  (st = None /\ exists v, out' = out ++ [v] /\ m' = m) \/
  (st = None /\ exists name v,
      out' = out /\ m' = mkVM (stack m) (<[name := v]> (env m))) \/
  (st = None /\ exists v, out' = out /\ m' = set_stack m (v :: stack m)) \/
  (exists err s, st = Some err /\ (reported err \/ err = RecursionError) /\
                 out' = out /\ m' = set_stack m (s ++ stack m)).
Proof.
  intros H. apply compile_and_run_effect in H
    as [H|[H|[H|(err & s & H1 & H2 & H3)]]]; eauto 10.
Qed.

(** X21: no line reads the stack it finds.  What a line does on a machine
    with an empty stack, it does on any stack with the same variables, on
    top of it. *)
Theorem a_line_never_reads_the_stack (line : string) (s : list num)
    (vars : gmap string num) (out : list num) (m1 : vm) (out1 : list num)
    (st : option exn) :
  compile_and_run line (mkVM [] vars) out = (m1, out1, st) ->
  compile_and_run line (mkVM s vars) out =
  (mkVM (stack m1 ++ s) (env m1), out1, st).
Proof. apply compile_and_run_frame. Qed.




(** X23: [print w] looks the name up.  For every name [w], the line
    [print w] prints the value of [w] and changes nothing; if that value
    is an [int] of more than 4300 digits it raises the [ValueError] of
    [str] instead, and if [w] is not bound it raises [NameError] with the
    name; both times it prints nothing and changes nothing. *)
Theorem print_of_a_name (w : string) (m : vm) (out : list num) :
  is_name w = true ->
  compile_and_run (String.append "print " w) m out =
  match env m !! w with
  | Some v =>
      if printable v then (m, out ++ [v], None)
      else (m, out, Some (ValueError digit_limit))
  | None => (m, out, Some (NameError w))
  end.
Proof.
  intros N. unfold compile_and_run, compile, parse_line.
  rewrite tokens_print, (tokens_name w N). cbn [move_result map bind].
  change (parse _) with
    (Ok (PrintStmt (Var w) : node, [move 6 (mkToken EOF PyNone (String.length w) : token)])).
  cbn [bind fst gen emit app run]. unfold exec at 1. cbn [op arg String.eqb Ascii.eqb Bool.eqb].
  destruct (env m !! w) as [v|]; [|reflexivity].
  rewrite exec_print, set_stack_same. destruct (printable v); reflexivity.
Qed.

(** X24: a line of nothing but whitespace.  The lexer gives the [EOF]
    alone, at the length of the line; the parser finds no expression, and
    the line raises the [SyntaxError] of [primary] on that token, leaving
    the machine as it was.  The session does not get that far: it strips
    the line, finds it empty and asks for the next one. *)
Theorem blank_line (text : string) (m : vm) (out : list num)
    (inputs : list input_event) (terminal : list (output hfloat)) :
  blank text = true ->
  tokens text = Ok [mkToken EOF PyNone (String.length text)] /\
  compile_and_run text m out =
    (m, out, Some (SyntaxError (Unexpected_token EOF (String.length text)))) /\
  repl_loop (Line text :: inputs) m terminal =
    repl_loop inputs m (terminal ++ [Prompt]).
Proof.
  intros B.
  assert (T : tokens text = Ok [mkToken EOF PyNone (String.length text) : token]).
  { rewrite <- (append_empty text) at 1. rewrite (tokens_blank text "" B).
    cbn. unfold move. cbn. rewrite Nat.add_0_r. reflexivity. }
  split; [exact T|]. split.
  - unfold compile_and_run, compile, parse_line. rewrite T. reflexivity.
  - cbn [repl_loop]. unfold strip. rewrite (lstrip_blank text B). reflexivity.
Qed.

(** * The session *)

(** ** The loop of the session *)

Lemma repl_loop_leaves (inputs : list input_event) :
  forall (m : vm) (terminal : list (output hfloat)),
    snd (repl_loop inputs m terminal) = existsb leaves inputs.
Proof.
  induction inputs as [|ev inputs IH]; intros m terminal; [reflexivity|].
  destruct ev as [text| |]; cbn [repl_loop existsb leaves orb].
  - destruct (String.eqb (strip text) "") eqn:E.
    + apply String.eqb_eq in E. rewrite E. apply IH.
    + destruct (String.eqb (lower (strip text)) "exit"
                || String.eqb (lower (strip text)) "quit"); [reflexivity|].
      cbn [orb].
      destruct (String.eqb (lower (strip text)) "env");
      [destruct (forallb _ _); apply IH|].
      destruct (compile_and_run (strip text) m []) as [[m' printed] [e|]];
        apply IH.
  - reflexivity.
  - apply IH.
Qed.

Lemma repl_loop_stops (pre : list input_event) (ev : input_event) :
  leaves ev = true ->
  forall (post : list input_event) (m : vm) (terminal : list (output hfloat)),
    repl_loop (pre ++ ev :: post) m terminal = repl_loop (pre ++ [ev]) m terminal.
Proof.
  intros L post. induction pre as [|ev' pre IH]; intros m terminal; cbn [app].
  - destruct ev as [text| |]; cbn [repl_loop]; [|reflexivity|discriminate L].
    cbn [leaves] in L. destruct (String.eqb (strip text) "") eqn:E.
    + apply String.eqb_eq in E. rewrite E in L. discriminate L.
    + rewrite L. reflexivity.
  - destruct ev' as [text| |]; cbn [repl_loop]; [|reflexivity|apply IH].
    destruct (String.eqb (strip text) ""); [apply IH|].
    destruct (String.eqb (lower (strip text)) "exit"
              || String.eqb (lower (strip text)) "quit"); [reflexivity|].
    destruct (String.eqb (lower (strip text)) "env");
      [destruct (forallb _ _); apply IH|].
    destruct (compile_and_run (strip text) m []) as [[m' printed] [e|]];
      apply IH.
Qed.

Lemma repl_loop_stack (inputs : list input_event) :
  forall (s1 s2 : list num) (vars : gmap string num)
         (terminal : list (output hfloat)),
    seen (repl_loop inputs (mkVM s1 vars) terminal) =
    seen (repl_loop inputs (mkVM s2 vars) terminal).
Proof.
  induction inputs as [|ev inputs IH]; intros s1 s2 vars terminal;
    [reflexivity|].
  destruct ev as [text| |]; cbn [repl_loop]; [|reflexivity|apply IH].
  destruct (String.eqb (strip text) ""); [apply IH|].
  destruct (String.eqb (lower (strip text)) "exit"
            || String.eqb (lower (strip text)) "quit"); [reflexivity|].
  destruct (String.eqb (lower (strip text)) "env");
      [destruct (forallb _ _); apply IH|].
  destruct (compile_and_run (strip text) (mkVM [] vars) [])
    as [[m1 printed] st] eqn:E.
  rewrite (compile_and_run_frame _ s1 _ _ _ _ _ E).
  rewrite (compile_and_run_frame _ s2 _ _ _ _ _ E).
  destruct st; apply IH.
Qed.

(** X25: the session ends on request only.  The loop of [repl] is left at
    the first input that is an interrupt or, stripped and in lower case,
    the word [exit] or [quit]; what comes after that input is never read.
    No error of a line and no end of the input ends the session. *)
Theorem session_ends_on_request_only (inputs : list input_event) (m : vm)
    (terminal : list (output hfloat)) :
  snd (repl_loop inputs m terminal) = existsb leaves inputs /\
  (forall (pre post : list input_event) (ev : input_event),
      inputs = pre ++ ev :: post -> leaves ev = true ->
      repl_loop inputs m terminal = repl_loop (pre ++ [ev]) m terminal).
Proof.
  split; [apply repl_loop_leaves|].
  intros pre post ev -> L. apply repl_loop_stops. exact L.
Qed.

(** X26: the session never reads the stack.  Two sessions over the same
    inputs, from machines with the same variables, show the same: the same
    terminal, the same end, the same variables.  The values that bare
    expressions and failed lines leave on the stack change nothing. *)
Theorem session_never_reads_the_stack (inputs : list input_event)
    (s1 s2 : list num) (vars : gmap string num)
    (terminal : list (output hfloat)) :
  seen (repl_loop inputs (mkVM s1 vars) terminal) =
  seen (repl_loop inputs (mkVM s2 vars) terminal).
Proof. apply repl_loop_stack. Qed.

(** X27: a line that fails leaves no trace but its message.  It prints
    nothing before the message, the exception is one of its text, its
    variables or its arithmetic, or [RecursionError] when the line is
    nested more deeply than the interpreter allows, no variable changes,
    and the session goes on as if the line had only printed the
    message. *)
Theorem a_failed_line_leaves_no_trace (text : string)
    (inputs : list input_event) (m m' : vm) (terminal : list (output hfloat))
    (printed : list num) (e : exn) :
  strip text <> "" -> leaves (Line text) = false ->
  String.eqb (lower (strip text)) "env" = false ->
  compile_and_run (strip text) m [] = (m', printed, Some e) ->
  printed = [] /\ (reported e \/ e = RecursionError) /\ env m' = env m /\
  seen (repl_loop (Line text :: inputs) m terminal) =
  seen (repl_loop inputs m (terminal ++ [Prompt; Error e])).
Proof.
  intros NE L V H. cbn [repl_loop]. cbn [leaves] in L. rewrite L, V, H.
  apply String.eqb_neq in NE. rewrite NE.
  apply compile_and_run_effect in H
    as [[H _]|[[H _]|[[H _]|(err & s & [= <-] & R & -> & ->)]]];
    try discriminate H.
  split; [reflexivity|]. split; [left; exact R|]. split; [reflexivity|].
  destruct m as [s0 vars]. apply repl_loop_stack.
Qed.

(** X28: the script with arguments.  The arguments, joined by single
    spaces, are one line on a new machine, whatever input is waiting: the
    first argument alone if it is the only one, and otherwise the first
    argument, a space, and the other arguments joined in the same way.
    What the script shows is what this line prints, and what it raises,
    which nothing catches, is what the line raises.  The line prints at
    most one value; if it raises, nothing has been printed, and the
    exception is one of its text, its variables or its arithmetic, or
    [RecursionError] when the line is nested more deeply than the
    interpreter allows. *)
Theorem one_shot_mode (prog arg : string) (args : list string)
    (inputs : list input_event) (terminal : list (output hfloat))
    (raised : option exn) :
  main (prog :: arg :: args) inputs = (terminal, raised) ->
  (exists m' printed,
      compile_and_run (join " " (arg :: args)) new_vm [] =
        (m', printed, raised) /\
      terminal = map Value printed) /\
  join " " [arg] = arg /\
  (forall next rest,
      join " " (arg :: next :: rest) =
      String.append arg (String.append " " (join " " (next :: rest)))) /\
  ((raised = None /\ (terminal = [] \/ exists v, terminal = [Value v])) \/
   (exists e, raised = Some e /\ (reported e \/ e = RecursionError) /\
              terminal = [])).
Proof.
  unfold main. cbn [tl].
  destruct (compile_and_run (join " " (arg :: args)) new_vm [])
    as [[m' printed] st] eqn:H.
  intros [= <- <-].
  split; [exists m', printed; split; reflexivity|].
  split; [reflexivity|]. split; [reflexivity|].
  apply compile_and_run_effect in H
    as [[-> (v & -> & _)]|[[-> (name & v & -> & _)]
        |[[-> (v & -> & _)]|(err & s & -> & R & -> & _)]]]; cbn [map app]; eauto 10.
Qed.

End Properties.

(** * Concrete instances *)

(** C9 at the tokens of [1 2]: whatever follows the [1], here a closing
    parenthesis and nothing else, or the same [2] and then a [3], the
    statement is the one of [1]. *)
Lemma C9_witness :
  exists pre,
    tokens_1_2 = pre ++ tl tokens_1_2 /\
    @parse integer_host
      (pre ++ [mkToken NUMBER (PyNum (PyInt 2)) 2;
               mkToken NUMBER (PyNum (PyInt 3)) 4]) =
      Ok (Num (PyInt 1),
          [mkToken NUMBER (PyNum (PyInt 2)) 2;
           mkToken NUMBER (PyNum (PyInt 3)) 4]) /\
    @parse integer_host (pre ++ [mkToken RPAREN (PyStr ")") 9]) =
      Ok (Num (PyInt 1), [mkToken RPAREN (PyStr ")") 9]).
Proof.
  destruct (proj1 (@C9_trailing_tokens_are_ignored integer_host)
              tokens_1_2 (Num (PyInt 1)) (tl tokens_1_2) eq_refl)
    as (pre & Hpre & Hsame & Hstop).
  exists pre. split; [exact Hpre|]. split.
  - eapply Hsame. reflexivity.
  - apply Hstop. reflexivity.
Defined.

(** C10 at the tokens of [+ 1 2] and at the line [+3*4]. *)
Lemma C10_witness :
  @parse integer_host (mkToken PLUS (PyStr "+") 0 :: tokens_1_2) =
    Ok (Num (PyInt 1), tl tokens_1_2) /\
  @parse_line integer_host "+3*4" =
    Ok (BinOp "*" (Num (PyInt 3)) (Num (PyInt 4))) /\
  no_unary_plus (@Num (@hfloat integer_host) (PyInt 1)) = true.
Proof.
  destruct (@C10_unary_plus_builds_no_node integer_host)
    as (_ & Hplus & Hline & Hno).
  split; [|split].
  - apply Hplus; reflexivity.
  - apply Hline; reflexivity.
  - apply (Hno tokens_1_2 (Num (PyInt 1)) (tl tokens_1_2) eq_refl).
Defined.

(** C3 as it was stated fails: [-2^2] does not parse as the negation of
    [2^2], and [print -2^2] does not print -4. *)
Lemma C3_counterexample :
  @parse_line integer_host "-2^2" <>
    Ok (UnaryOp "-" (BinOp "^" (Num (PyInt 2)) (Num (PyInt 2)))) /\
  snd (fst (@compile_and_run integer_host "print -2^2" new_vm [])) <>
    [PyInt (-4)].
Proof. split; discriminate. Qed.

(** * Concrete instances of the further properties *)

(** X1 at the line [x = 1]. *)
Lemma tokens_stand_where_they_begin_witness :
  @lexes integer_host "x = 1" 0
    [mkToken IDENT (PyStr "x") 0; mkToken ASSIGN (PyStr "=") 2;
     mkToken NUMBER (PyNum (PyInt 1)) 4; mkToken EOF PyNone 5].
Proof.
  exact (@tokens_stand_where_they_begin integer_host "x = 1" _ eq_refl).
Defined.

(** X2 at the line [1 $ 2]. *)
Lemma lexer_errors_name_their_character_witness :
  conversion (SyntaxError (Unexpected_character "$" 2)) \/
  stray "1 $ 2" 0 (SyntaxError (Unexpected_character "$" 2)).
Proof.
  exact (@lexer_errors_name_their_character integer_host "1 $ 2" _ eq_refl).
Defined.

(** X3 at the line [x1 = (2+3)*4]. *)
Lemma lexer_accepts_plain_lines_witness :
  exists toks, @tokens integer_host "x1 = (2+3)*4" = Ok toks.
Proof.
  exact (@lexer_accepts_plain_lines integer_host "x1 = (2+3)*4" eq_refl
           ltac:(cbn; unfold int_max_str_digits; lia)).
Defined.

(** X4 at the text [12+3]: the literal is [12]. *)
Lemma number_reads_one_literal_witness :
  exists taken, "12+3" = String.append taken "+3" /\ points taken <= 1.
Proof.
  destruct (@number_reads_one_literal integer_host "12+3" 0
              (mkToken NUMBER (PyNum (PyInt 12)) 0) "+3" eq_refl)
    as (taken & H1 & _ & H3 & _).
  exists taken. split; assumption.
Defined.

(** X6 at the name [total_2]. *)
Lemma names_are_identifiers_witness :
  @tokens integer_host "total_2" =
  Ok [mkToken IDENT (PyStr "total_2") 0; mkToken EOF PyNone 7].
Proof. exact (@names_are_identifiers integer_host "total_2" eq_refl). Defined.

(** X7 at the line [1 +] behind two spaces: the position 3 of the message
    becomes 5. *)
Lemma indentation_moves_only_the_messages_witness :
  @compile_and_run integer_host "  1 +" new_vm [] =
  (new_vm, [], Some (SyntaxError (Unexpected_token EOF 5))).
Proof.
  exact (@indentation_moves_only_the_messages integer_host "  " "1 +"
           new_vm [] eq_refl).
Defined.

(** X8 at the tokens of [(1+2)]. *)
Lemma parentheses_leave_no_node_witness :
  @parse integer_host
    (mkToken LPAREN (PyStr "(") 0
     :: tokens_1_plus_2 ++ [mkToken RPAREN (PyStr ")") 4; mkToken EOF PyNone 5]) =
  Ok (BinOp "+" (Num (PyInt 1)) (Num (PyInt 2)), [mkToken EOF PyNone 5]).
Proof.
  exact (@parentheses_leave_no_node integer_host
           (mkToken LPAREN (PyStr "(") 0) (mkToken RPAREN (PyStr ")") 4)
           (mkToken EOF PyNone 9) (mkToken EOF PyNone 5)
           tokens_1_plus_2 [] _ eq_refl eq_refl eq_refl eq_refl eq_refl).
Defined.

(** X9 at the tokens of [print (1+2)*4]: the statement prints [1+2]. *)
Lemma print_parenthesis_ends_the_statement_witness :
  @parse integer_host
    (mkToken PRINT (PyStr "print") 0 :: mkToken LPAREN (PyStr "(") 6
     :: tokens_1_plus_2
     ++ mkToken RPAREN (PyStr ")") 10
        :: [mkToken MUL (PyStr "*") 11; mkToken NUMBER (PyNum (PyInt 4)) 12;
            mkToken EOF PyNone 13]) =
  Ok (PrintStmt (BinOp "+" (Num (PyInt 1)) (Num (PyInt 2))),
      [mkToken MUL (PyStr "*") 11; mkToken NUMBER (PyNum (PyInt 4)) 12;
       mkToken EOF PyNone 13]).
Proof.
  exact (@print_parenthesis_ends_the_statement integer_host
           (mkToken PRINT (PyStr "print") 0) (mkToken LPAREN (PyStr "(") 6)
           (mkToken RPAREN (PyStr ")") 10) (mkToken EOF PyNone 9)
           tokens_1_plus_2 _ _ eq_refl eq_refl eq_refl eq_refl eq_refl).
Defined.

(** X10 at the tokens of [(1+2]. *)
Lemma unclosed_parenthesis_witness :
  @parse integer_host
    (mkToken LPAREN (PyStr "(") 0 :: tokens_1_plus_2 ++ [mkToken EOF PyNone 4]) =
  Raise (SyntaxError (Expected_but_found RPAREN EOF 4)).
Proof.
  exact (@unclosed_parenthesis integer_host
           (mkToken LPAREN (PyStr "(") 0) (mkToken EOF PyNone 9)
           (mkToken EOF PyNone 4) tokens_1_plus_2 [] _
           eq_refl eq_refl eq_refl eq_refl ltac:(discriminate)).
Defined.

(** X11 at the tokens of [1+2 - 2*3]. *)
Lemma a_sum_takes_what_stands_before_it_witness :
  @parse integer_host
    (tokens_1_plus_2 ++ mkToken MINUS (PyStr "-") 5
     :: tokens_2_times_3 ++ [mkToken EOF PyNone 9]) =
  Ok (BinOp "-" (BinOp "+" (Num (PyInt 1)) (Num (PyInt 2)))
        (BinOp "*" (Num (PyInt 2)) (Num (PyInt 3))),
      [mkToken EOF PyNone 9]).
Proof.
  exact (@a_sum_takes_what_stands_before_it integer_host
           tokens_1_plus_2 tokens_2_times_3 (mkToken EOF PyNone 9)
           (mkToken MINUS (PyStr "-") 5) _ _ 9
           eq_refl eq_refl eq_refl (or_intror eq_refl)).
Defined.

(** X12 at the tokens of [2*3 / 4^5]. *)
Lemma a_product_takes_the_term_before_it_witness :
  @parse integer_host
    (tokens_2_times_3 ++ mkToken DIV (PyStr "/") 3
     :: tokens_4_power_5 ++ [mkToken EOF PyNone 7]) =
  Ok (BinOp "/" (BinOp "*" (Num (PyInt 2)) (Num (PyInt 3)))
        (BinOp "^" (Num (PyInt 4)) (Num (PyInt 5))),
      [mkToken EOF PyNone 7]).
Proof.
  exact (@a_product_takes_the_term_before_it integer_host
           tokens_2_times_3 tokens_4_power_5 (mkToken EOF PyNone 7)
           (mkToken DIV (PyStr "/") 3) _ _ 9 9
           eq_refl eq_refl eq_refl eq_refl (or_intror eq_refl)).
Defined.

(** X13 at the tokens of [-2 ^ 4^5]. *)
Lemma a_power_takes_the_power_after_it_witness :
  @parse integer_host
    ([mkToken MINUS (PyStr "-") 0; mkToken NUMBER (PyNum (PyInt 2)) 1]
     ++ mkToken POW (PyStr "^") 3
     :: tokens_4_power_5 ++ [mkToken EOF PyNone 7]) =
  Ok (BinOp "^" (UnaryOp "-" (Num (PyInt 2)))
        (BinOp "^" (Num (PyInt 4)) (Num (PyInt 5))),
      [mkToken EOF PyNone 7]).
Proof.
  exact (@a_power_takes_the_power_after_it integer_host
           [mkToken MINUS (PyStr "-") 0; mkToken NUMBER (PyNum (PyInt 2)) 1]
           tokens_4_power_5 (mkToken EOF PyNone 7)
           (mkToken POW (PyStr "^") 3) _ _ 9 9
           eq_refl eq_refl eq_refl eq_refl eq_refl).
Defined.

(** X14 at the tokens of [- -2]. *)
Lemma a_minus_takes_the_unary_after_it_witness :
  @parse integer_host
    (mkToken MINUS (PyStr "-") 0
     :: [mkToken MINUS (PyStr "-") 2; mkToken NUMBER (PyNum (PyInt 2)) 3]
     ++ [mkToken EOF PyNone 4]) =
  Ok (UnaryOp "-" (UnaryOp "-" (Num (PyInt 2))), [mkToken EOF PyNone 4]).
Proof.
  exact (@a_minus_takes_the_unary_after_it integer_host
           (mkToken MINUS (PyStr "-") 0) (mkToken EOF PyNone 4)
           [mkToken MINUS (PyStr "-") 2; mkToken NUMBER (PyNum (PyInt 2)) 3]
           _ 9 eq_refl eq_refl eq_refl).
Defined.

(** X15 at the line [2 * )]: the message names the parenthesis at 4. *)
Lemma parser_errors_name_a_token_witness :
  SyntaxError (Unexpected_token RPAREN 4) = RecursionError \/
  exists t : Token (@hfloat integer_host),
    In t [mkToken NUMBER (PyNum (PyInt 2)) 0; mkToken MUL (PyStr "*") 2;
          mkToken RPAREN (PyStr ")") 4; mkToken EOF PyNone 5] /\
    pos t <= 5 /\
    (SyntaxError (Unexpected_token RPAREN 4) =
       SyntaxError (Unexpected_token (type t) (pos t)) \/
     exists kind,
       SyntaxError (Unexpected_token RPAREN 4) =
       SyntaxError (Expected_but_found kind (type t) (pos t))).
Proof.
  exact (@parser_errors_name_a_token integer_host "2 * )" _ _ eq_refl eq_refl).
Defined.


(** X17 at the tree of [1+x], behind one instruction. *)
Lemma gen_emits_one_instruction_per_node_witness :
  exists c' : list (Instr (@hfloat integer_host)),
    [mkInstr "NEG" PyNone; mkInstr "PUSH" (PyNum (PyInt 1));
     mkInstr "LOAD" (PyStr "x"); mkInstr "ADD" PyNone] =
    [mkInstr "NEG" PyNone] ++ c' /\
    gen (BinOp "+" (Num (PyInt 1)) (Var "x")) [] = Ok c' /\
    List.length c' = 3 /\ forallb typed_instr c' = true.
Proof.
  exact (@gen_emits_one_instruction_per_node integer_host
           (BinOp "+" (Num (PyInt 1)) (Var "x")) [mkInstr "NEG" PyNone] _
           eq_refl).
Defined.

(** X18 at the tree of [1+2]. *)
Lemma bytecode_computes_the_expression_witness :
  @run integer_host
    ([mkInstr "PUSH" (PyNum (PyInt 1)); mkInstr "PUSH" (PyNum (PyInt 2));
      mkInstr "ADD" PyNone] ++ [mkInstr "PRINT" PyNone]) new_vm [] =
  (new_vm, [PyInt 3], None).
Proof.
  pose proof (@bytecode_computes_the_expression integer_host
                (BinOp "+" (Num (PyInt 1)) (Num (PyInt 2))) _ "x" new_vm []
                eq_refl eq_refl) as (_ & _ & H).
  cbn [denote denote_binary String.eqb Ascii.eqb Bool.eqb bind py_add] in H.
  exact (proj1 (proj2 H)).
Defined.

(** X19 at the code of [1+2], on top of a 9. *)
Lemma bytecode_runs_on_top_of_the_stack_witness :
  @run integer_host
    [mkInstr "PUSH" (PyNum (PyInt 1)); mkInstr "PUSH" (PyNum (PyInt 2));
     mkInstr "ADD" PyNone] (mkVM [PyInt 9] ∅) [] =
  (mkVM [PyInt 3; PyInt 9] ∅, [], None).
Proof.
  exact (@bytecode_runs_on_top_of_the_stack integer_host
           [mkInstr "PUSH" (PyNum (PyInt 1)); mkInstr "PUSH" (PyNum (PyInt 2));
            mkInstr "ADD" PyNone] [] [PyInt 9] ∅ [] (mkVM [PyInt 3] ∅) [] None
           eq_refl ltac:(discriminate)).
Defined.

(** X20 at the line [x = 1+2] on a new machine. *)
Lemma effect_of_a_line_witness :
  exists (name : string) (v : pynum (@hfloat integer_host)),
    mkVM [] (<["x" := PyInt 3]> ∅) =
    mkVM (stack new_vm) (<[name := v]> (env new_vm)).
Proof.
  destruct (@effect_of_a_line integer_host "x = 1+2" new_vm
              (mkVM [] (<["x" := PyInt 3]> ∅)) [] [] None eq_refl)
    as [[_ (v & H & _)]|[[_ (name & v & _ & H)]
        |[[_ (v & _ & H)]|(err & s & H & _)]]].
  - discriminate H.
  - exists name, v. exact H.
  - discriminate H.
  - discriminate H.
Defined.

(** X21 at the line [print 1+2], on a 9. *)
Lemma a_line_never_reads_the_stack_witness :
  @compile_and_run integer_host "print 1+2" (mkVM [PyInt 9] ∅) [] =
  (mkVM [PyInt 9] ∅, [PyInt 3], None).
Proof.
  exact (@a_line_never_reads_the_stack integer_host "print 1+2" [PyInt 9] ∅ []
           new_vm [PyInt 3] None eq_refl).
Defined.


(** X23 at the line [print total_2], with the name bound and without. *)
Lemma print_of_a_name_witness :
  @compile_and_run integer_host "print total_2"
    (mkVM [] (<["total_2" := PyInt 3]> ∅)) [] =
  (mkVM [] (<["total_2" := PyInt 3]> ∅), [PyInt 3], None) /\
  @compile_and_run integer_host "print total_2" new_vm [] =
  (new_vm, [], Some (NameError "total_2")).
Proof.
  split.
  - exact (@print_of_a_name integer_host "total_2"
             (mkVM [] (<["total_2" := PyInt 3]> ∅)) [] eq_refl).
  - exact (@print_of_a_name integer_host "total_2" new_vm [] eq_refl).
Defined.

(** X24 at a line of two spaces. *)
Lemma blank_line_witness :
  @compile_and_run integer_host "  " new_vm [] =
  (new_vm, [], Some (SyntaxError (Unexpected_token EOF 2))).
Proof.
  exact (proj1 (proj2 (@blank_line integer_host "  " new_vm [] [] [] eq_refl))).
Defined.

(** X25 at a session of three lines, the second of which is [Exit]
    between spaces: the third line is not read. *)
Lemma session_ends_on_request_only_witness :
  @repl_loop integer_host [Line "x = 1"; Line " Exit "; Line "print x"]
    new_vm [Banner] =
  @repl_loop integer_host [Line "x = 1"; Line " Exit "] new_vm [Banner].
Proof.
  exact (proj2 (@session_ends_on_request_only integer_host
                  [Line "x = 1"; Line " Exit "; Line "print x"] new_vm [Banner])
           [Line "x = 1"] [Line "print x"] (Line " Exit ") eq_refl eq_refl).
Defined.

(** X27 at the line [print y] between spaces, on a new machine. *)
Lemma a_failed_line_leaves_no_trace_witness :
  seen (@repl_loop integer_host [Line " print y "; Line "env"] new_vm [Banner]) =
  seen (@repl_loop integer_host [Line "env"] new_vm
          ([Banner] ++ [Prompt; Error (NameError "y")])).
Proof.
  exact (proj2 (proj2 (proj2
           (@a_failed_line_leaves_no_trace integer_host " print y "
              [Line "env"] new_vm new_vm [Banner] [] (NameError "y")
              ltac:(discriminate) eq_refl eq_refl eq_refl)))).
Defined.

(** X28 at the command line [mini_compiler.py print 1+2]. *)
Lemma one_shot_mode_witness :
  exists m' printed,
    @compile_and_run integer_host "print 1+2" new_vm [] = (m', printed, None) /\
    [@Value (@hfloat integer_host) (PyInt 3)] = map Value printed.
Proof.
  exact (proj1 (@one_shot_mode integer_host "mini_compiler.py" "print" ["1+2"]
                  [] [Value (PyInt 3)] None eq_refl)).
Defined.

(** X29 at the text [2+3*4]. *)
Lemma roundtrip_without_leading_parenthesis_witness :
  exists m1,
    @compile_and_run integer_host "x = 2+3*4" new_vm [] = (m1, [], None) /\
    @compile_and_run integer_host "print x" m1 [] = (m1, [PyInt 14], None).
Proof.
  refine (proj1 (@roundtrip_without_leading_parenthesis integer_host "2+3*4"
                   (BinOp "+" (Num (PyInt 2))
                      (BinOp "*" (Num (PyInt 3)) (Num (PyInt 4))))
                   new_vm [] (PyInt 14) _ _ _) _).
  - eexists _, _. split; [reflexivity|discriminate].
  - reflexivity.
  - reflexivity.
  - reflexivity.
Defined.
